(** * CapturGo-base: balance accrual, wallet validation and the claim-to-mint pipeline

    A shallow embedding of [src/components/EditProfile.tsx],
    [src/components/Rewards.tsx] and the [mintAndClaim] helpers, with the
    properties the specification states about them.

    JavaScript strings are modelled by [string]: every [ascii] is one code
    unit below 256.  The two screens talk to the same collaborators (the
    Supabase [profiles] table, the auth session, AsyncStorage and the token
    contract); they are modelled as one [World] record, and asynchronous
    handlers as programs over a signature of awaited calls. *)

From Stdlib Require Import ZArith List String Ascii Bool Lia.
From Stdlib Require Import Floats.SpecFloat.
From Stdlib Require QArith Qround Lqa Qpower Qabs.
From stdpp Require Import base gmap strings list fin_maps.
Import ListNotations.

Local Open Scope string_scope.
Local Open Scope list_scope.

(* ===================================================================== *)
(** * Regular expressions, as far as [/^0x[a-fA-F0-9]{40}$/] needs them *)
(* ===================================================================== *)

Module Regex.

(** A pattern between the anchors [^] and [$].  A character class is a list
    of inclusive ranges; [r{n}] is the [n]-fold concatenation [rep n r]. *)
Inductive regex : Type :=
| Void                                   (* matches nothing *)
| Eps                                    (* matches the empty string *)
| Chr (c : ascii)                        (* a literal character *)
| Class (ranges : list (ascii * ascii))  (* [a-fA-F0-9] *)
| Cat (r1 r2 : regex)
| Alt (r1 r2 : regex).

Fixpoint rep (n : nat) (r : regex) : regex :=
  match n with
  | O => Eps
  | S n' => Cat r (rep n' r)
  end.

Fixpoint lit (s : string) : regex :=
  match s with
  | EmptyString => Eps
  | String c s' => Cat (Chr c) (lit s')
  end.

Definition in_range (c : ascii) (r : ascii * ascii) : bool :=
  (N.leb (N_of_ascii (fst r)) (N_of_ascii c)) && (N.leb (N_of_ascii c) (N_of_ascii (snd r))).

Definition in_class (c : ascii) (ranges : list (ascii * ascii)) : bool :=
  existsb (in_range c) ranges.

Fixpoint nullable (r : regex) : bool :=
  match r with
  | Void => false
  | Eps => true
  | Chr _ => false
  | Class _ => false
  | Cat r1 r2 => nullable r1 && nullable r2
  | Alt r1 r2 => nullable r1 || nullable r2
  end.

(** Brzozowski derivative: what is left of [r] after reading [c]. *)
Fixpoint deriv (c : ascii) (r : regex) : regex :=
  match r with
  | Void => Void
  | Eps => Void
  | Chr a => if Ascii.eqb a c then Eps else Void
  | Class ranges => if in_class c ranges then Eps else Void
  | Cat r1 r2 =>
      if nullable r1
      then Alt (Cat (deriv c r1) r2) (deriv c r2)
      else Cat (deriv c r1) r2
  | Alt r1 r2 => Alt (deriv c r1) (deriv c r2)
  end.

Fixpoint matches (r : regex) (s : string) : bool :=
  match s with
  | EmptyString => nullable r
  | String c s' => matches (deriv c r) s'
  end.

(** [/^r$/.test(s)]: with both anchors and no [m] flag the whole input has
    to match. *)
Definition test (r : regex) (s : string) : bool := matches r s.

(** The language of a pattern, independent of the matcher. *)
Inductive lang : regex -> string -> Prop :=
| lang_eps : lang Eps ""
| lang_chr c : lang (Chr c) (String c "")
| lang_class c ranges : in_class c ranges = true -> lang (Class ranges) (String c "")
| lang_cat r1 r2 s1 s2 : lang r1 s1 -> lang r2 s2 -> lang (Cat r1 r2) (s1 +:+ s2)
| lang_alt_l r1 r2 s : lang r1 s -> lang (Alt r1 r2) s
| lang_alt_r r1 r2 s : lang r2 s -> lang (Alt r1 r2) s.

End Regex.

(* ===================================================================== *)
(** * EditProfile.tsx: the wallet address validator *)
(* ===================================================================== *)

Module Wallet.
Import Regex.

Definition hex_class : regex :=
  Class [("a", "f"); ("A", "F"); ("0", "9")]%char.

(** [/^0x[a-fA-F0-9]{40}$/] *)
Definition address_pattern : regex :=
  Cat (Chr "0") (Cat (Chr "x") (rep 40 hex_class)).

(** [function validateWalletAddress(address: string): boolean]
    (EditProfile.tsx, lines 194-198).  [!address] is true of the empty
    string only. *)
Definition validateWalletAddress (address : string) : bool :=
  if String.eqb address "" then false
  else test address_pattern address.

(** The format in the specification's words: the literal prefix [0x], then
    exactly 40 hexadecimal digits of either case. *)
Definition is_hex_digit (c : ascii) : Prop :=
  let n := N_of_ascii c in
  (48 <= n <= 57)%N \/ (97 <= n <= 102)%N \/ (65 <= n <= 70)%N.

Fixpoint all_hex (s : string) : Prop :=
  match s with
  | EmptyString => True
  | String c s' => is_hex_digit c /\ all_hex s'
  end.

Definition wallet_format (s : string) : Prop :=
  exists digits, s = "0x" +:+ digits /\ String.length digits = 40 /\ all_hex digits.

End Wallet.

(* ===================================================================== *)
(** * JavaScript strings *)
(* ===================================================================== *)

Module JsString.

(** WhiteSpace and LineTerminator code units below 256: TAB, LF, VT, FF,
    CR, SP and NBSP. *)
Definition is_white_space (c : ascii) : bool :=
  let n := N_of_ascii c in
  ((9 <=? n) && (n <=? 13))%N || (n =? 32)%N || (n =? 160)%N.

Fixpoint trim_start (s : string) : string :=
  match s with
  | String c s' => if is_white_space c then trim_start s' else s
  | EmptyString => s
  end.

Fixpoint trim_end (s : string) : string :=
  match s with
  | String c s' =>
      let t := trim_end s' in
      if is_white_space c && String.eqb t "" then "" else String c t
  | EmptyString => ""
  end.

(** [s.trim()] *)
Definition trim (s : string) : string := trim_end (trim_start s).

(** ToBoolean of a string: only the empty string is falsy. *)
Definition truthy (s : string) : bool := negb (String.eqb s "").

(** [a || b] on strings. *)
Definition or_else (a b : string) : string := if truthy a then a else b.

(** [b.toString()] of a boolean. *)
Definition of_bool (b : bool) : string := if b then "true" else "false".

End JsString.
(* ===================================================================== *)
(** * JavaScript numbers: IEEE 754 binary64 *)
(* ===================================================================== *)

Module JsNumber.
Local Open Scope Z_scope.

Definition prec : Z := 53.
Definition emax : Z := 1024.

(** A Number is a binary64 value: [S754_finite s m e] is [(-1)^s * m * 2^e]. *)
Definition number : Type := spec_float.

Definition NaN : number := S754_nan.
Definition Infinity : number := S754_infinity false.
Definition zero : number := S754_zero false.

(** The arithmetic of [+], [-], [*] and [/]: round to nearest, ties to even. *)
Definition add : number -> number -> number := SFadd prec emax.
Definition sub : number -> number -> number := SFsub prec emax.
Definition mul : number -> number -> number := SFmul prec emax.
Definition div : number -> number -> number := SFdiv prec emax.
Definition neg : number -> number := SFopp.

(** [x < y], [x <= y], [x > y]: false whenever an operand is NaN. *)
Definition lt (x y : number) : bool := SFltb x y.
Definition le (x y : number) : bool := SFleb x y.
Definition gt (x y : number) : bool := SFltb y x.
Definition ge (x y : number) : bool := SFleb y x.

(** ToBoolean: [0], [-0] and [NaN] are falsy. *)
Definition truthy (x : number) : bool :=
  match x with
  | S754_zero _ | S754_nan => false
  | _ => true
  end.

(** The Number nearest to the integer [n]. *)
Definition of_Z (n : Z) : number := binary_normalize prec emax n 0 false.

(** The Number nearest to [n / d], for positive [n] and [d]: the quotient is
    taken with enough bits and rounded once. *)
Definition of_ratio (n d : Z) : number :=
  let '(mz, ez, lz) := SFdiv_core_binary prec emax n 0 d 0 in
  binary_round_aux prec emax false mz ez lz.

(** The Number nearest to [n * 10^k], for [n >= 0]: the value of a decimal
    literal. *)
Definition of_decimal (n k : Z) : number :=
  if n =? 0 then zero
  else if 0 <=? k then of_Z (n * 10 ^ k)
  else of_ratio n (10 ^ (- k)).

(** [Math.round(x)]: the integer nearest to [x], ties towards [+Infinity];
    computed exactly as [floor(x + 1/2)], keeping the sign of a zero result. *)
Definition Math_round (x : number) : number :=
  match x with
  | S754_finite s m e =>
      if 0 <=? e then x
      else
        let v := if s then Z.neg m else Z.pos m in
        binary_normalize prec emax (Z.shiftr (2 * v + Z.shiftl 1 (- e)) (1 - e)) 0 s
  | _ => x
  end.

(** ** parseFloat *)

Definition digit_value (c : ascii) : option Z :=
  let n := Z.of_N (N_of_ascii c) in
  if (48 <=? n) && (n <=? 57) then Some (n - 48) else None.

(** Reads the longest run of decimal digits: the value read so far, how many
    digits were read, and the rest of the input. *)
Fixpoint read_digits (s : string) (acc : Z) (count : Z) : Z * Z * string :=
  match s with
  | String c s' =>
      match digit_value c with
      | Some d => read_digits s' (10 * acc + d) (count + 1)
      | None => (acc, count, s)
      end
  | EmptyString => (acc, count, s)
  end.

Fixpoint starts_with (p s : string) : bool :=
  match p, s with
  | EmptyString, _ => true
  | String a p', String b s' => Ascii.eqb a b && starts_with p' s'
  | String _ _, EmptyString => false
  end.

(** The exponent part [e(+|-)?digits] when one starts [s], and 0 otherwise. *)
Definition read_exponent (s : string) : Z :=
  match s with
  | String c s' =>
      if Ascii.eqb c "e" || Ascii.eqb c "E" then
        let '(sgn, s'') :=
          match s' with
          | String "+" t => (1, t)
          | String "-" t => (-1, t)
          | _ => (1, s')
          end in
        let '(v, count, _) := read_digits s'' 0 0 in
        if count =? 0 then 0 else sgn * v
      else 0
  | EmptyString => 0
  end.

(** The unsigned part of a StrDecimalLiteral: [Infinity], or digits with an
    optional fraction and exponent; [None] when no prefix is one. *)
Definition read_unsigned (s : string) : option number :=
  if starts_with "Infinity" s then Some Infinity
  else
    let '(ip, icount, rest) := read_digits s 0 0 in
    let '(mant, fcount, rest') :=
      match rest with
      | String "." t => let '(m, c, r) := read_digits t ip 0 in (m, c, r)
      | _ => (ip, 0, rest)
      end in
    if (icount =? 0) && (fcount =? 0) then None
    else Some (of_decimal mant (read_exponent rest' - fcount)).

(** [parseFloat(s)]: leading white space is skipped, the longest prefix that
    is a decimal literal is converted, and [NaN] is returned when there is
    none. *)
Definition parseFloat (s : string) : number :=
  let t := JsString.trim_start s in
  let '(negative, u) :=
    match t with
    | String "-" t' => (true, t')
    | String "+" t' => (false, t')
    | _ => (false, t)
    end in
  match read_unsigned u with
  | Some x => if negative then neg x else x
  | None => NaN
  end.

(** ** Number.prototype.toString *)

Definition digit_char (d : Z) : ascii := ascii_of_N (Z.to_N (48 + d)).

Fixpoint digits_acc (fuel : nat) (n : Z) (acc : string) : string :=
  match fuel with
  | O => acc
  | S fuel' =>
      let acc' := String (digit_char (n mod 10)) acc in
      if n <? 10 then acc' else digits_acc fuel' (n / 10) acc'
  end.

(** The decimal digits of [n >= 0]. *)
Definition digits (n : Z) : string :=
  digits_acc (S (Z.to_nat (Z.log2 n))) n "".

Fixpoint zeros (n : nat) : string :=
  match n with
  | O => ""
  | S n' => String "0" (zeros n')
  end.

(** The decimal position [n] of a positive rational [num / den]:
    [10^(n-1) <= num/den < 10^n]. *)
Fixpoint position_up (fuel : nat) (num den : Z) (n : Z) : Z :=
  match fuel with
  | O => n
  | S fuel' => if num <? den * 10 ^ n then n else position_up fuel' num den (n + 1)
  end.

Fixpoint position_down (fuel : nat) (num den : Z) (n : Z) : Z :=
  match fuel with
  | O => n
  | S fuel' =>
      if den <=? num * 10 ^ (1 - n) then n
      else position_down fuel' num den (n - 1)
  end.

Definition position (num den : Z) : Z :=
  if den <=? num then position_up 400 num den 1
  else position_down 400 num den 0.

(** The shortest digit string that reads back as [x = num / den]: for
    [k = 1, 2, ...] the two [k]-digit decimals around [x] are tried, and of
    two that read back as [x] the nearer one is taken, and the even one
    when both are as near.  The result is [(s, p)] with value [s * 10^p]. *)
Fixpoint shortest (fuel : nat) (x : number) (num den : Z) (n : Z) (k : Z) : Z * Z :=
  let p := n - k in
  let lo := if 0 <=? p then num / (den * 10 ^ p) else (num * 10 ^ (- p)) / den in
  let hi := lo + 1 in
  let ok_lo := SFeqb (of_decimal lo p) x in
  let ok_hi := SFeqb (of_decimal hi p) x in
  (* twice the remainder against the divisor decides which is nearer *)
  let remainder2 :=
    if 0 <=? p then 2 * (num - lo * (den * 10 ^ p)) else 2 * (num * 10 ^ (- p) - lo * den) in
  let divisor := if 0 <=? p then den * 10 ^ p else den in
  let lo_nearer := if remainder2 =? divisor then Z.even lo else remainder2 <? divisor in
  match fuel with
  | O => (lo, p)
  | S fuel' =>
      if ok_lo && ok_hi then (if lo_nearer then (lo, p) else (hi, p))
      else if ok_lo then (lo, p)
      else if ok_hi then (hi, p)
      else shortest fuel' x num den n (k + 1)
  end.

(** Trailing zeros of the digit string move into the exponent. *)
Fixpoint strip_zeros (fuel : nat) (s p : Z) : Z * Z :=
  match fuel with
  | O => (s, p)
  | S fuel' => if (s mod 10 =? 0) && (0 <? s) then strip_zeros fuel' (s / 10) (p + 1) else (s, p)
  end.

Definition split_at (n : nat) (s : string) : string * string :=
  (substring 0 n s, substring n (String.length s - n) s).

(** Number::toString for a finite positive value [m * 2^e]. *)
Definition positive_to_string (m : positive) (e : Z) : string :=
  let num := if 0 <=? e then Z.pos m * 2 ^ e else Z.pos m in
  let den := if 0 <=? e then 1 else 2 ^ (- e) in
  let n0 := position num den in
  let '(s, p) := shortest 17 (S754_finite false m e) num den n0 1 in
  let '(s, p) := strip_zeros 20 s p in
  let ds := digits s in
  let k := Z.of_nat (String.length ds) in
  let n := p + k in
  if (k <=? n) && (n <=? 21) then ds +:+ zeros (Z.to_nat (n - k))
  else if (0 <? n) && (n <=? 21) then
    let '(a, b) := split_at (Z.to_nat n) ds in a +:+ "." +:+ b
  else if (-6 <? n) && (n <=? 0) then "0." +:+ zeros (Z.to_nat (- n)) +:+ ds
  else
    let ex := (if 0 <=? n - 1 then "+" else "-") +:+ digits (Z.abs (n - 1)) in
    if k =? 1 then ds +:+ "e" +:+ ex
    else
      let '(a, b) := split_at 1 ds in a +:+ "." +:+ b +:+ "e" +:+ ex.

(** [x.toString()] *)
Definition toString (x : number) : string :=
  match x with
  | S754_nan => "NaN"
  | S754_zero _ => "0"
  | S754_infinity s => if s then "-Infinity" else "Infinity"
  | S754_finite s m e =>
      (if s then "-" else "") +:+ positive_to_string m e
  end.

End JsNumber.
(* ===================================================================== *)
(** * The collaborators: auth session, profiles table, AsyncStorage, token contract *)
(* ===================================================================== *)

Module Backend.
Import JsNumber.

(** An error object: [message], and the PostgREST [code] where there is one. *)
Record JsError : Type := mkError { message : string; code : string }.

(** [new Error(msg)] *)
Definition Error (msg : string) : JsError := mkError msg "".

(** The authenticated user, as far as the screens read it. *)
Record User : Type := mkUser { user_id : string; user_email : string }.

(** A row of the [profiles] table; [None] is SQL [NULL]. *)
Record Profile : Type := mkProfile {
  p_username : option string;
  p_email : option string;
  p_age_range : option string;
  p_gender : option string;
  p_commute_mode : option string;
  p_crypto_chain : option string;
  p_wallet_address : option string;
  p_updated_at : option string;
  p_token_balance : option number;
  p_referral_code : option string
}.

Definition empty_profile : Profile :=
  mkProfile None None None None None None None None None None.

Definition set_token_balance (v : number) (p : Profile) : Profile :=
  mkProfile (p_username p) (p_email p) (p_age_range p) (p_gender p)
            (p_commute_mode p) (p_crypto_chain p) (p_wallet_address p)
            (p_updated_at p) (Some v) (p_referral_code p).

(** The object [updateProfile] upserts. *)
Record ProfileUpdates : Type := mkUpdates {
  u_id : string;
  u_username : string;
  u_email : string;
  u_age_range : string;
  u_gender : string;
  u_commute_mode : string;
  u_crypto_chain : string;
  u_wallet_address : string;
  u_updated_at : string
}.

(** Upsert: the columns of the object are written, the others are kept (or
    are [NULL] in a row that is created). *)
Definition apply_updates (u : ProfileUpdates) (old : option Profile) : Profile :=
  let p := default empty_profile old in
  mkProfile (Some (u_username u)) (Some (u_email u)) (Some (u_age_range u))
            (Some (u_gender u)) (Some (u_commute_mode u)) (Some (u_crypto_chain u))
            (Some (u_wallet_address u)) (Some (u_updated_at u))
            (p_token_balance p) (p_referral_code p).

(** A transaction handed back by [contract.mint]. *)
Record Tx : Type := mkTx { tx_to : string; tx_amount : string }.

(** [{ data, error }] of a Supabase query. *)
Record Response (A : Type) : Type := mkResponse { r_data : option A; r_error : option JsError }.
Arguments mkResponse {A} _ _.
Arguments r_data {A} _.
Arguments r_error {A} _.

(** A settled promise. *)
Inductive Settled (A : Type) : Type :=
| Resolved (a : A)
| Rejected (e : JsError).
Arguments Resolved {A} _.
Arguments Rejected {A} _.

(** The calls a handler awaits, indexed by what the awaited value is. *)
Inductive Call : Type -> Type :=
| auth_getUser : Call (option User)
    (* supabase.auth.getUser(), its data.user *)
| auth_updateUser (email : string) : Call (option JsError)
    (* supabase.auth.updateUser({ email }), its error *)
| profiles_select_profile (id : string) : Call (Response Profile)
    (* from('profiles').select(<the form's columns>).eq('id', id).single() *)
| profiles_select_balance (id : string) : Call (Response (option number))
    (* from('profiles').select('token_balance').eq('id', id).single() *)
| profiles_update_balance (id : string) (v : number) : Call (option JsError)
    (* from('profiles').update({ token_balance: v }).eq('id', id), its error *)
| profiles_upsert (u : ProfileUpdates) : Call (option JsError)
    (* from('profiles').upsert(u), its error *)
| storage_getItem (key : string) : Call (Settled (option string))
    (* AsyncStorage.getItem(key) *)
| storage_setItem (key value : string) : Call (Settled unit)
    (* AsyncStorage.setItem(key, value) *)
| contract_mint (to amount : string) : Call (Settled Tx)
    (* contract.mint(to, ethers.utils.parseUnits(amount, 18)) *)
| tx_wait (tx : Tx) : Call (Settled unit).
    (* tx.wait() *)

(** What the log keeps of a call. *)
Inductive Event : Type :=
| EGetUser
| EUpdateUser (email : string)
| ESelectProfile (id : string)
| ESelectBalance (id : string)
| EUpdateBalance (id : string) (v : number)
| EUpsert (u : ProfileUpdates)
| EGetItem (key : string)
| ESetItem (key value : string)
| EMint (to amount : string)
| EWait (tx : Tx).

Definition event_of {X : Type} (c : Call X) : Event :=
  match c with
  | auth_getUser => EGetUser
  | auth_updateUser email => EUpdateUser email
  | profiles_select_profile id => ESelectProfile id
  | profiles_select_balance id => ESelectBalance id
  | profiles_update_balance id v => EUpdateBalance id v
  | profiles_upsert u => EUpsert u
  | storage_getItem key => EGetItem key
  | storage_setItem key value => ESetItem key value
  | contract_mint to amount => EMint to amount
  | tx_wait tx => EWait tx
  end.

(** The world a handler runs against.  [calls] logs every call with whether
    it succeeded; [faults n] is the error the [n]-th call of the log fails
    with, if it fails. *)
Record World : Type := mkWorld {
  session : option User;
  profiles : gmap string Profile;
  storage : gmap string string;
  minted : list (string * string);
  calls : list (Event * bool);
  faults : nat -> option JsError
}.

Definition set_profiles (f : gmap string Profile -> gmap string Profile) (w : World) : World :=
  mkWorld (session w) (f (profiles w)) (storage w) (minted w) (calls w) (faults w).
Definition set_storage (f : gmap string string -> gmap string string) (w : World) : World :=
  mkWorld (session w) (profiles w) (f (storage w)) (minted w) (calls w) (faults w).
Definition set_minted (f : list (string * string) -> list (string * string)) (w : World) : World :=
  mkWorld (session w) (profiles w) (storage w) (f (minted w)) (calls w) (faults w).
Definition log_call (e : Event) (ok : bool) (w : World) : World :=
  mkWorld (session w) (profiles w) (storage w) (minted w) (calls w ++ [(e, ok)]) (faults w).

(** [.single()] on no row: PostgREST's PGRST116. *)
Definition no_rows : JsError :=
  mkError "JSON object requested, multiple (or no) rows returned" "PGRST116".

(** The effect of a call that succeeds, and what it answers. *)
Definition perform {X : Type} (c : Call X) : World -> X * World :=
  match c in Call X return World -> X * World with
  | auth_getUser => fun w => (session w, w)
  | auth_updateUser _ => fun w => (None, w)
  | profiles_select_profile id => fun w =>
      match profiles w !! id with
      | Some row => (mkResponse (Some row) None, w)
      | None => (mkResponse None (Some no_rows), w)
      end
  | profiles_select_balance id => fun w =>
      match profiles w !! id with
      | Some row => (mkResponse (Some (p_token_balance row)) None, w)
      | None => (mkResponse None (Some no_rows), w)
      end
  | profiles_update_balance id v => fun w =>
      (None, set_profiles (alter (set_token_balance v) id) w)
  | profiles_upsert u => fun w =>
      (None, set_profiles (fun m => <[u_id u := apply_updates u (m !! u_id u)]> m) w)
  | storage_getItem key => fun w => (Resolved (storage w !! key), w)
  | storage_setItem key value => fun w => (Resolved tt, set_storage <[key := value]> w)
  | contract_mint to amount => fun w => (Resolved (mkTx to amount), w)
  | tx_wait tx => fun w =>
      (Resolved tt, set_minted (fun l => l ++ [(tx_to tx, tx_amount tx)]) w)
  end.

(** What a call answers when it fails with [e]; the world is left as it was. *)
Definition failed {X : Type} (c : Call X) (e : JsError) : X :=
  match c in Call X return X with
  | auth_getUser => None
  | auth_updateUser _ => Some e
  | profiles_select_profile _ => mkResponse None (Some e)
  | profiles_select_balance _ => mkResponse None (Some e)
  | profiles_update_balance _ _ => Some e
  | profiles_upsert _ => Some e
  | storage_getItem _ => Rejected e
  | storage_setItem _ _ => Rejected e
  | contract_mint _ _ => Rejected e
  | tx_wait _ => Rejected e
  end.

(** Whether an answer is a success, for the log. *)
Definition succeeded {X : Type} (c : Call X) : X -> bool :=
  match c in Call X return X -> bool with
  | auth_getUser => fun r => bool_decide (is_Some r)
  | auth_updateUser _ => fun r => bool_decide (r = None :> option JsError)
  | profiles_select_profile _ => fun r => bool_decide (r_error r = None)
  | profiles_select_balance _ => fun r => bool_decide (r_error r = None)
  | profiles_update_balance _ _ => fun r => bool_decide (r = None :> option JsError)
  | profiles_upsert _ => fun r => bool_decide (r = None :> option JsError)
  | storage_getItem _ => fun r => match r with Resolved _ => true | Rejected _ => false end
  | storage_setItem _ _ => fun r => match r with Resolved _ => true | Rejected _ => false end
  | contract_mint _ _ => fun r => match r with Resolved _ => true | Rejected _ => false end
  | tx_wait _ => fun r => match r with Resolved _ => true | Rejected _ => false end
  end.

(** One awaited call against the world. *)
Definition exec {X : Type} (c : Call X) (w : World) : X * World :=
  let '(x, w') :=
    match faults w (length (calls w)) with
    | Some e => (failed c e, w)
    | None => perform c w
    end in
  (x, log_call (event_of c) (succeeded c x) w').

End Backend.
(* ===================================================================== *)
(** * Asynchronous handlers *)
(* ===================================================================== *)

Module Async.
Import Backend.

(** An [async] function over component state [S]: it returns, throws, calls
    a state setter, or awaits a call and goes on with the answer. *)
Inductive Prog (S A : Type) : Type :=
| Ret (a : A)
| Throw (e : JsError)
| Update (f : S -> S) (k : Prog S A)
| Await {X : Type} (c : Call X) (k : X -> Prog S A).
Arguments Ret {S A} _.
Arguments Throw {S A} _.
Arguments Update {S A} _ _.
Arguments Await {S A X} _ _.

Fixpoint bind {S A B : Type} (p : Prog S A) (f : A -> Prog S B) : Prog S B :=
  match p with
  | Ret a => f a
  | Throw e => Throw e
  | Update g k => Update g (bind k f)
  | Await c k => Await c (fun x => bind (k x) f)
  end.

(** [try { p } catch (e) { h e }] *)
Fixpoint catch {S A : Type} (p : Prog S A) (h : JsError -> Prog S A) : Prog S A :=
  match p with
  | Ret a => Ret a
  | Throw e => h e
  | Update g k => Update g (catch k h)
  | Await c k => Await c (fun x => catch (k x) h)
  end.

(** [try { p } finally { fin }]: [fin] runs however [p] completes, and the
    completion of [p] is kept. *)
Fixpoint finally {S A : Type} (p : Prog S A) (fin : Prog S unit) : Prog S A :=
  match p with
  | Ret a => bind fin (fun _ => Ret a)
  | Throw e => bind fin (fun _ => Throw e)
  | Update g k => Update g (finally k fin)
  | Await c k => Await c (fun x => finally (k x) fin)
  end.

Definition await {S X : Type} (c : Call X) : Prog S X := Await c Ret.

(** Awaiting a promise that may reject. *)
Definition await_settled {S A : Type} (c : Call (Settled A)) : Prog S A :=
  Await c (fun r => match r with Resolved a => Ret a | Rejected e => Throw e end).

(** A state setter. *)
Definition set {S : Type} (f : S -> S) : Prog S unit := Update f (Ret tt).

Declare Scope prog_scope.
Delimit Scope prog_scope with prog.
Notation "x <- p ;; k" := (bind p (fun x => k))
  (at level 100, p at next level, right associativity) : prog_scope.
Notation "p ;; k" := (bind p (fun _ => k))
  (at level 100, right associativity) : prog_scope.

(** How an invocation completes. *)
Inductive Outcome (A : Type) : Type :=
| Returned (a : A)
| Thrown (e : JsError).
Arguments Returned {A} _.
Arguments Thrown {A} _.

(** An invocation run to completion with nothing else in between. *)
Fixpoint run {S A : Type} (p : Prog S A) (s : S) (w : World) : Outcome A * S * World :=
  match p with
  | Ret a => (Returned a, s, w)
  | Throw e => (Thrown e, s, w)
  | Update f k => run k (f s) w
  | Await c k => let '(x, w') := exec c w in run (k x) s w'
  end.

(** The synchronous part of an invocation: up to its next [await]. *)
Fixpoint settle {S A : Type} (p : Prog S A) (s : S) : Prog S A * S :=
  match p with
  | Update f k => settle k (f s)
  | _ => (p, s)
  end.

(** The awaited call of a suspended invocation answers, and the invocation
    goes on up to its next [await]. *)
Definition resume {S A : Type} (p : Prog S A) (s : S) (w : World) : Prog S A * S * World :=
  match p with
  | Await c k => let '(x, w') := exec c w in (settle (k x) s, w')
  | _ => (settle p s, w)
  end.

(** An invocation run until it has made [n] calls, and then up to its next
    [await]. *)
Fixpoint run_calls {S A : Type} (n : nat) (p : Prog S A) (s : S) (w : World)
  : Prog S A * S * World :=
  match n with
  | O => (settle p s, w)
  | S n' =>
      match settle p s with
      | (Await c k, s1) => let '(x, w') := exec c w in run_calls n' (k x) s1 w'
      | (p1, s1) => (p1, s1, w)
      end
  end.

Definition finished {S A : Type} (p : Prog S A) : bool :=
  match p with
  | Ret _ | Throw _ => true
  | _ => false
  end.

End Async.
(* ===================================================================== *)
(** * utils/mintAndClaim *)
(* ===================================================================== *)

(** [ethers.utils.parseUnits] of ethers v5, which [mintTokensToUser] passes
    the amount through. *)
Module Ethers.
Import JsNumber Backend.

(** The errors of [parseFixed], by the reason they are thrown with: ethers
    appends the argument, the code and its version to the reason to make the
    message. *)
Definition invalid_argument (reason : string) : JsError := mkError reason "INVALID_ARGUMENT".
Definition numeric_fault (reason : string) : JsError := mkError reason "NUMERIC_FAULT".

Definition is_digit_or_point (c : ascii) : bool :=
  match digit_value c with
  | Some _ => true
  | None => Ascii.eqb c "."
  end.

(** [value.match(/^-?[0-9.]+$/)] *)
Definition is_decimal_value (value : string) : bool :=
  let body := match value with String "-" rest => rest | _ => value end in
  negb (String.eqb body "") && forallb is_digit_or_point (list_ascii_of_string body).

(** [value.split(".")] *)
Fixpoint split_points (value : string) : list string :=
  match value with
  | EmptyString => [""]
  | String c rest =>
      if Ascii.eqb c "." then "" :: split_points rest
      else match split_points rest with
           | first :: others => String c first :: others
           | [] => [String c ""]
           end
  end.

(** [while (fraction[fraction.length - 1] === "0") fraction = fraction.substring(0, fraction.length - 1)] *)
Fixpoint trim_zeros (fraction : string) : string :=
  match fraction with
  | EmptyString => ""
  | String c rest =>
      match trim_zeros rest with
      | EmptyString => if Ascii.eqb c "0" then "" else String c ""
      | rest' => String c rest'
      end
  end.

(** [while (fraction.length < decimals) fraction += "0"] *)
Definition pad_zeros (decimals : nat) (fraction : string) : string :=
  fraction +:+ zeros (decimals - String.length fraction).

(** [BigNumber.from] of a string of decimal digits. *)
Definition of_digits (s : string) : Z := fst (fst (read_digits s 0 0)).

(** [parseFixed(value, decimals)], which [parseUnits(value, decimals)] is for
    a number of decimals: the value in units of [10^-decimals], or the error
    thrown. *)
Definition parseUnits (value : string) (decimals : nat) : JsError + Z :=
  if negb (is_decimal_value value) then inl (invalid_argument "invalid decimal value")
  else
    let negative := match value with String "-" _ => true | _ => false end in
    let value := match value with String "-" rest => rest | _ => value end in
    if String.eqb value "." then inl (invalid_argument "missing value")
    else
      let comps := split_points value in
      if (2 <? length comps)%nat then inl (invalid_argument "too many decimal points")
      else
        let whole := JsString.or_else (nth 0 comps "") "0" in
        let fraction := trim_zeros (JsString.or_else (nth 1 comps "") "0") in
        if (decimals <? String.length fraction)%nat
        then inl (numeric_fault "fractional component exceeds decimals")
        else
          let fraction := pad_zeros decimals (JsString.or_else fraction "0") in
          let wei := (of_digits whole * 10 ^ Z.of_nat decimals + of_digits fraction)%Z in
          inr (if negative then (- wei)%Z else wei).

End Ethers.

Module MintAndClaim.
Import Backend Async.
Local Open Scope prog_scope.

(** [export async function mintTokensToUser(userAddress, amount)]: the
    amount is parsed, which throws for a string that is no decimal value of
    at most 18 decimals; then the transaction is submitted, its confirmation
    is awaited, and the transaction (its hash) is returned.  The submitted
    call is logged with the string the number of units was parsed from. *)
Definition mintTokensToUser {S : Type} (userAddress amount : string) : Prog S Tx :=
  match Ethers.parseUnits amount 18 with
  | inl e => Throw e
  | inr _ =>
      tx <- await_settled (contract_mint userAddress amount) ;;
      await_settled (tx_wait tx) ;;
      Ret tx
  end.

End MintAndClaim.

(* ===================================================================== *)
(** * components/EditProfile.tsx *)
(* ===================================================================== *)

Module EditProfile.
Import JsNumber Backend Async MintAndClaim.
Local Open Scope prog_scope.

(** [const STORAGE_KEYS] of EditProfile.tsx (lines 12-16). *)
Definition STORAGE_KEYS_LOCATION_SHARING : string := "location_sharing_enabled".
Definition STORAGE_KEYS_CAPT_BALANCE : string := "capt_balance".

(** The [useState] cells of the component. *)
Record State : Type := mkState {
  isLocationSharingEnabled : bool;
  loading : bool;
  updating : bool;
  username : string;
  email : string;
  ageRange : string;
  gender : string;
  commuteMode : string;
  cryptoChain : string;
  walletAddress : string;
  error : option string;
  success : option string;
  isAddressValid : bool;
  claiming : bool
}.

(** The state of a freshly mounted screen. *)
Definition initial : State :=
  mkState true true false "" "" "" "" "" "Base" "" None None false false.

Definition setIsLocationSharingEnabled (v : bool) (s : State) : State :=
  mkState v (loading s) (updating s) (username s) (email s) (ageRange s) (gender s)
          (commuteMode s) (cryptoChain s) (walletAddress s) (error s) (success s)
          (isAddressValid s) (claiming s).
Definition setLoading (v : bool) (s : State) : State :=
  mkState (isLocationSharingEnabled s) v (updating s) (username s) (email s) (ageRange s)
          (gender s) (commuteMode s) (cryptoChain s) (walletAddress s) (error s) (success s)
          (isAddressValid s) (claiming s).
Definition setUpdating (v : bool) (s : State) : State :=
  mkState (isLocationSharingEnabled s) (loading s) v (username s) (email s) (ageRange s)
          (gender s) (commuteMode s) (cryptoChain s) (walletAddress s) (error s) (success s)
          (isAddressValid s) (claiming s).
Definition setUsername (v : string) (s : State) : State :=
  mkState (isLocationSharingEnabled s) (loading s) (updating s) v (email s) (ageRange s)
          (gender s) (commuteMode s) (cryptoChain s) (walletAddress s) (error s) (success s)
          (isAddressValid s) (claiming s).
Definition setEmail (v : string) (s : State) : State :=
  mkState (isLocationSharingEnabled s) (loading s) (updating s) (username s) v (ageRange s)
          (gender s) (commuteMode s) (cryptoChain s) (walletAddress s) (error s) (success s)
          (isAddressValid s) (claiming s).
Definition setAgeRange (v : string) (s : State) : State :=
  mkState (isLocationSharingEnabled s) (loading s) (updating s) (username s) (email s) v
          (gender s) (commuteMode s) (cryptoChain s) (walletAddress s) (error s) (success s)
          (isAddressValid s) (claiming s).
Definition setGender (v : string) (s : State) : State :=
  mkState (isLocationSharingEnabled s) (loading s) (updating s) (username s) (email s)
          (ageRange s) v (commuteMode s) (cryptoChain s) (walletAddress s) (error s)
          (success s) (isAddressValid s) (claiming s).
Definition setCommuteMode (v : string) (s : State) : State :=
  mkState (isLocationSharingEnabled s) (loading s) (updating s) (username s) (email s)
          (ageRange s) (gender s) v (cryptoChain s) (walletAddress s) (error s) (success s)
          (isAddressValid s) (claiming s).
Definition setCryptoChain (v : string) (s : State) : State :=
  mkState (isLocationSharingEnabled s) (loading s) (updating s) (username s) (email s)
          (ageRange s) (gender s) (commuteMode s) v (walletAddress s) (error s) (success s)
          (isAddressValid s) (claiming s).
Definition setWalletAddress (v : string) (s : State) : State :=
  mkState (isLocationSharingEnabled s) (loading s) (updating s) (username s) (email s)
          (ageRange s) (gender s) (commuteMode s) (cryptoChain s) v (error s) (success s)
          (isAddressValid s) (claiming s).
Definition setError (v : option string) (s : State) : State :=
  mkState (isLocationSharingEnabled s) (loading s) (updating s) (username s) (email s)
          (ageRange s) (gender s) (commuteMode s) (cryptoChain s) (walletAddress s) v
          (success s) (isAddressValid s) (claiming s).
Definition setSuccess (v : option string) (s : State) : State :=
  mkState (isLocationSharingEnabled s) (loading s) (updating s) (username s) (email s)
          (ageRange s) (gender s) (commuteMode s) (cryptoChain s) (walletAddress s) (error s)
          v (isAddressValid s) (claiming s).
Definition setIsAddressValid (v : bool) (s : State) : State :=
  mkState (isLocationSharingEnabled s) (loading s) (updating s) (username s) (email s)
          (ageRange s) (gender s) (commuteMode s) (cryptoChain s) (walletAddress s) (error s)
          (success s) v (claiming s).
Definition setClaiming (v : bool) (s : State) : State :=
  mkState (isLocationSharingEnabled s) (loading s) (updating s) (username s) (email s)
          (ageRange s) (gender s) (commuteMode s) (cryptoChain s) (walletAddress s) (error s)
          (success s) (isAddressValid s) v.

(** [loadLocationSharingState] (lines 70-82): a rejected read is logged and
    nothing else. *)
Definition loadLocationSharingState : Prog State unit :=
  catch
    (storedValue <- await_settled (storage_getItem STORAGE_KEYS_LOCATION_SHARING) ;;
     match storedValue with
     | Some v => set (setIsLocationSharingEnabled (String.eqb v "true"))
     | None => set (setIsLocationSharingEnabled true)
     end)
    (fun _ => Ret tt).

Definition or_empty (v : option string) : string := default "" v.

(** [setWalletAddress(v)] together with the effect that keeps
    [isAddressValid] in step with the address field (lines 200-202). *)
Definition changeWalletAddress (v : string) (s : State) : State :=
  setIsAddressValid (Wallet.validateWalletAddress v) (setWalletAddress v s).

(** [getProfile] (lines 92-128). *)
Definition getProfile : Prog State unit :=
  finally
    (catch
       (set (setLoading true) ;;
        user <- await auth_getUser ;;
        match user with
        | None => Throw (Error "No user found")
        | Some user =>
            r <- await (profiles_select_profile (user_id user)) ;;
            match r_error r with
            | Some e =>
                if negb (String.eqb (code e) "PGRST116") then Throw e else Ret tt
            | None => Ret tt
            end ;;
            match r_data r with
            | Some row =>
                set (setUsername (or_empty (p_username row))) ;;
                set (setEmail (JsString.or_else (or_empty (p_email row)) (user_email user))) ;;
                set (setAgeRange (or_empty (p_age_range row))) ;;
                set (setGender (or_empty (p_gender row))) ;;
                set (setCommuteMode (or_empty (p_commute_mode row))) ;;
                set (setCryptoChain "Base") ;;
                set (changeWalletAddress (or_empty (p_wallet_address row)))
            | None =>
                set (setCryptoChain "Base")
            end
        end)
       (fun e => set (setError (Some (message e)))))
    (set (setLoading false)).

(** How a save ends: the [return] after the username check, the end of the
    [try] block, or the [catch] block. *)
Inductive SaveExit : Type :=
| Saved
| ValidationError
| SaveFailed (e : JsError).

(** [updateProfile] (lines 130-182); [now] is [new Date().toISOString()]. *)
Definition updateProfile (now : string) (st : State) : Prog State SaveExit :=
  finally
    (catch
       (set (setUpdating true) ;;
        set (setError None) ;;
        set (setSuccess None) ;;
        if negb (JsString.truthy (JsString.trim (username st))) then
          set (setError (Some "Username is required")) ;;
          Ret ValidationError
        else
          user <- await auth_getUser ;;
          match user with
          | None => Throw (Error "No user found")
          | Some user =>
              let updates :=
                mkUpdates (user_id user) (username st) (email st) (ageRange st) (gender st)
                          (commuteMode st) (cryptoChain st) (walletAddress st) now in
              err <- await (profiles_upsert updates) ;;
              match err with
              | Some e => Throw e
              | None =>
                  set (setSuccess (Some "Profile updated successfully!")) ;;
                  if negb (String.eqb (email st) (user_email user)) then
                    emailUpdateError <- await (auth_updateUser (email st)) ;;
                    match emailUpdateError with
                    | Some _ =>
                        set (setError (Some "Profile updated but email change requires verification"))
                    | None =>
                        set (setSuccess (Some "Profile updated! Please check your email to confirm your new email address."))
                    end ;;
                    Ret Saved
                  else Ret Saved
              end
          end)
       (fun e => set (setError (Some (message e))) ;; Ret (SaveFailed e)))
    (set (setUpdating false)).

(** How a claim ends: one of the two [return]s, the end of the [try] block,
    or the [catch] block. *)
Inductive ClaimExit : Type :=
| Claimed
| NothingToClaim
| UnsupportedChain
| ClaimFailed (e : JsError).

(** [!balance || balance <= 0] for [balance = data?.token_balance]. *)
Definition nothing_to_claim (balance : option number) : bool :=
  match balance with
  | None => true
  | Some b => negb (JsNumber.truthy b) || le b zero
  end.

(** [localBalanceStr ? parseFloat(localBalanceStr) : 0] *)
Definition local_balance_of (localBalanceStr : option string) : number :=
  match localBalanceStr with
  | Some str => if JsString.truthy str then parseFloat str else zero
  | None => zero
  end.

(** [balance.toString()]; the handler reaches it with a number only, since
    [nothing_to_claim None] holds. *)
Definition balance_toString (balance : option number) : string :=
  match balance with
  | Some b => toString b
  | None => "undefined"
  end.

(** The [onPress] handler of the Claim button (lines 337-387); [st] is the
    state of the render the handler closes over. *)
Definition claim (st : State) : Prog State ClaimExit :=
  set (setClaiming true) ;;
  finally
    (catch
       (set (setError None) ;;
        set (setSuccess None) ;;
        (* Get current user *)
        user <- await auth_getUser ;;
        match user with
        | None => Throw (Error "No user found")
        | Some user =>
            (* 1. Read balance from AsyncStorage *)
            localBalanceStr <- await_settled (storage_getItem "captur_token_balance") ;;
            let localBalance := local_balance_of localBalanceStr in
            (* 2. Sync to Supabase *)
            (if gt localBalance zero then
               syncError <- await (profiles_update_balance (user_id user) localBalance) ;;
               match syncError with
               | Some e => Throw e
               | None => Ret tt
               end
             else Ret tt) ;;
            (* 3. Fetch balance from Supabase *)
            r <- await (profiles_select_balance (user_id user)) ;;
            match r_error r with
            | Some e => Throw e
            | None =>
                let balance := mjoin (r_data r) in
                if nothing_to_claim balance then
                  set (setError (Some "No balance to claim.")) ;;
                  Ret NothingToClaim
                else if negb (String.eqb (cryptoChain st) "Base") then
                  (* 4. Mint tokens to user (only for Base chain) *)
                  set (setError (Some "Only Base chain is supported for claiming tokens at the moment.")) ;;
                  Ret UnsupportedChain
                else
                  mintTokensToUser (walletAddress st) (balance_toString balance) ;;
                  (* 5. Reset balance in DB and AsyncStorage only if mint succeeded *)
                  updateError <- await (profiles_update_balance (user_id user) zero) ;;
                  match updateError with
                  | Some e => Throw e
                  | None =>
                      await_settled (storage_setItem "captur_token_balance" "0") ;;
                      set (setSuccess (Some "Tokens claimed and balance reset!")) ;;
                      Ret Claimed
                  end
            end
        end)
       (fun err =>
          set (setError (Some (JsString.or_else (message err) "Claim failed."))) ;;
          Ret (ClaimFailed err)))
    (set (setClaiming false)).

(** The options of the form's selection buttons. *)
Definition ageRanges : list string := ["Under 18"; "18-25"; "26-40"; "40+"].
Definition genders : list string := ["Male"; "Female"; "Other"].
Definition commuteModes : list string := ["Car"; "Bike"; "Train"; "Bus"; "Walk"].

(** The Claim button is rendered when the form is (not [loading]) and the
    address is valid, and it is [disabled] while [claiming]. *)
Definition claim_enabled (s : State) : bool :=
  negb (loading s) && isAddressValid s && negb (claiming s).

(** The Update Profile button: rendered with the form, [disabled] while
    [updating]. *)
Definition update_enabled (s : State) : bool :=
  negb (loading s) && negb (updating s).

End EditProfile.
(* ===================================================================== *)
(** * components/Rewards.tsx *)
(* ===================================================================== *)

Module Rewards.
Import JsNumber Backend Async.
Local Open Scope prog_scope.

(** [const STORAGE_KEYS] of Rewards.tsx (lines 23-27). *)
Definition STORAGE_KEYS_LOCATION_SHARING : string := "captur_location_sharing".
Definition STORAGE_KEYS_CAPT_BALANCE : string := "captur_token_balance".

(** The [useState] cells for location sharing and rewards; the cells of the
    referral code take no part in either. *)
Record State : Type := mkState {
  isLocationSharingEnabled : bool;
  captBalance : number
}.

Definition initial : State := mkState true zero.

Definition setIsLocationSharingEnabled (v : bool) (s : State) : State :=
  mkState v (captBalance s).
Definition setCaptBalance (v : number) (s : State) : State :=
  mkState (isLocationSharingEnabled s) v.

(** [loadSavedState] (lines 48-70). *)
Definition loadSavedState : Prog State unit :=
  catch
    (savedLocationSharing <- await_settled (storage_getItem STORAGE_KEYS_LOCATION_SHARING) ;;
     match savedLocationSharing with
     | Some v => set (setIsLocationSharingEnabled (String.eqb v "true"))
     | None =>
         set (setIsLocationSharingEnabled true) ;;
         await_settled (storage_setItem STORAGE_KEYS_LOCATION_SHARING "true")
     end ;;
     savedBalance <- await_settled (storage_getItem STORAGE_KEYS_CAPT_BALANCE) ;;
     match savedBalance with
     | Some v => set (setCaptBalance (parseFloat v))
     | None => set (setCaptBalance zero)
     end)
    (fun _ => set (setCaptBalance zero)).

(** [saveLocationSharingState] (lines 93-99), run by the effect whenever the
    flag or the focus changes. *)
Definition saveLocationSharingState (st : State) : Prog State unit :=
  catch
    (await_settled
       (storage_setItem STORAGE_KEYS_LOCATION_SHARING
                        (JsString.of_bool (isLocationSharingEnabled st))))
    (fun _ => Ret tt).

(** [toggleLocationSharing] (lines 141-143). *)
Definition toggleLocationSharing (s : State) : State :=
  setIsLocationSharingEnabled (negb (isLocationSharingEnabled s)) s.

Definition hundred : number := of_Z 100.

(** [Math.random() * (0.1 - 0.01) + 0.01], for the draw [random] of
    [Math.random()]. *)
Definition increment (random : number) : number :=
  add (mul random (sub (of_decimal 1 (-1)) (of_decimal 1 (-2)))) (of_decimal 1 (-2)).

(** [Math.round((prevBalance + increment) * 100) / 100] *)
Definition newBalance (prevBalance increment : number) : number :=
  div (Math_round (mul (add prevBalance increment) hundred)) hundred.

(** The effect starts the interval only when the flag is set and the screen
    is focused, and clears it otherwise. *)
Definition interval_running (isFocused : bool) (s : State) : bool :=
  isLocationSharingEnabled s && isFocused.

(** One run of the interval callback (lines 112-122): the balance is
    replaced, and the write of its string is started and not awaited; a
    rejected write is logged and nothing else. *)
Definition tick (random : number) (s : State) (w : World) : State * World :=
  let b := newBalance (captBalance s) (increment random) in
  (setCaptBalance b s, snd (exec (storage_setItem STORAGE_KEYS_CAPT_BALANCE (toString b)) w)).

(** One period of the timer. *)
Definition period (isFocused : bool) (random : number) (s : State) (w : World)
  : State * World :=
  if interval_running isFocused s then tick random s w else (s, w).

(** The periods of the timer with the draws [randoms], in order. *)
Fixpoint periods (isFocused : bool) (randoms : list number) (s : State) (w : World)
  : State * World :=
  match randoms with
  | [] => (s, w)
  | r :: rs => let '(s', w') := period isFocused r s w in periods isFocused rs s' w'
  end.

End Rewards.
(* ===================================================================== *)
(** * The profile screen in a running app *)
(* ===================================================================== *)

Module App.
Import JsNumber Backend Async EditProfile.

(** A handler invocation that is suspended at an [await]. *)
Inductive Task : Type :=
| TClaim (p : Prog State ClaimExit)
| TSave (p : Prog State SaveExit)
| TLoad (p : Prog State unit).

Definition is_claim (t : Task) : bool :=
  match t with
  | TClaim _ => true
  | _ => false
  end.

(** What happens on a mounted profile screen: the user edits the form or
    presses a button, or the awaited call of the [j]-th suspended
    invocation answers. *)
Inductive Action : Type :=
| ChangeUsername (v : string)
| ChangeEmail (v : string)
| SelectAgeRange (v : string)
| SelectGender (v : string)
| SelectCommuteMode (v : string)
| ChangeWalletAddress (v : string)
| PressClaim
| PressUpdate (now : string)
| Answer (j : nat).

(** A started invocation runs up to its first [await]; it is kept as a task
    unless it is finished by then. *)
Definition start {A : Type} (mk : Prog State A -> Task) (p : Prog State A)
    (s : State) (ts : list Task) : State * list Task :=
  let '(p', s') := settle p s in
  (s', if finished p' then ts else ts ++ [mk p']).

(** The [j]-th task goes on with the answer of its call. *)
Definition answer_task (t : Task) (s : State) (w : World) : option Task * State * World :=
  match t with
  | TClaim p =>
      let '(p', s', w') := resume p s w in
      (if finished p' then None else Some (TClaim p'), s', w')
  | TSave p =>
      let '(p', s', w') := resume p s w in
      (if finished p' then None else Some (TSave p'), s', w')
  | TLoad p =>
      let '(p', s', w') := resume p s w in
      (if finished p' then None else Some (TLoad p'), s', w')
  end.

Definition in_list (v : string) (l : list string) : bool := existsb (String.eqb v) l.

(** One action on a screen with state [s] and suspended tasks [ts].  The
    form, and with it every input and button, is rendered only when
    [loading] is false; a press on a button that is not rendered or is
    disabled does nothing. *)
Definition act (a : Action) (s : State) (ts : list Task) (w : World)
  : State * list Task * World :=
  match a with
  | Answer j =>
      match ts !! j with
      | Some t =>
          let '(t', s', w') := answer_task t s w in
          (s', match t' with
               | Some t'' => <[j := t'']> ts
               | None => delete j ts
               end, w')
      | None => (s, ts, w)
      end
  | _ =>
      if loading s then (s, ts, w)
      else
        match a with
        | ChangeUsername v => (setUsername v s, ts, w)
        | ChangeEmail v => (setEmail v s, ts, w)
        | SelectAgeRange v => (if in_list v ageRanges then setAgeRange v s else s, ts, w)
        | SelectGender v => (if in_list v genders then setGender v s else s, ts, w)
        | SelectCommuteMode v =>
            (if in_list v commuteModes then setCommuteMode v s else s, ts, w)
        | ChangeWalletAddress v => (changeWalletAddress v s, ts, w)
        | PressClaim =>
            if claim_enabled s then
              let '(s', ts') := start TClaim (claim s) s ts in (s', ts', w)
            else (s, ts, w)
        | PressUpdate now =>
            if update_enabled s then
              let '(s', ts') := start TSave (updateProfile now s) s ts in (s', ts', w)
            else (s, ts, w)
        | Answer _ => (s, ts, w)
        end
  end.

(** A device: its auth session and AsyncStorage, and its profile screen. *)
Record Device : Type := mkDevice {
  d_session : option User;
  d_storage : gmap string string;
  d_state : State;
  d_tasks : list Task
}.

(** Devices share the profiles table and the token contract. *)
Record System : Type := mkSystem {
  devices : list Device;
  s_profiles : gmap string Profile;
  s_minted : list (string * string);
  s_calls : list (Event * bool);
  s_faults : nat -> option JsError
}.

(** The screen of a device as it mounts: the two mount effects
    ([loadLocationSharingState] and [getProfile]) have run up to their first
    [await]. *)
Definition mount (user : option User) (store : gmap string string) : Device :=
  let '(s1, ts1) := start TLoad loadLocationSharingState initial [] in
  let '(s2, ts2) := start TLoad getProfile s1 ts1 in
  mkDevice user store s2 ts2.

Definition world_of (d : Device) (sys : System) : World :=
  mkWorld (d_session d) (s_profiles sys) (d_storage d) (s_minted sys) (s_calls sys)
          (s_faults sys).

(** Action [a] on device [i]. *)
Definition system_act (i : nat) (a : Action) (sys : System) : System :=
  match devices sys !! i with
  | Some d =>
      let '(s', ts', w') := act a (d_state d) (d_tasks d) (world_of d sys) in
      mkSystem (<[i := mkDevice (session w') (storage w') s' ts']> (devices sys))
               (profiles w') (minted w') (calls w') (faults w')
  | None => sys
  end.

(** The states a system of mounted screens can be in. *)
Inductive reachable : System -> Prop :=
| reach_mount sessions table ledger log flt :
    reachable (mkSystem (map (fun us => mount (fst us) (snd us)) sessions)
                        table ledger log flt)
| reach_act sys i a : reachable sys -> reachable (system_act i a sys).

(** The claims of device [d] that are in flight. *)
Definition claims_in_flight (d : Device) : nat :=
  length (filter (fun t => is_claim t = true) (d_tasks d)).

(** Whether device [d] is signed in as user [id]. *)
Definition signed_in_as (id : string) (d : Device) : bool :=
  match d_session d with
  | Some u => String.eqb (user_id u) id
  | None => false
  end.

(** The claims of user [id] that are in flight, over all devices. *)
Definition claims_in_flight_of (id : string) (sys : System) : nat :=
  sum_list (map claims_in_flight
                (filter (fun d => signed_in_as id d = true) (devices sys))).

(** A schedule: which device does what, in order. *)
Definition run_schedule (l : list (nat * Action)) (sys : System) : System :=
  fold_left (fun s ia => system_act (fst ia) (snd ia) s) l sys.

End App.
(* ===================================================================== *)
(** * Vocabulary for statements about one invocation *)
(* ===================================================================== *)

Module Invocation.
Import JsNumber Backend Async EditProfile.

(** The calls made since [w]. *)
Definition since (w w' : World) : list (Event * bool) :=
  drop (length (calls w)) (calls w').

(** The next [k] calls succeed. *)
Definition calls_succeed (w : World) (k : nat) : Prop :=
  forall i, i < k -> faults w (length (calls w) + i) = None.

(** The local balance the claim handler reads. *)
Definition local_balance (w : World) : number :=
  local_balance_of (storage w !! "captur_token_balance").

(** The profiles table as the sync-up step leaves it when its write goes
    through: the row's balance is the local balance when that is positive,
    and the table is as it was otherwise. *)
Definition synced (id : string) (w : World) : gmap string Profile :=
  if gt (local_balance w) zero
  then alter (set_token_balance (local_balance w)) id (profiles w)
  else profiles w.

(** The authoritative balance: what the read after the sync-up step finds.
    [None] when the user has no row, [Some None] for a [NULL] balance. *)
Definition authoritative (id : string) (w : World) : option (option number) :=
  p_token_balance <$> (synced id w !! id).

(** An amount [parseUnits(amount, 18)] takes: a decimal value, with no
    exponent, of at most 18 decimals. *)
Definition mintable (amount : string) : Prop :=
  exists units, Ethers.parseUnits amount 18 = inr units.

(** A write of zero to the remote or to the local balance. *)
Definition zero_write (e : Event) : Prop :=
  (exists id, e = EUpdateBalance id zero) \/ (exists key, e = ESetItem key "0").

Definition is_mint (e : Event) : Prop :=
  exists to amount, e = EMint to amount.

(** The mint calls of a log, in order. *)
Definition mint_calls (l : list (Event * bool)) : list (string * string) :=
  omap (fun c => match fst c with EMint to amount => Some (to, amount) | _ => None end) l.

(** A confirmed mint: [tx.wait()] resolved. *)
Definition mint_confirmed (l : list (Event * bool)) : bool :=
  existsb (fun c => match c with (EWait _, true) => true | _ => false end) l.

(** A failed mint: [contract.mint] or [tx.wait()] rejected. *)
Definition mint_failed (l : list (Event * bool)) : bool :=
  existsb (fun c => match c with
                    | (EMint _ _, false) | (EWait _, false) => true
                    | _ => false
                    end) l.

(** Every call but the last one succeeded. *)
Definition failure_is_last (l : list (Event * bool)) : Prop :=
  Forall (fun c => snd c = true) (removelast l).

(** An empty or white-space-only string. *)
Definition is_blank (s : string) : bool :=
  forallb JsString.is_white_space (list_ascii_of_string s).

(** The object a save upserts for user [u] from the form [st] at time [now]. *)
Definition updates_of (u : User) (st : State) (now : string) : ProfileUpdates :=
  mkUpdates (user_id u) (username st) (email st) (ageRange st) (gender st)
            (commuteMode st) (cryptoChain st) (walletAddress st) now.

Definition is_upsert (e : Event) : bool :=
  match e with
  | EUpsert _ => true
  | _ => false
  end.

(** The upserts of a log, in order. *)
Definition upserts (l : list (Event * bool)) : list ProfileUpdates :=
  omap (fun c => match fst c with EUpsert u => Some u | _ => None end) l.

End Invocation.
(* ===================================================================== *)
(** * The ways a claim invocation can go *)
(* ===================================================================== *)

Module ClaimPaths.
Import JsNumber Backend Async EditProfile Invocation.

Definition balance_key : string := "captur_token_balance".

(** ** The component state along the handler *)

(** After the three setters the handler starts with. *)
Definition pressed (st : State) : State :=
  setSuccess None (setError None (setClaiming true st)).

(** After the [catch] block for error [e], and the [finally] block. *)
Definition caught (st : State) (e : JsError) : State :=
  setClaiming false
    (setError (Some (JsString.or_else (message e) "Claim failed.")) (pressed st)).

(** After one of the two early [return]s, with its message. *)
Definition returned_early (st : State) (msg : string) : State :=
  setClaiming false (setError (Some msg) (pressed st)).

(** After the [try] block ran to its end. *)
Definition claimed (st : State) : State :=
  setClaiming false (setSuccess (Some "Tokens claimed and balance reset!") (pressed st)).

(** ** The world after each step that went through *)

Definition after_user (w : World) : World :=
  log_call EGetUser true w.

Definition after_local (w : World) : World :=
  log_call (EGetItem balance_key) true (after_user w).

Definition after_sync (id : string) (w : World) : World :=
  if gt (local_balance w) zero
  then log_call (EUpdateBalance id (local_balance w)) true
         (set_profiles (alter (set_token_balance (local_balance w)) id) (after_local w))
  else after_local w.

Definition after_read (id : string) (w : World) : World :=
  log_call (ESelectBalance id) true (after_sync id w).

Definition after_mint (id to amount : string) (w : World) : World :=
  log_call (EMint to amount) true (after_read id w).

Definition after_wait (id to amount : string) (w : World) : World :=
  log_call (EWait (mkTx to amount)) true
    (set_minted (fun l => l ++ [(to, amount)]) (after_mint id to amount w)).

Definition after_reset (id to amount : string) (w : World) : World :=
  log_call (EUpdateBalance id zero) true
    (set_profiles (alter (set_token_balance zero) id) (after_wait id to amount w)).

Definition after_local_reset (id to amount : string) (w : World) : World :=
  log_call (ESetItem balance_key "0") true
    (set_storage <[balance_key := "0"]> (after_reset id to amount w)).

(** The call made from world [w1] goes through, or fails with [e]. *)
Definition ok_from (w w1 : World) : Prop := faults w (length (calls w1)) = None.
Definition fails_from (w w1 : World) (e : JsError) : Prop :=
  faults w (length (calls w1)) = Some e.

(** ** The paths *)

(** [path st w r]: the invocation pressed in state [st] against world [w]
    ends as [r].  One constructor for each place where the handler can
    stop, in the order of the pipeline. *)
Inductive path (st : State) (w : World) : Outcome ClaimExit * State * World -> Prop :=
| path_no_user :
    (exists e, fails_from w w e) \/ session w = None ->
    path st w (Returned (ClaimFailed (Error "No user found")),
               caught st (Error "No user found"),
               log_call EGetUser false w)
| path_local_read_rejected u e :
    session w = Some u -> ok_from w w ->
    fails_from w (after_user w) e ->
    path st w (Returned (ClaimFailed e), caught st e,
               log_call (EGetItem balance_key) false (after_user w))
| path_sync_error u e :
    session w = Some u -> ok_from w w -> ok_from w (after_user w) ->
    gt (local_balance w) zero = true ->
    fails_from w (after_local w) e ->
    path st w (Returned (ClaimFailed e), caught st e,
               log_call (EUpdateBalance (user_id u) (local_balance w)) false (after_local w))
| path_read_error u e :
    session w = Some u ->
    fails_from w (after_sync (user_id u) w) e ->
    path st w (Returned (ClaimFailed e), caught st e,
               log_call (ESelectBalance (user_id u)) false (after_sync (user_id u) w))
| path_no_row u :
    session w = Some u ->
    ok_from w (after_sync (user_id u) w) ->
    profiles (after_sync (user_id u) w) !! user_id u = None ->
    path st w (Returned (ClaimFailed no_rows), caught st no_rows,
               log_call (ESelectBalance (user_id u)) false (after_sync (user_id u) w))
| path_nothing_to_claim u row :
    session w = Some u ->
    ok_from w (after_sync (user_id u) w) ->
    profiles (after_sync (user_id u) w) !! user_id u = Some row ->
    nothing_to_claim (p_token_balance row) = true ->
    path st w (Returned NothingToClaim,
               returned_early st "No balance to claim.",
               after_read (user_id u) w)
| path_unsupported_chain u row :
    session w = Some u ->
    ok_from w (after_sync (user_id u) w) ->
    profiles (after_sync (user_id u) w) !! user_id u = Some row ->
    nothing_to_claim (p_token_balance row) = false ->
    cryptoChain st <> "Base" ->
    path st w (Returned UnsupportedChain,
               returned_early st
                 "Only Base chain is supported for claiming tokens at the moment.",
               after_read (user_id u) w)
| path_amount_rejected u row e :
    session w = Some u ->
    ok_from w (after_sync (user_id u) w) ->
    profiles (after_sync (user_id u) w) !! user_id u = Some row ->
    nothing_to_claim (p_token_balance row) = false ->
    cryptoChain st = "Base" ->
    Ethers.parseUnits (balance_toString (p_token_balance row)) 18 = inl e ->
    path st w (Returned (ClaimFailed e), caught st e, after_read (user_id u) w)
| path_mint_rejected u row units e :
    session w = Some u ->
    profiles (after_sync (user_id u) w) !! user_id u = Some row ->
    nothing_to_claim (p_token_balance row) = false ->
    cryptoChain st = "Base" ->
    Ethers.parseUnits (balance_toString (p_token_balance row)) 18 = inr units ->
    fails_from w (after_read (user_id u) w) e ->
    path st w (Returned (ClaimFailed e), caught st e,
               log_call (EMint (walletAddress st) (balance_toString (p_token_balance row)))
                        false (after_read (user_id u) w))
| path_wait_rejected u row units e :
    session w = Some u ->
    profiles (after_sync (user_id u) w) !! user_id u = Some row ->
    nothing_to_claim (p_token_balance row) = false ->
    cryptoChain st = "Base" ->
    let amount := balance_toString (p_token_balance row) in
    Ethers.parseUnits amount 18 = inr units ->
    fails_from w (after_mint (user_id u) (walletAddress st) amount w) e ->
    path st w (Returned (ClaimFailed e), caught st e,
               log_call (EWait (mkTx (walletAddress st) amount)) false
                        (after_mint (user_id u) (walletAddress st) amount w))
| path_reset_error u row units e :
    session w = Some u ->
    profiles (after_sync (user_id u) w) !! user_id u = Some row ->
    nothing_to_claim (p_token_balance row) = false ->
    cryptoChain st = "Base" ->
    let amount := balance_toString (p_token_balance row) in
    Ethers.parseUnits amount 18 = inr units ->
    fails_from w (after_wait (user_id u) (walletAddress st) amount w) e ->
    path st w (Returned (ClaimFailed e), caught st e,
               log_call (EUpdateBalance (user_id u) zero) false
                        (after_wait (user_id u) (walletAddress st) amount w))
| path_local_reset_rejected u row units e :
    session w = Some u ->
    profiles (after_sync (user_id u) w) !! user_id u = Some row ->
    nothing_to_claim (p_token_balance row) = false ->
    cryptoChain st = "Base" ->
    let amount := balance_toString (p_token_balance row) in
    Ethers.parseUnits amount 18 = inr units ->
    fails_from w (after_reset (user_id u) (walletAddress st) amount w) e ->
    path st w (Returned (ClaimFailed e), caught st e,
               log_call (ESetItem balance_key "0") false
                        (after_reset (user_id u) (walletAddress st) amount w))
| path_claimed u row units :
    session w = Some u ->
    profiles (after_sync (user_id u) w) !! user_id u = Some row ->
    nothing_to_claim (p_token_balance row) = false ->
    cryptoChain st = "Base" ->
    let amount := balance_toString (p_token_balance row) in
    Ethers.parseUnits amount 18 = inr units ->
    ok_from w (after_reset (user_id u) (walletAddress st) amount w) ->
    path st w (Returned Claimed, claimed st,
               after_local_reset (user_id u) (walletAddress st) amount w).

End ClaimPaths.
(* ===================================================================== *)
(** * What the setters and returns of a handler can be *)
(* ===================================================================== *)

Module Behaviour.
Import Backend Async EditProfile App.

(** Every state setter of [p] satisfies [P] and every value [p] returns
    satisfies [Q], whatever the awaited calls answer. *)
Inductive always {S A : Type} (P : (S -> S) -> Prop) (Q : A -> Prop) : Prog S A -> Prop :=
| always_ret a : Q a -> always P Q (Ret a)
| always_throw e : always P Q (Throw e)
| always_update f k : P f -> always P Q k -> always P Q (Update f k)
| always_await X (c : Call X) k : (forall x, always P Q (k x)) -> always P Q (Await c k).

(** A setter that keeps the chain at Base and leaves the busy flag alone. *)
Definition quiet (f : State -> State) : Prop :=
  forall s, (cryptoChain s = "Base" -> cryptoChain (f s) = "Base") /\
            claiming (f s) = claiming s.

(** A setter that keeps the chain at Base and clears the busy flag. *)
Definition releasing (f : State -> State) : Prop :=
  forall s, (cryptoChain s = "Base" -> cryptoChain (f s) = "Base") /\
            claiming (f s) = false.

(** A claim in flight: it does not throw, its setters are quiet, and the
    last thing it does before it returns (a value satisfying [Q]) is to
    clear the busy flag. *)
Inductive busy {A : Type} (Q : A -> Prop) : Prog State A -> Prop :=
| busy_await X (c : Call X) k : (forall x, busy Q (k x)) -> busy Q (Await c k)
| busy_update f k : quiet f -> busy Q k -> busy Q (Update f k)
| busy_release f a : releasing f -> Q a -> busy Q (Update f (Ret a)).

(** [p] may return [a], for some answers of the calls it awaits. *)
Fixpoint may_return {S A : Type} (p : Prog S A) (a : A) : Prop :=
  match p with
  | Ret b => b = a
  | Throw _ => False
  | Update _ k => may_return k a
  | Await c k => exists x, may_return (k x) a
  end.

(** [p] calls [contract.mint] at most [n] times, whatever the calls answer. *)
Fixpoint mint_bound {S A : Type} (p : Prog S A) (n : nat) {struct p} : Prop :=
  match p with
  | Ret _ => True
  | Throw _ => True
  | Update _ k => mint_bound k n
  | Await c k =>
      match event_of c with
      | EMint _ _ =>
          match n with
          | O => False
          | S n' => forall x, mint_bound (k x) n'
          end
      | _ => forall x, mint_bound (k x) n
      end
  end.

(** The AsyncStorage key of a call, when it is one. *)
Definition storage_key (e : Event) : option string :=
  match e with
  | EGetItem key => Some key
  | ESetItem key _ => Some key
  | _ => None
  end.

(** Every AsyncStorage call [p] may make is on one of the keys [keys]. *)
Fixpoint storage_keys_in {S A : Type} (keys : list string) (p : Prog S A) : Prop :=
  match p with
  | Ret _ => True
  | Throw _ => True
  | Update _ k => storage_keys_in keys k
  | Await c k =>
      match storage_key (event_of c) with
      | Some key => In key keys
      | None => True
      end /\ forall x, storage_keys_in keys (k x)
  end.

Definition not_unsupported (x : ClaimExit) : Prop := x <> UnsupportedChain.
Definition anything {A : Type} (x : A) : Prop := True.

(** A claim in flight either goes on, with the busy flag as it was, or is
    finished, with the busy flag cleared. *)
Definition goes_on_or_releases {A : Type} (Q : A -> Prop) (s : State)
    (r : Prog State A * State) : Prop :=
  cryptoChain (snd r) = "Base" /\
  ((finished (fst r) = false /\ busy Q (fst r) /\ claiming (snd r) = claiming s) \/
   (finished (fst r) = true /\ claiming (snd r) = false)).

(** The claims among the tasks [ts]. *)
Definition count (ts : list Task) : nat :=
  length (filter (fun t => is_claim t = true) ts).

Definition weight (t : Task) : nat := if is_claim t then 1 else 0.

(** What holds of every suspended task of a screen. *)
Definition task_ok (t : Task) : Prop :=
  match t with
  | TClaim p => busy not_unsupported p /\ mint_bound p 1
  | TSave p => always quiet anything p /\ mint_bound p 0
  | TLoad p => always quiet anything p /\ mint_bound p 0
  end.

(** Task [t] calls [contract.mint] at most [n] times. *)
Definition mints_at_most (t : Task) (n : nat) : Prop :=
  match t with
  | TClaim p => mint_bound p n
  | TSave p => mint_bound p n
  | TLoad p => mint_bound p n
  end.

(** What holds of every screen of a running app: the chain is Base, the
    tasks behave, and the busy flag is set exactly while one claim is in
    flight. *)
Definition screen_ok (s : State) (ts : list Task) : Prop :=
  cryptoChain s = "Base" /\
  Forall task_ok ts /\
  length (filter (fun t => is_claim t = true) ts) = (if claiming s then 1 else 0).

Definition device_ok (d : Device) : Prop := screen_ok (d_state d) (d_tasks d).

(** The AsyncStorage keys the handlers of each screen use. *)
Definition EditProfile_keys : list string :=
  [EditProfile.STORAGE_KEYS_LOCATION_SHARING; Rewards.STORAGE_KEYS_CAPT_BALANCE].

Definition Rewards_keys : list string :=
  [Rewards.STORAGE_KEYS_LOCATION_SHARING; Rewards.STORAGE_KEYS_CAPT_BALANCE].

End Behaviour.
(* ===================================================================== *)
(** * Concrete users, devices and schedules *)
(* ===================================================================== *)

Module Scenario.
Import JsNumber Backend Async EditProfile App.

Definition alice : User := mkUser "u1" "alice@example.org".

Definition address : string := "0xabab1234567890abcdef1234567890abcdef1234".

Definition no_faults : nat -> option JsError := fun _ => None.

(** The [n]-th call from now fails. *)
Definition fault_at (n : nat) (msg : string) : nat -> option JsError :=
  fun i => if Nat.eqb i n then Some (Error msg) else None.

(** Alice's row, with [token_balance = balance]. *)
Definition row (balance : string) : Profile :=
  mkProfile (Some "alice") (Some "alice@example.org") None None None (Some "Base")
            (Some address) None (Some (parseFloat balance)) None.

Definition store (balance : string) : gmap string string :=
  {[ "captur_token_balance" := balance ]}.

(** Alice's phone, with the local balance [local] and the remote balance
    [remote]. *)
Definition phone (local remote : string) (flt : nat -> option JsError) : World :=
  mkWorld (Some alice) {[ "u1" := row remote ]} (store local) [] [] flt.

(** A device nobody is signed in on. *)
Definition signed_out : World := mkWorld None ∅ ∅ [] [] no_faults.

(** The form once Alice's profile is loaded. *)
Definition form : State :=
  changeWalletAddress address
    (setEmail "alice@example.org" (setUsername "alice" (setLoading false initial))).

Definition noon : string := "2025-01-01T12:00:00.000Z".

(** Alice is signed in on two devices; only the first has earned tokens
    since the last claim. *)
Definition two_devices : System :=
  mkSystem (map (fun us => mount (fst us) (snd us))
                [(Some alice, store "12.34"); (Some alice, ∅)])
           {[ "u1" := row "0" ]} [] [] no_faults.

(** Both screens load, and Claim is pressed on both. *)
Definition both_press_claim : list (nat * Action) :=
  [(0, Answer 0); (0, Answer 0); (0, Answer 0);
   (1, Answer 0); (1, Answer 0); (1, Answer 0);
   (0, PressClaim); (1, PressClaim)].

Definition both_claiming : System := run_schedule both_press_claim two_devices.

(** The first claim goes up to its mint call (user, local read, sync-up,
    remote read); so does the second (user, local read, remote read); then
    each mints, waits and resets. *)
Definition race : list (nat * Action) :=
  [(0, Answer 0); (0, Answer 0); (0, Answer 0); (0, Answer 0);
   (1, Answer 0); (1, Answer 0); (1, Answer 0);
   (0, Answer 0); (0, Answer 0);
   (1, Answer 0); (1, Answer 0);
   (0, Answer 0); (0, Answer 0);
   (1, Answer 0); (1, Answer 0)].

Definition first_device : Device :=
  default (mount None ∅) (devices both_claiming !! 0).

End Scenario.

(* ===================================================================== *)
(** * Vocabulary for the late steps of a claim *)
(* ===================================================================== *)

Module Pipeline.
Import JsNumber Backend Async EditProfile Invocation.

(** The calls a claim makes before it mints: the user, the local read,
    the sync-up write when the local balance is positive, the remote read. *)
Definition calls_before_mint (w : World) : nat :=
  if gt (local_balance w) zero then 4 else 3.

End Pipeline.

(* ===================================================================== *)
(** * Where tokens are minted to *)
(* ===================================================================== *)

Module Addresses.
Import JsNumber Backend Async EditProfile App Behaviour.

(** [isAddressValid] is in step with the address field. *)
Definition address_checked (s : State) : Prop :=
  isAddressValid s = Wallet.validateWalletAddress (walletAddress s).

(** A setter that keeps [isAddressValid] in step with the address field. *)
Definition keeps_address (f : State -> State) : Prop :=
  forall s, address_checked s -> address_checked (f s).

(** Every [contract.mint] call [p] may make is to an address that [ok]
    holds of. *)
Fixpoint mints_to {S A : Type} (ok : string -> Prop) (p : Prog S A) : Prop :=
  match p with
  | Ret _ => True
  | Throw _ => True
  | Update _ k => mints_to ok k
  | Await c k =>
      match event_of c with
      | EMint to _ => ok to
      | _ => True
      end /\ forall x, mints_to ok (k x)
  end.

Definition well_formed (to : string) : Prop := Wallet.validateWalletAddress to = true.

(** A mint call of the log is to a well-formed address. *)
Definition mint_well_formed (c : Event * bool) : Prop :=
  match fst c with
  | EMint to _ => well_formed to
  | _ => True
  end.

Definition task_addresses (t : Task) : Prop :=
  match t with
  | TClaim p => always keeps_address anything p /\ mints_to well_formed p
  | TSave p => always keeps_address anything p /\ mints_to well_formed p
  | TLoad p => always keeps_address anything p /\ mints_to well_formed p
  end.

Definition screen_addresses (s : State) (ts : list Task) : Prop :=
  address_checked s /\ Forall task_addresses ts.

Definition system_addresses (sys : System) : Prop :=
  Forall mint_well_formed (s_calls sys) /\
  Forall (fun d => screen_addresses (d_state d) (d_tasks d)) (devices sys).

End Addresses.

(* ===================================================================== *)
(** * Saves in flight *)
(* ===================================================================== *)

Module Saving.
Import JsNumber Backend Async EditProfile App Behaviour.

(** A setter that leaves [updating] alone. *)
Definition leaves_updating (f : State -> State) : Prop :=
  forall s, updating (f s) = updating s.

(** A setter that switches [updating] off. *)
Definition clears_updating (f : State -> State) : Prop :=
  forall s, updating (f s) = false.

(** A save in flight: it does not throw, its setters leave [updating]
    alone, and the last thing it does before it returns is to switch
    [updating] off. *)
Inductive saving {A : Type} : Prog State A -> Prop :=
| saving_await X (c : Call X) k : (forall x, saving (k x)) -> saving (Await c k)
| saving_update f k : leaves_updating f -> saving k -> saving (Update f k)
| saving_release f a : clears_updating f -> saving (Update f (Ret a)).

Definition is_save (t : Task) : bool :=
  match t with
  | TSave _ => true
  | _ => false
  end.

(** The saves among the tasks [ts]. *)
Definition saves (ts : list Task) : nat :=
  length (filter (fun t => is_save t = true) ts).

(** The saves of device [d] that are in flight. *)
Definition saves_in_flight (d : Device) : nat := saves (d_tasks d).

Definition task_saving (t : Task) : Prop :=
  match t with
  | TSave p => saving p
  | TClaim p => always leaves_updating anything p
  | TLoad p => always leaves_updating anything p
  end.

(** [updating] is set exactly while one save is in flight. *)
Definition screen_saving (s : State) (ts : list Task) : Prop :=
  Forall task_saving ts /\ saves ts = (if updating s then 1 else 0).

(** A save in flight either goes on, with [updating] as it was, or is
    finished, with [updating] switched off. *)
Definition goes_on_or_stops {A : Type} (s : State) (r : Prog State A * State) : Prop :=
  (finished (fst r) = false /\ saving (fst r) /\ updating (snd r) = updating s) \/
  (finished (fst r) = true /\ updating (snd r) = false).

Definition save_weight (t : Task) : nat := if is_save t then 1 else 0.

End Saving.

(* ===================================================================== *)
(** * components/Rewards.tsx: the referral code *)
(* ===================================================================== *)

Module Referral.
Import Backend.

(** The [useState] cells of the referral code (Rewards.tsx, lines 31-33). *)
Record State : Type := mkState {
  referralCode : option string;
  loadingReferralCode : bool;
  errorReferralCode : option string
}.

Definition initial : State := mkState None false None.

Definition setReferralCode (v : option string) (s : State) : State :=
  mkState v (loadingReferralCode s) (errorReferralCode s).
Definition setLoadingReferralCode (v : bool) (s : State) : State :=
  mkState (referralCode s) v (errorReferralCode s).
Definition setErrorReferralCode (v : option string) (s : State) : State :=
  mkState (referralCode s) (loadingReferralCode s) v.

(** What [from('profiles').select('referral_code').eq('id', id).single()]
    resolves to: [data] is the row when there is one, with its
    [referral_code] ([None] is [NULL]). *)
Record Selected : Type := mkSelected {
  sel_data : option (option string);
  sel_error : option JsError;
  sel_status : Z
}.

(** The [try] block of [fetchReferralCode] (lines 153-176), for what its two
    awaited calls settle to: the error thrown, or the state it leaves. *)
Definition try_block (getUser : Settled (option User))
    (select : string -> Settled Selected) (s : State) : JsError + State :=
  match getUser with
  | Rejected e => inl e
  | Resolved None => inr (setReferralCode (Some "N/A") s)
  | Resolved (Some user) =>
      match select (user_id user) with
      | Rejected e => inl e
      | Resolved r =>
          let found :=
            match sel_data r with
            | Some row => inr (setReferralCode row s)
            | None => inr (setReferralCode (Some "N/A") s)
            end in
          match sel_error r with
          | Some e => if negb (sel_status r =? 406)%Z then inl e else found
          | None => found
          end
      end
  end.

(** [fetchReferralCode] (lines 151-185). *)
Definition fetchReferralCode (getUser : Settled (option User))
    (select : string -> Settled Selected) (s : State) : State :=
  let s1 := setLoadingReferralCode true s in
  let s2 :=
    match try_block getUser select s1 with
    | inr s' => s'
    | inl e => setErrorReferralCode (Some (message e)) (setReferralCode (Some "Error") s1)
    end in
  setLoadingReferralCode false s2.

(** ToBoolean of a string cell that may be [null]. *)
Definition truthy (v : option string) : bool :=
  match v with
  | Some x => JsString.truthy x
  | None => false
  end.

(** What the referral card shows (lines 256-262). *)
Inductive Shown : Type :=
| Spinner
| ErrorText (msg : string)
| CodeText (code : string).

Definition shown (s : State) : Shown :=
  if loadingReferralCode s then Spinner
  else if truthy (errorReferralCode s) then ErrorText (default "" (errorReferralCode s))
  else CodeText (if truthy (referralCode s) then default "" (referralCode s) else "N/A").

(** [disabled] of the share button (line 266). *)
Definition share_disabled (s : State) : bool :=
  loadingReferralCode s || negb (truthy (referralCode s))
  || bool_decide (referralCode s = Some "Error").

Definition newline : string := String (ascii_of_nat 10) "".

Definition tweet_start : string :=
  "I just joined @captur_network waitlist to earn rewards for my daily navigations! Join me to get early access: https://capturnetwork.xyz".

(** [tweetText] of [shareOnTwitter] (line 192). *)
Definition tweetText (s : State) : string :=
  tweet_start +:+
  (if truthy (referralCode s)
      && negb (bool_decide (referralCode s = Some "N/A"))
      && negb (bool_decide (referralCode s = Some "Error"))
   then newline +:+ newline +:+ "Use my referral code: " +:+ default "" (referralCode s)
   else "").

(** A select that finds a row with a code. *)
Definition found_code (id : string) : Settled Selected :=
  Resolved (mkSelected (Some (Some "CAPT-7Q2")) None 200%Z).

End Referral.

(* ===================================================================== *)
(** * The reals that Numbers stand for *)
(* ===================================================================== *)

Module Exact.
Import QArith JsNumber.
Local Open Scope Q_scope.

Definition pow2 (e : Z) : Q := 2 ^ e.

(** [m * 2^e] *)
Definition F2Q (m e : Z) : Q := inject_Z m * pow2 e.

(** The real number a finite Number stands for. *)
Definition value (x : number) : Q :=
  match x with
  | S754_finite s m e => if s then - F2Q (Z.pos m) e else F2Q (Z.pos m) e
  | _ => 0
  end.

Definition emin : Z := SpecFloat.emin prec emax.

(** The reals that are Numbers: [m * 2^e] with [m] of at most 53 bits and [e]
    in range. *)
Definition representable (f : Q) : Prop :=
  exists m e, (0 <= m < 2 ^ prec)%Z /\ (emin <= e <= emax - prec)%Z /\ f == F2Q m e.

(** A Number that is zero or positive, and finite. *)
Definition nonneg (x : number) : Prop :=
  match x with
  | S754_zero false => True
  | S754_finite false m e => bounded prec emax m e = true
  | _ => False
  end.

(** [v] is at least as near to [z] as [f] is. *)
Definition nearer (v f z : Q) : Prop :=
  (v <= f \/ v + f <= 2 * z) /\ (f <= v \/ 2 * z <= v + f).

(** [x] is a Number nearest to the real [z >= 0], or [Infinity] when [z] is
    above all of them. *)
Definition rounded (z : Q) (x : number) : Prop :=
  match x with
  | S754_zero false => forall f, representable f -> nearer 0 f z
  | S754_finite false m e =>
      bounded prec emax m e = true /\
      forall f, representable f -> nearer (F2Q (Z.pos m) e) f z
  | S754_infinity false => forall f, representable f -> f < z
  | _ => False
  end.

(** The real [z] lies in [[m * 2^e, (m+1) * 2^e)], and the bits [r] and [s]
    say where: [r] that it is in the upper half, [s] that it is neither
    the lower end nor the middle. *)
Definition inbetween (m : Z) (r s : bool) (e : Z) (z : Q) : Prop :=
  F2Q m e <= z < F2Q (m + 1) e /\
  (r = true <-> F2Q (2 * m + 1) (e - 1) <= z) /\
  (s = false <-> (z == F2Q m e \/ z == F2Q (2 * m + 1) (e - 1))).

(** What a shift register holds of [z]. *)
Definition holds (mrs : shr_record) (e : Z) (z : Q) : Prop :=
  (0 <= shr_m mrs)%Z /\ inbetween (shr_m mrs) (shr_r mrs) (shr_s mrs) e z.

End Exact.

(** The constants of a tick, and the draws of [Math.random()]. *)
Module Ticks.
Import QArith JsNumber Exact.
Local Open Scope Q_scope.

(** The Numbers of [0.1 - 0.01], [0.01] and [0.1]. *)
Definition c09 : number := S754_finite false 6485183463413515 (-56).
Definition c001 : number := S754_finite false 5764607523034235 (-59).
Definition c01 : number := S754_finite false 7205759403792794 (-56).

(** A draw of [Math.random()]: a Number in [[0, 1)]. *)
Definition draw (r : number) : Prop := nonneg r /\ value r < 1.

(** The balance up to which a tick is shown to raise it. *)
Definition limit : Q := 1000000000000.

End Ticks.
(* ===================================================================== *)
(** * Facts about the matcher *)
(* ===================================================================== *)

Module RegexFacts.
Import Regex.

Lemma append_nil_l (s : string) : "" +:+ s = s.
Proof. reflexivity. Qed.

Lemma append_cons (c : ascii) (s1 s2 : string) :
  String c s1 +:+ s2 = String c (s1 +:+ s2).
Proof. reflexivity. Qed.

Lemma lang_cat_inv r1 r2 s :
  lang (Cat r1 r2) s -> exists s1 s2, s = s1 +:+ s2 /\ lang r1 s1 /\ lang r2 s2.
Proof. intros H. inversion H; subst. eauto. Qed.

Lemma lang_chr_inv c s : lang (Chr c) s -> s = String c "".
Proof. intros H. inversion H; subst. reflexivity. Qed.

Lemma lang_class_inv ranges s :
  lang (Class ranges) s -> exists c, s = String c "" /\ in_class c ranges = true.
Proof. intros H. inversion H; subst. eauto. Qed.

Lemma lang_eps_inv s : lang Eps s -> s = "".
Proof. intros H. inversion H; subst. reflexivity. Qed.

Lemma nullable_lang r : nullable r = true <-> lang r "".
Proof.
  split.
  - induction r; simpl; intros H; try discriminate.
    + constructor.
    + apply andb_true_iff in H as [H1 H2].
      change "" with ("" +:+ ""). constructor; auto.
    + apply orb_true_iff in H as [H|H]; [apply lang_alt_l | apply lang_alt_r]; auto.
  - intros H. remember "" as s eqn:Hs. induction H; simpl; try discriminate; auto.
    + destruct s1; [rewrite append_nil_l in Hs | rewrite append_cons in Hs; discriminate].
      rewrite IHlang1, IHlang2; auto.
    + rewrite IHlang; auto.
    + rewrite IHlang; auto using orb_true_r.
Qed.

Lemma deriv_lang c r s : lang (deriv c r) s <-> lang r (String c s).
Proof.
  revert s. induction r; intros s; simpl.
  - split; intros H; inversion H.
  - split; intros H; inversion H.
  - destruct (Ascii.eqb_spec c0 c) as [->|Hne].
    + split; intros H; inversion H; subst; constructor.
    + split; intros H; inversion H; subst; congruence.
  - destruct (in_class c ranges) eqn:Hc.
    + split; intros H; inversion H; subst; constructor; auto.
    + split; intros H; inversion H; subst; congruence.
  - assert (Hcat : lang (Cat (deriv c r1) r2) s -> lang (Cat r1 r2) (String c s)).
    { intros H. inversion H; subst.
      change (String c (s1 +:+ s2)) with (String c s1 +:+ s2).
      constructor; auto. apply IHr1; auto. }
    assert (Hinv : lang (Cat r1 r2) (String c s) ->
                   lang (Cat (deriv c r1) r2) s \/ (lang r1 "" /\ lang r2 (String c s))).
    { intros H. apply lang_cat_inv in H as (s1 & s2 & Heq & H1 & H2).
      destruct s1 as [|c1 s1].
      - rewrite append_nil_l in Heq. right. subst. auto.
      - rewrite append_cons in Heq. injection Heq as -> ->.
        left. constructor; auto. apply IHr1; auto. }
    destruct (nullable r1) eqn:Hn.
    + split; intros H.
      * inversion H; subst; auto.
        change (String c s) with ("" +:+ String c s).
        constructor; [apply nullable_lang; auto | apply IHr2; auto].
      * destruct (Hinv H) as [H'|[_ H']]; [apply lang_alt_l | apply lang_alt_r]; auto.
        apply IHr2; auto.
    + split; intros H; auto.
      destruct (Hinv H) as [H'|[H' _]]; auto.
      apply nullable_lang in H'. congruence.
  - split; intros H; inversion H; subst;
      solve [apply lang_alt_l; apply IHr1; auto | apply lang_alt_r; apply IHr2; auto].
Qed.

(** The derivative matcher decides the language. *)
Lemma matches_lang s : forall r, matches r s = true <-> lang r s.
Proof.
  induction s as [|c s IH]; intros r; simpl.
  - apply nullable_lang.
  - rewrite IH. apply deriv_lang.
Qed.

End RegexFacts.

(* ===================================================================== *)
(** * The wallet address validator decides the address format *)
(* ===================================================================== *)

Module WalletFacts.
Import Regex RegexFacts Wallet.

Lemma in_hex_class c : in_class c [("a", "f"); ("A", "F"); ("0", "9")]%char = true <-> is_hex_digit c.
Proof.
  unfold in_class, in_range, is_hex_digit. simpl.
  rewrite !orb_true_iff, !andb_true_iff, !N.leb_le.
  change (N_of_ascii "a") with 97%N. change (N_of_ascii "f") with 102%N.
  change (N_of_ascii "A") with 65%N. change (N_of_ascii "F") with 70%N.
  change (N_of_ascii "0") with 48%N. change (N_of_ascii "9") with 57%N.
  intuition (try discriminate; try lia).
Qed.

Lemma lang_rep_hex n : forall s,
  lang (rep n hex_class) s <-> String.length s = n /\ all_hex s.
Proof.
  induction n as [|n IH]; intros s; simpl.
  - split.
    + intros H. apply lang_eps_inv in H. subst. simpl. auto.
    + intros [Hlen _]. destruct s; [constructor | discriminate].
  - split.
    + intros H. apply lang_cat_inv in H as (s1 & s2 & -> & H1 & H2).
      apply lang_class_inv in H1 as (c & -> & Hc).
      apply IH in H2 as [Hlen Hall].
      rewrite append_cons, append_nil_l. simpl.
      split; [congruence | split; auto]. apply in_hex_class; auto.
    + intros [Hlen Hall]. destruct s as [|c s]; [discriminate|].
      simpl in Hlen, Hall. destruct Hall as [Hc Hall].
      change (String c s) with (String c "" +:+ s).
      constructor.
      * constructor. apply in_hex_class; auto.
      * apply IH. split; [congruence | auto].
Qed.

Lemma lang_address_pattern s : lang address_pattern s <-> wallet_format s.
Proof.
  unfold address_pattern, wallet_format. split.
  - intros H.
    apply lang_cat_inv in H as (s1 & s2 & -> & H1 & H2).
    apply lang_cat_inv in H2 as (s3 & s4 & -> & H3 & H4).
    apply lang_chr_inv in H1. apply lang_chr_inv in H3. subst.
    exists s4. split; [reflexivity|]. apply lang_rep_hex; auto.
  - intros (digits & -> & Hlen & Hall).
    change ("0x" +:+ digits) with (String "0" "" +:+ (String "x" "" +:+ digits)).
    repeat constructor. apply lang_rep_hex; auto.
Qed.

Lemma wallet_format_nonempty s : wallet_format s -> s <> "".
Proof. intros (digits & -> & _) H. discriminate. Qed.

(** C1.  [validateWalletAddress] rejects the empty string, and accepts a
    string exactly when it is the literal prefix [0x] followed by exactly 40
    hexadecimal digits of either case; every other string is rejected. *)
Theorem validateWalletAddress_spec :
  validateWalletAddress "" = false /\
  (forall address, validateWalletAddress address = true <-> wallet_format address) /\
  (forall address, ~ wallet_format address -> validateWalletAddress address = false).
Proof.
  assert (Hiff : forall address,
             validateWalletAddress address = true <-> wallet_format address).
  { intros address. unfold validateWalletAddress, test.
    destruct (String.eqb_spec address "") as [->|Hne].
    - split; [discriminate|]. intros H. apply wallet_format_nonempty in H. congruence.
    - rewrite matches_lang. apply lang_address_pattern. }
  split; [reflexivity|]. split; [exact Hiff|].
  intros address Hn. destruct (validateWalletAddress address) eqn:E; auto.
  apply Hiff in E. contradiction.
Qed.

(** The examples of the specification. *)
Example validate_mixed_case :
  validateWalletAddress "0xABab1234567890abcdef1234567890ABCDEF1234" = true.
Proof. reflexivity. Qed.

Example validate_short : validateWalletAddress "0x123" = false.
Proof. reflexivity. Qed.

Example validate_upper_prefix :
  validateWalletAddress "0XABab1234567890abcdef1234567890ABCDEF1234" = false.
Proof. reflexivity. Qed.

End WalletFacts.
(* ===================================================================== *)
(** * Stepping through the calls of an invocation *)
(* ===================================================================== *)

Module Stepping.
Import Backend Async Invocation.

Lemma calls_succeed_at w k n :
  calls_succeed w k -> length (calls w) <= n < length (calls w) + k -> faults w n = None.
Proof.
  intros H Hn. replace n with (length (calls w) + (n - length (calls w))) by lia.
  apply H. lia.
Qed.

Lemma since_app w l : drop (length (calls w)) (calls w ++ l) = l.
Proof. apply drop_app_length. Qed.

(** The next call succeeds, by the hypothesis [H : calls_succeed w k]. *)
Ltac call_ok H :=
  unfold exec at 1; cbn [faults calls log_call set_profiles set_storage set_minted];
  match goal with
  | |- context [faults ?w ?n] =>
      rewrite (calls_succeed_at w _ n H)
        by (rewrite ?length_app; cbn [length]; lia)
  end;
  cbn [perform failed succeeded event_of fst snd].

(** The next call succeeds or fails. *)
Ltac call_cases :=
  unfold exec at 1; cbn [faults calls log_call set_profiles set_storage set_minted];
  match goal with
  | |- context [faults ?w ?n] => destruct (faults w n) eqn:?
  end;
  cbn [perform failed succeeded event_of fst snd].

Ltac show_log :=
  unfold since; cbn [calls log_call set_profiles set_storage set_minted];
  rewrite <- ?app_assoc; rewrite since_app; cbn [app].

(** One goal for each call of a log that is known. *)
Ltac each_call :=
  repeat match goal with
         | |- Forall _ (_ :: _) => apply List.Forall_cons
         | |- Forall _ [] => apply List.Forall_nil
         end.

End Stepping.

(* ===================================================================== *)
(** * The claim pipeline, one invocation at a time *)
(* ===================================================================== *)

Module ClaimFacts.
Import JsNumber Backend Async MintAndClaim EditProfile Invocation ClaimPaths Stepping Scenario.

#[local] Arguments balance_toString : simpl never.
#[local] Arguments parseFloat : simpl never.
#[local] Arguments toString : simpl never.
#[local] Arguments gt : simpl never.
#[local] Arguments le : simpl never.
#[local] Arguments nothing_to_claim : simpl never.
#[local] Arguments local_balance_of : simpl never.
#[local] Arguments JsString.or_else : simpl never.

(** ** Comparisons with zero *)

Lemma gt_zero_claimable b : gt b zero = true -> nothing_to_claim (Some b) = false.
Proof. destruct b as [[]|[]| |[] m e]; cbv; congruence. Qed.

Lemma le_zero_nothing b : le b zero = true -> nothing_to_claim (Some b) = true.
Proof.
  unfold nothing_to_claim. intros ->. apply orb_true_r.
Qed.

Lemma gt_zero_not_le b : gt b zero = true -> le b zero = false.
Proof. destruct b as [[]|[]| |[] m e]; cbv; congruence. Qed.

Lemma gt_zero_not_zero b : gt b zero = true -> b <> zero.
Proof. intros H ->. discriminate. Qed.

(** ** Every invocation takes one of the paths *)

Lemma negb_eqb_false (a b : string) : negb (a =? b)%string = false -> a = b.
Proof. intros H. apply negb_false_iff in H. apply String.eqb_eq; auto. Qed.

Lemma negb_eqb_true (a b : string) : negb (a =? b)%string = true -> a <> b.
Proof. intros H. apply negb_true_iff in H. apply String.eqb_neq; auto. Qed.

(** The goal is the path of constructor [c], once the worlds of [c] are
    spelt out; [Hl] says whether the sync-up step wrote. *)
Ltac by_path c Hl :=
  let H := fresh "H" in
  pose proof c as H;
  cbv zeta in H;
  unfold after_local_reset, after_reset, after_wait, after_mint, after_read, after_sync,
         ok_from, fails_from in H;
  rewrite ?Hl in H;
  eapply H; eauto.

Lemma claim_paths (st : State) (w : World) : path st w (run (claim st) st w).
Proof.
  assert (Hl0 : true = true) by reflexivity.
  unfold claim. simpl.
  call_cases; simpl.
  { apply path_no_user. left. eexists. eassumption. }
  destruct (session w) as [u|] eqn:Hs; simpl.
  2:{ apply path_no_user. right. exact Hs. }
  call_cases; simpl.
  { by_path (path_local_read_rejected st w u) Hl0. }
  fold (local_balance w).
  destruct (gt (local_balance w) zero) eqn:Hl; simpl.
  - call_cases; simpl.
    { by_path (path_sync_error st w u) Hl. }
    call_cases; simpl.
    { by_path (path_read_error st w u) Hl. }
    match goal with |- context [alter ?f ?i ?m !! ?j] =>
      destruct (alter f i m !! j) as [row|] eqn:Hrow end; simpl.
    2:{ by_path (path_no_row st w u) Hl. }
    destruct (nothing_to_claim (p_token_balance row)) eqn:Hn; simpl.
    { by_path (path_nothing_to_claim st w u row) Hl. }
    destruct (negb (cryptoChain st =? "Base")) eqn:Hc; simpl.
    { apply negb_eqb_true in Hc. by_path (path_unsupported_chain st w u row) Hl. }
    apply negb_eqb_false in Hc.
    unfold mintTokensToUser.
    destruct (Ethers.parseUnits (balance_toString (p_token_balance row)) 18)
      as [e|units] eqn:Hu; simpl.
    { by_path (path_amount_rejected st w u row) Hl. }
    call_cases; simpl.
    { by_path (path_mint_rejected st w u row units) Hl. }
    call_cases; simpl.
    { by_path (path_wait_rejected st w u row units) Hl. }
    call_cases; simpl.
    { by_path (path_reset_error st w u row units) Hl. }
    call_cases; simpl.
    { by_path (path_local_reset_rejected st w u row units) Hl. }
    by_path (path_claimed st w u row units) Hl.
  - call_cases; simpl.
    { by_path (path_read_error st w u) Hl. }
    destruct (profiles w !! user_id u) as [row|] eqn:Hrow; simpl.
    2:{ by_path (path_no_row st w u) Hl. }
    destruct (nothing_to_claim (p_token_balance row)) eqn:Hn; simpl.
    { by_path (path_nothing_to_claim st w u row) Hl. }
    destruct (negb (cryptoChain st =? "Base")) eqn:Hc; simpl.
    { apply negb_eqb_true in Hc. by_path (path_unsupported_chain st w u row) Hl. }
    apply negb_eqb_false in Hc.
    unfold mintTokensToUser.
    destruct (Ethers.parseUnits (balance_toString (p_token_balance row)) 18)
      as [e|units] eqn:Hu; simpl.
    { by_path (path_amount_rejected st w u row) Hl. }
    call_cases; simpl.
    { by_path (path_mint_rejected st w u row units) Hl. }
    call_cases; simpl.
    { by_path (path_wait_rejected st w u row units) Hl. }
    call_cases; simpl.
    { by_path (path_reset_error st w u row units) Hl. }
    call_cases; simpl.
    { by_path (path_local_reset_rejected st w u row units) Hl. }
    by_path (path_claimed st w u row units) Hl.
Qed.

(** ** A successful claim *)

(** C2 (amended).  When the user is authenticated, the authoritative balance
    [b] read back after the sync-up step is positive and [b.toString()] is a decimal
    value that [parseUnits] takes, the address is valid, the chain is Base
    and every call succeeds, the invocation makes exactly one mint call, for
    the wallet address and [b.toString()], and then writes the remote
    balance to zero and after that the local balance: both end at 0. *)
Theorem claim_mints_once_then_zeroes (st : State) (w : World) (u : User) (b : number) :
  session w = Some u ->
  calls_succeed w 8 ->
  authoritative (user_id u) w = Some (Some b) ->
  gt b zero = true ->
  mintable (toString b) ->
  Wallet.validateWalletAddress (walletAddress st) = true ->
  cryptoChain st = "Base" ->
  let '(out, st', w') := run (claim st) st w in
  out = Returned Claimed /\
  mint_calls (since w w') = [(walletAddress st, toString b)] /\
  (exists before,
     since w w' =
       before ++
       [(EMint (walletAddress st) (toString b), true);
        (EWait (mkTx (walletAddress st) (toString b)), true);
        (EUpdateBalance (user_id u) zero, true);
        (ESetItem "captur_token_balance" "0", true)] /\
     mint_calls before = [] /\
     Forall (fun c => ~ zero_write (fst c)) before) /\
  minted w' = minted w ++ [(walletAddress st, toString b)] /\
  p_token_balance <$> (profiles w' !! user_id u) = Some (Some zero) /\
  storage w' !! "captur_token_balance" = Some "0" /\
  success st' = Some "Tokens claimed and balance reset!" /\
  error st' = None /\
  claiming st' = false.
Proof.
  intros Hs Hf Hb Hpos [units Hu] _ Hchain.
  unfold authoritative, synced, local_balance in Hb.
  unfold claim. simpl.
  call_ok Hf. rewrite Hs. simpl.
  call_ok Hf. simpl.
  set (local := local_balance_of (storage w !! "captur_token_balance")) in *.
  destruct (gt local zero) eqn:Hl; simpl.
  - call_ok Hf. simpl. call_ok Hf. simpl.
    destruct (alter (set_token_balance local) (user_id u) (profiles w) !! user_id u)
      as [row|] eqn:Hrow; [|discriminate].
    simpl in Hb. injection Hb as Hb. simpl. rewrite Hb.
    rewrite (gt_zero_claimable _ Hpos), Hchain. simpl.
    unfold mintTokensToUser. change (balance_toString (Some b)) with (toString b).
    rewrite Hu. simpl.
    call_ok Hf. simpl. call_ok Hf. simpl. call_ok Hf. simpl. call_ok Hf. simpl.
    show_log.
    repeat split; try reflexivity.
    + eexists [_; _; _; _]. split; [reflexivity|]. split; [reflexivity|].
      each_call; simpl; intros [[? H]|[? H]]; try discriminate.
      injection H as _ H. apply (gt_zero_not_zero _ Hl). congruence.
    + rewrite lookup_alter_eq, Hrow. reflexivity.
    + apply lookup_insert_eq.
  - call_ok Hf. simpl.
    destruct (profiles w !! user_id u) as [row|] eqn:Hrow; [|discriminate].
    simpl in Hb. injection Hb as Hb. simpl. rewrite Hb.
    rewrite (gt_zero_claimable _ Hpos), Hchain. simpl.
    unfold mintTokensToUser. change (balance_toString (Some b)) with (toString b).
    rewrite Hu. simpl.
    call_ok Hf. simpl. call_ok Hf. simpl. call_ok Hf. simpl. call_ok Hf. simpl.
    show_log.
    repeat split; try reflexivity.
    + eexists [_; _; _]. split; [reflexivity|]. split; [reflexivity|].
      each_call; simpl; intros [[? H]|[? H]]; discriminate.
    + rewrite lookup_alter_eq, Hrow. reflexivity.
    + apply lookup_insert_eq.
Qed.

Lemma claim_mints_once_then_zeroes_witness :
  let w := phone "12.34" "5" no_faults in
  let '(out, _, w') := run (claim form) form w in
  out = Returned Claimed /\
  mint_calls (since w w') = [(address, toString (parseFloat "12.34"))] /\
  toString (parseFloat "12.34") = "12.34" /\
  minted w' = [(address, toString (parseFloat "12.34"))] /\
  p_token_balance <$> (profiles w' !! "u1") = Some (Some zero) /\
  storage w' !! "captur_token_balance" = Some "0".
Proof.
  intros w.
  assert (Hauth : authoritative (user_id alice) w = Some (Some (parseFloat "12.34")))
    by (vm_compute; reflexivity).
  assert (Hpos : gt (parseFloat "12.34") zero = true) by (vm_compute; reflexivity).
  assert (Hvalid : Wallet.validateWalletAddress (walletAddress form) = true)
    by (vm_compute; reflexivity).
  assert (Hs : toString (parseFloat "12.34") = "12.34") by (vm_compute; reflexivity).
  assert (Hunits : mintable (toString (parseFloat "12.34")))
    by (exists 12340000000000000000%Z; vm_compute; reflexivity).
  generalize (claim_mints_once_then_zeroes form w alice (parseFloat "12.34")
                eq_refl (fun i _ => eq_refl) Hauth Hpos Hunits Hvalid eq_refl).
  destruct (run (claim form) form w) as [[out st'] w'].
  intros (H1 & H2 & _ & H4 & H5 & H6 & _).
  repeat split; assumption.
Defined.

(** A positive balance whose string [parseUnits] does not take: with the
    user signed in, the address valid, the chain Base and every call going
    through, the balance 0.0000001 read back is positive, its string is
    ["1e-7"], and the invocation ends in the [catch] block with no mint call
    and both balances as they were. *)
Lemma tiny_balance_is_not_minted :
  let w := phone "0.0000001" "0" no_faults in
  let b := parseFloat "0.0000001" in
  session w = Some alice /\
  calls_succeed w 8 /\
  authoritative (user_id alice) w = Some (Some b) /\
  gt b zero = true /\
  Wallet.validateWalletAddress (walletAddress form) = true /\
  cryptoChain form = "Base" /\
  toString b = "1e-7" /\
  let '(out, st', w') := run (claim form) form w in
  (exists e, out = Returned (ClaimFailed e) /\ code e = "INVALID_ARGUMENT") /\
  success st' = None /\
  Forall (fun c => snd c = true) (since w w') /\
  mint_calls (since w w') = [] /\
  minted w' = [] /\
  p_token_balance <$> (profiles w' !! "u1") = Some (Some b) /\
  storage w' !! "captur_token_balance" = Some "0.0000001".
Proof.
  intros w b.
  split; [reflexivity|]. split; [intros i _; reflexivity|].
  split; [vm_compute; reflexivity|]. split; [vm_compute; reflexivity|].
  split; [vm_compute; reflexivity|]. split; [reflexivity|].
  split; [vm_compute; reflexivity|].
  assert (E : run (claim form) form w
              = (Returned (ClaimFailed (Ethers.invalid_argument "invalid decimal value")),
                 snd (fst (run (claim form) form w)), snd (run (claim form) form w)))
    by (vm_compute; reflexivity).
  rewrite E.
  split; [eexists; split; reflexivity|]. split; [vm_compute; reflexivity|].
  split; [vm_compute; repeat constructor|].
  split; [vm_compute; reflexivity|]. split; [vm_compute; reflexivity|].
  split; vm_compute; reflexivity.
Qed.

(** ** Nothing to claim *)

(** C3.  When the authoritative balance read back is [NULL] or at most 0,
    the invocation ends with "No balance to claim.": it makes no mint call
    and writes zero neither to the remote nor to the local balance. *)
Theorem claim_nothing_to_claim (st : State) (w : World) (u : User) (bal : option number) :
  session w = Some u ->
  calls_succeed w 3 ->
  authoritative (user_id u) w = Some bal ->
  (bal = None \/ exists b, bal = Some b /\ le b zero = true) ->
  let '(out, st', w') := run (claim st) st w in
  out = Returned NothingToClaim /\
  error st' = Some "No balance to claim." /\
  success st' = None /\
  since w w' =
    [(EGetUser, true); (EGetItem "captur_token_balance", true);
     (ESelectBalance (user_id u), true)] /\
  mint_calls (since w w') = [] /\
  Forall (fun c => ~ zero_write (fst c)) (since w w') /\
  minted w' = minted w /\
  profiles w' = profiles w /\
  storage w' = storage w.
Proof.
  intros Hs Hf Hb Hbal.
  assert (Hn : nothing_to_claim bal = true).
  { destruct Hbal as [->|(b & -> & Hle)]; [reflexivity | apply le_zero_nothing; auto]. }
  unfold authoritative, synced, local_balance in Hb.
  unfold claim. simpl.
  call_ok Hf. rewrite Hs. simpl.
  call_ok Hf. simpl.
  set (local := local_balance_of (storage w !! "captur_token_balance")) in *.
  destruct (gt local zero) eqn:Hl; simpl.
  - exfalso.
    rewrite lookup_alter_eq in Hb.
    destruct (profiles w !! user_id u) as [row|]; [|discriminate].
    simpl in Hb. injection Hb as <-.
    destruct Hbal as [Hnone|(b & Hsome & Hle)]; [discriminate|].
    injection Hsome as <-. rewrite (gt_zero_not_le _ Hl) in Hle. discriminate.
  - call_ok Hf. simpl.
    destruct (profiles w !! user_id u) as [row|] eqn:Hrow; [|discriminate].
    simpl in Hb. injection Hb as Hb. simpl. rewrite Hb, Hn. simpl.
    show_log.
    repeat split; try reflexivity.
    each_call; simpl; intros [[? H]|[? H]]; discriminate.
Qed.

Lemma claim_nothing_to_claim_witness :
  let w := phone "0" "0" no_faults in
  let '(out, st', w') := run (claim form) form w in
  out = Returned NothingToClaim /\
  error st' = Some "No balance to claim." /\
  mint_calls (since w w') = [] /\
  minted w' = [] /\
  storage w' = store "0".
Proof.
  intros w.
  assert (Hauth : authoritative (user_id alice) w = Some (Some (parseFloat "0")))
    by (vm_compute; reflexivity).
  assert (Hle : le (parseFloat "0") zero = true) by (vm_compute; reflexivity).
  generalize (claim_nothing_to_claim form w alice (Some (parseFloat "0"))
                eq_refl (fun i _ => eq_refl) Hauth
                (or_intror (ex_intro _ (parseFloat "0") (conj eq_refl Hle)))).
  destruct (run (claim form) form w) as [[out st'] w'].
  intros (H1 & H2 & _ & _ & H5 & _ & H7 & _ & H9).
  repeat split; assumption.
Defined.

(** ** The sync-up step *)

(** C4.  The sync-up step writes to the remote profile only when the local
    balance is positive, and the write replaces the remote balance by the
    local one whatever it was before; with a local balance that is not
    positive the third call is already the read, and the table is as it
    was.  Apart from the sync-up step the only write to the remote balance
    in an invocation is the reset to zero. *)
Theorem sync_up_overwrites (st : State) (w : World) (u : User) :
  session w = Some u ->
  calls_succeed w 3 ->
  let '(_, _, w3) := run_calls 3 (claim st) st w in
  let '(_, _, w') := run (claim st) st w in
  (gt (local_balance w) zero = true ->
     since w w3 =
       [(EGetUser, true); (EGetItem "captur_token_balance", true);
        (EUpdateBalance (user_id u) (local_balance w), true)] /\
     profiles w3 = alter (set_token_balance (local_balance w)) (user_id u) (profiles w) /\
     forall row, profiles w !! user_id u = Some row ->
       p_token_balance <$> (profiles w3 !! user_id u) = Some (Some (local_balance w))) /\
  (gt (local_balance w) zero = false ->
     since w w3 =
       [(EGetUser, true); (EGetItem "captur_token_balance", true);
        (ESelectBalance (user_id u), bool_decide (is_Some (profiles w !! user_id u)))] /\
     profiles w3 = profiles w) /\
  Forall (fun c => forall id v, fst c = EUpdateBalance id v ->
            v = zero \/ (gt (local_balance w) zero = true /\ v = local_balance w))
         (since w w').
Proof.
  intros Hs Hf. unfold local_balance.
  set (local := local_balance_of (storage w !! "captur_token_balance")).
  assert (H3 :
    let '(_, _, w3) := run_calls 3 (claim st) st w in
    (gt local zero = true ->
       since w w3 =
         [(EGetUser, true); (EGetItem "captur_token_balance", true);
          (EUpdateBalance (user_id u) local, true)] /\
       profiles w3 = alter (set_token_balance local) (user_id u) (profiles w) /\
       forall row, profiles w !! user_id u = Some row ->
         p_token_balance <$> (profiles w3 !! user_id u) = Some (Some local)) /\
    (gt local zero = false ->
       since w w3 =
         [(EGetUser, true); (EGetItem "captur_token_balance", true);
          (ESelectBalance (user_id u), bool_decide (is_Some (profiles w !! user_id u)))] /\
       profiles w3 = profiles w)).
  { unfold claim. simpl.
    call_ok Hf. rewrite Hs. simpl.
    call_ok Hf. simpl. fold local.
    destruct (gt local zero) eqn:Hl; simpl.
    - call_ok Hf. simpl.
      show_log. split; [|discriminate]. intros _.
      repeat split; try reflexivity.
      intros row Hrow. rewrite lookup_alter_eq, Hrow. reflexivity.
    - call_ok Hf. simpl.
      destruct (profiles w !! user_id u) as [row|] eqn:Hrow; simpl;
        [destruct (nothing_to_claim (p_token_balance row)); simpl;
           [|destruct (negb (cryptoChain st =? "Base")); simpl;
             [|unfold mintTokensToUser;
               destruct (Ethers.parseUnits (balance_toString (p_token_balance row)) 18);
               simpl]] |];
        show_log; (split; [discriminate|]); intros _; split; reflexivity. }
  destruct (run_calls 3 (claim st) st w) as [[p3 st3] w3].
  destruct H3 as [Hpos Hneg].
  assert (Hall :
    let '(_, _, w') := run (claim st) st w in
    Forall (fun c => forall id v, fst c = EUpdateBalance id v ->
              v = zero \/ (gt local zero = true /\ v = local))
           (since w w')).
  { pose proof (claim_paths st w) as Hp.
    destruct (run (claim st) st w) as [[out st'] w'].
    fold (local_balance w) in local. subst local.
    destruct (gt (local_balance w) zero) eqn:Hl;
      inversion Hp; subst; try congruence;
      unfold after_local_reset, after_reset, after_wait, after_mint, after_read,
             after_sync, after_local, after_user, balance_key;
      rewrite ?Hl; show_log; each_call; simpl; intros id v H; try discriminate;
      injection H as _ <-; auto. }
  destruct (run (claim st) st w) as [[out st'] w'].
  auto.
Qed.

Lemma sync_up_overwrites_witness :
  let w := phone "12.34" "5" no_faults in
  let '(_, _, w3) := run_calls 3 (claim form) form w in
  gt (local_balance w) zero = true /\
  since w w3 =
    [(EGetUser, true); (EGetItem "captur_token_balance", true);
     (EUpdateBalance "u1" (local_balance w), true)] /\
  p_token_balance <$> (profiles w !! "u1") = Some (Some (parseFloat "5")) /\
  p_token_balance <$> (profiles w3 !! "u1") = Some (Some (parseFloat "12.34")).
Proof.
  intros w.
  assert (Hpos : gt (local_balance w) zero = true) by (vm_compute; reflexivity).
  generalize (sync_up_overwrites form w alice eq_refl (fun i _ => eq_refl)).
  destruct (run_calls 3 (claim form) form w) as [[p3 st3] w3].
  destruct (run (claim form) form w) as [[out st'] w'].
  intros ((H1 & _ & H3) & _ & _) ; [exact Hpos|].
  split; [exact Hpos|]. split; [exact H1|]. split; [reflexivity|].
  exact (H3 (row "5") eq_refl).
Defined.

(** ** A failed claim *)

Ltac no_zero_writes Hl :=
  each_call; simpl; intros [[? H]|[? H]]; try discriminate;
  injection H as _ H; apply (gt_zero_not_zero _ Hl); congruence.

Ltac table_synced Hl :=
  match goal with
  | |- ?x = ?x \/ _ => left; reflexivity
  | |- _ =>
      right; eexists; split; [eassumption|];
      unfold synced; rewrite Hl; reflexivity
  end.

Ltac failure_leaf Hl :=
  unfold after_local_reset, after_reset, after_wait, after_mint, after_read, after_sync,
         after_local, after_user, caught, returned_early, claimed, pressed, balance_key;
  rewrite ?Hl;
  show_log; simpl; intros Hne;
  first
    [ exfalso; apply Hne; reflexivity
    | split; [reflexivity|]; split; [reflexivity|]; split; [discriminate|];
      split; [reflexivity|];
      split; [unfold failure_is_last; simpl; each_call; reflexivity|];
      split; intros Hm; simpl in Hm;
      [ first [ discriminate Hm
              | split; [reflexivity|];
                split; [no_zero_writes Hl | table_synced Hl] ]
      | first [ discriminate Hm
              | eexists; split; [eassumption|];
                unfold synced; rewrite Hl; reflexivity ] ] ].

(** C5.  An invocation that does not end in a claim leaves the local
    balance as it was and reports an error; the call that failed is the
    last call it made.  As long as no mint was confirmed (no user, a failed
    local read, sync write or remote read, nothing to claim, an unsupported
    chain, a failed mint) no zero is written to either balance and nothing
    is minted, and the profiles table is as it was or as the sync-up step
    left it; after a failed mint it is as the sync-up step left it. *)
Theorem claim_failure_keeps_balances (st : State) (w : World) :
  fst (fst (run (claim st) st w)) <> Returned Claimed ->
  let '(_, st', w') := run (claim st) st w in
  storage w' = storage w /\
  success st' = None /\
  error st' <> None /\
  claiming st' = false /\
  failure_is_last (since w w') /\
  (mint_confirmed (since w w') = false ->
     minted w' = minted w /\
     Forall (fun c => ~ zero_write (fst c)) (since w w') /\
     (profiles w' = profiles w \/
      exists u, session w = Some u /\ profiles w' = synced (user_id u) w)) /\
  (mint_failed (since w w') = true ->
     exists u, session w = Some u /\ profiles w' = synced (user_id u) w).
Proof.
  intros Hne. pose proof (claim_paths st w) as Hp.
  destruct (run (claim st) st w) as [[out st'] w'].
  cbn [fst] in Hne. revert Hne.
  destruct (gt (local_balance w) zero) eqn:Hl;
    inversion Hp; subst; try congruence; failure_leaf Hl.
Qed.

Lemma claim_failure_keeps_balances_witness :
  let w := phone "12.34" "5" (fault_at 4 "execution reverted") in
  let '(_, st', w') := run (claim form) form w in
  storage w' = store "12.34" /\
  error st' = Some "execution reverted" /\
  minted w' = [] /\
  p_token_balance <$> (profiles w' !! "u1") = Some (Some (parseFloat "12.34")).
Proof.
  intros w.
  assert (Hne : fst (fst (run (claim form) form w)) <> Returned Claimed)
    by (vm_compute; discriminate).
  generalize (claim_failure_keeps_balances form w Hne).
  assert (Hrow : p_token_balance <$> (profiles (snd (run (claim form) form w)) !! "u1")
                 = Some (Some (parseFloat "12.34"))) by (vm_compute; reflexivity).
  assert (Herr : error (snd (fst (run (claim form) form w))) = Some "execution reverted")
    by (vm_compute; reflexivity).
  assert (Hconf : mint_confirmed (since w (snd (run (claim form) form w))) = false)
    by (vm_compute; reflexivity).
  destruct (run (claim form) form w) as [[out st'] w'].
  intros (Hst & _ & _ & _ & _ & Hm & _).
  destruct (Hm Hconf) as (Hmint & _).
  repeat split; assumption.
Defined.

End ClaimFacts.
(* ===================================================================== *)
(** * The profile screen in a running app: what always holds *)
(* ===================================================================== *)

Module AppFacts.
Import JsNumber Backend Async MintAndClaim EditProfile App Behaviour Scenario.

#[local] Arguments parseFloat : simpl never.
#[local] Arguments toString : simpl never.
#[local] Arguments gt : simpl never.
#[local] Arguments le : simpl never.
#[local] Arguments nothing_to_claim : simpl never.
#[local] Arguments local_balance_of : simpl never.
#[local] Arguments balance_toString : simpl never.
#[local] Arguments JsString.or_else : simpl never.
#[local] Arguments JsString.trim : simpl never.
#[local] Arguments JsString.truthy : simpl never.
#[local] Arguments Wallet.validateWalletAddress : simpl never.

Section Always.
Context {S : Type} (P : (S -> S) -> Prop).

Lemma always_weaken {A : Type} (Q Q' : A -> Prop) (p : Prog S A) :
  (forall a, Q a -> Q' a) -> always P Q p -> always P Q' p.
Proof. intros HQ. induction 1; constructor; auto. Qed.

Lemma always_bind {A B : Type} (Q : A -> Prop) (R : B -> Prop)
    (p : Prog S A) (f : A -> Prog S B) :
  always P Q p -> (forall a, Q a -> always P R (f a)) -> always P R (bind p f).
Proof. intros Hp Hf. induction Hp; simpl; try constructor; auto. Qed.

Lemma always_catch {A : Type} (Q : A -> Prop) (p : Prog S A) (h : JsError -> Prog S A) :
  always P Q p -> (forall e, always P Q (h e)) -> always P Q (catch p h).
Proof. intros Hp Hh. induction Hp; simpl; try constructor; auto. Qed.

Lemma always_finally {A : Type} (Q : A -> Prop) (p : Prog S A) (fin : Prog S unit) :
  always P Q p -> always P anything fin -> always P Q (finally p fin).
Proof.
  intros Hp Hfin. induction Hp; simpl; try constructor; auto.
  - apply always_bind with (Q := anything); auto. intros; constructor; auto.
  - apply always_bind with (Q := anything); auto. intros; constructor.
Qed.

Lemma always_set (f : S -> S) : P f -> always P anything (set f).
Proof. intros Hf. repeat constructor; auto. Qed.

Lemma always_await_call {X : Type} (c : Call X) : always P (@anything X) (await c).
Proof. repeat constructor. Qed.

Lemma always_await_settled {X : Type} (c : Call (Settled X)) :
  always P (@anything X) (await_settled c).
Proof. constructor. intros [x|e]; constructor. exact I. Qed.

(** What is left after the synchronous part behaves as well, and the
    state went through setters satisfying [P] only. *)
Lemma always_settle {A : Type} (Q : A -> Prop) (I : S -> Prop) (p : Prog S A) :
  (forall f s, P f -> I s -> I (f s)) ->
  always P Q p -> forall s, I s ->
  always P Q (fst (settle p s)) /\ I (snd (settle p s)).
Proof.
  intros HI. induction 1; intros s Hs; simpl; try (split; [constructor|]; auto; fail).
  apply IHalways. eauto.
Qed.
End Always.


(** ** The handlers of the profile screen *)

Ltac quiet_setter :=
  let s := fresh "s" in
  intros s; split; [intros ?|]; simpl; auto.

(** Goes through a handler by its structure. *)
Ltac behaves :=
  repeat first
    [ apply always_finally
    | apply always_catch
    | apply always_set; quiet_setter
    | apply always_await_call
    | apply always_await_settled
    | apply always_throw
    | apply always_ret; first [exact I | discriminate]
    | apply always_update; [quiet_setter|]
    | apply always_bind with (Q := anything); [|intros ? _]
    | match goal with
      | |- always _ _ (match ?x with _ => _ end) => destruct x
      | |- forall _, _ => intros ?
      end ].

(** Goes through a handler whose [bind]s are computed away. *)
Ltac walk :=
  repeat (simpl;
          first
            [ apply always_ret; first [exact I | discriminate]
            | apply always_throw
            | apply always_update; [quiet_setter|]
            | apply always_await; intros ?
            | match goal with
              | |- always _ _ ?p =>
                  match p with
                  | context [match ?x with _ => _ end] => destruct x
                  end
              end ]).

Lemma loadLocationSharingState_quiet : always quiet anything loadLocationSharingState.
Proof. unfold loadLocationSharingState. behaves. Qed.

Lemma getProfile_quiet : always quiet anything getProfile.
Proof. unfold getProfile. behaves. Qed.

Lemma updateProfile_quiet now st : always quiet anything (updateProfile now st).
Proof. unfold updateProfile. behaves. Qed.

Lemma mintTokensToUser_quiet to amount :
  always quiet anything (@mintTokensToUser State to amount).
Proof. unfold mintTokensToUser. behaves. Qed.

(** [try { p } catch { one setter; return } finally { setClaiming(false) }]
    is a claim in flight when the setters of [p] are quiet. *)
Lemma busy_guarded {A : Type} (Q : A -> Prop) (p : Prog State A)
    (g : JsError -> State -> State) (r : JsError -> A) :
  always quiet Q p ->
  (forall e, quiet (g e) /\ Q (r e)) ->
  busy Q (finally (catch p (fun e => bind (set (g e)) (fun _ => Ret (r e))))
                  (set (setClaiming false))).
Proof.
  intros Hp Hh. induction Hp; simpl.
  - apply busy_release; auto. quiet_setter.
  - destruct (Hh e). apply busy_update; auto. apply busy_release; auto. quiet_setter.
  - apply busy_update; auto.
  - apply busy_await; auto.
Qed.

Lemma claim_started (st s : State) :
  cryptoChain st = "Base" ->
  exists p,
    settle (claim st) s = (p, setSuccess None (setError None (setClaiming true s))) /\
    finished p = false /\
    busy not_unsupported p.
Proof.
  intros Hchain. unfold claim, mintTokensToUser. simpl. eexists. split; [reflexivity|].
  split; [reflexivity|].
  apply busy_await. intros user.
  apply (busy_guarded not_unsupported _
           (fun err => setError (Some (JsString.or_else (message err) "Claim failed.")))
           ClaimFailed).
  2:{ intros e. split; [quiet_setter | discriminate]. }
  rewrite Hchain. walk.
Qed.


(** ** Calls to the contract *)

Lemma mint_bound_weaken {S A : Type} (p : Prog S A) (n m : nat) :
  n <= m -> mint_bound p n -> mint_bound p m.
Proof.
  revert n m. induction p as [a|e|f k IH|X c k IH]; intros n m Hnm; simpl; auto.
  - apply IH; auto.
  - destruct (event_of c); eauto.
    destruct n; [tauto|]. destruct m; [lia|].
    intros H x. apply (IH x n); [lia|auto].
Qed.

Lemma mint_bound_settle {S A : Type} (p : Prog S A) (n : nat) (s : S) :
  mint_bound p n -> mint_bound (fst (settle p s)) n.
Proof.
  revert s. induction p as [a|e|f k IH|X c k IH]; intros s Hp; simpl; auto.
Qed.

Lemma mint_bound_resume {S A : Type} (p : Prog S A) (n : nat) (s : S) (w : World) :
  mint_bound p n -> mint_bound (fst (fst (resume p s w))) n.
Proof.
  destruct p as [a|e|f k|X c k]; simpl; auto.
  - intros H. apply (mint_bound_settle (Update f k)). exact H.
  - intros H. destruct (exec c w) as [x w']. simpl. apply mint_bound_settle.
    destruct (event_of c); auto.
    destruct n; [tauto|]. apply mint_bound_weaken with n; auto.
Qed.

(** Goes through every way a handler may go on. *)
Ltac bounded :=
  repeat (simpl;
          first
            [ exact I
            | intros ?
            | match goal with
              | |- context [match ?x with _ => _ end] => destruct x
              end ]).

Lemma loadLocationSharingState_no_mint : mint_bound loadLocationSharingState 0.
Proof. unfold loadLocationSharingState. bounded. Qed.

Lemma getProfile_no_mint : mint_bound getProfile 0.
Proof. unfold getProfile. bounded. Qed.

Lemma updateProfile_no_mint now st : mint_bound (updateProfile now st) 0.
Proof. unfold updateProfile. bounded. Qed.

Lemma claim_mint_bound st : mint_bound (claim st) 1.
Proof. unfold claim, mintTokensToUser. bounded. Qed.


(** ** Tasks going on *)

Lemma quiet_settle {A : Type} (Q : A -> Prop) (p : Prog State A) (s : State) :
  always quiet Q p -> cryptoChain s = "Base" ->
  always quiet Q (fst (settle p s)) /\
  cryptoChain (snd (settle p s)) = "Base" /\
  claiming (snd (settle p s)) = claiming s.
Proof.
  intros Hp Hs.
  destruct (always_settle quiet Q
              (fun s' => cryptoChain s' = "Base" /\ claiming s' = claiming s) p) with (s := s)
    as (H1 & H2 & H3); auto.
  intros f s0 Hf [Hc Hcl]. destruct (Hf s0) as [Hf1 Hf2]. split; auto. congruence.
Qed.

Lemma quiet_resume {A : Type} (Q : A -> Prop) (p : Prog State A) (s : State) (w : World) :
  always quiet Q p -> cryptoChain s = "Base" ->
  always quiet Q (fst (fst (resume p s w))) /\
  cryptoChain (snd (fst (resume p s w))) = "Base" /\
  claiming (snd (fst (resume p s w))) = claiming s.
Proof.
  intros Hp Hs. destruct Hp; simpl; try (repeat split; auto; constructor; auto; fail).
  - apply (quiet_settle Q (Update f k) s); auto. constructor; auto.
  - destruct (exec c w) as [x w']. simpl. apply quiet_settle; auto.
Qed.

Lemma busy_settle {A : Type} (Q : A -> Prop) (p : Prog State A) :
  busy Q p -> forall s s0, cryptoChain s = "Base" -> claiming s = claiming s0 ->
  goes_on_or_releases Q s0 (settle p s).
Proof.
  induction 1 as [X c k Hk IH|f k Hf Hk IH|f a Hf Ha]; intros s s0 Hs Hc; simpl.
  - split; auto. left. repeat split; auto. constructor; auto.
  - destruct (Hf s) as [Hf1 Hf2]. apply IH; auto. congruence.
  - destruct (Hf s) as [Hf1 Hf2]. split; simpl; auto.
Qed.

Lemma busy_resume {A : Type} (Q : A -> Prop) (p : Prog State A) (s : State) (w : World) :
  busy Q p -> cryptoChain s = "Base" ->
  goes_on_or_releases Q s (fst (resume p s w)).
Proof.
  intros Hp Hs. destruct Hp as [X c k Hk|f k Hf Hk|f a Hf Ha]; simpl.
  - destruct (exec c w) as [x w']. simpl. apply busy_settle; auto.
  - apply (busy_settle Q (Update f k)); auto. apply busy_update; auto.
  - apply (busy_settle Q (Update f (Ret a))); auto. apply busy_release; auto.
Qed.

(** ** Counting the claims in flight *)

Lemma count_cons t ts : count (t :: ts) = weight t + count ts.
Proof.
  unfold count, weight. rewrite filter_cons.
  case_decide as E; [rewrite E; reflexivity|].
  destruct (is_claim t); [congruence | reflexivity].
Qed.

Lemma count_app ts1 ts2 : count (ts1 ++ ts2) = count ts1 + count ts2.
Proof. unfold count. rewrite filter_app, length_app. reflexivity. Qed.

Lemma count_lookup ts j t :
  ts !! j = Some t -> count ts = count (take j ts) + weight t + count (drop (S j) ts).
Proof.
  intros H. rewrite <- (take_drop_middle ts j t H) at 1.
  rewrite count_app, count_cons. lia.
Qed.

Lemma count_insert ts j t t' :
  ts !! j = Some t -> count (<[j := t']> ts) + weight t = count ts + weight t'.
Proof.
  intros H. rewrite (count_lookup ts j t H).
  rewrite insert_take_drop by (eapply lookup_lt_Some; eauto).
  rewrite count_app, count_cons. lia.
Qed.

Lemma count_delete ts j t :
  ts !! j = Some t -> count (delete j ts) + weight t = count ts.
Proof.
  intros H. rewrite (count_lookup ts j t H).
  rewrite delete_take_drop, count_app. lia.
Qed.


(** ** One action keeps the screen well-behaved *)

Lemma screen_ok_same_flags (s s' : State) (ts : list Task) :
  screen_ok s ts -> cryptoChain s' = cryptoChain s -> claiming s' = claiming s ->
  screen_ok s' ts.
Proof. intros (Hc & Hts & Hn) H1 H2. unfold screen_ok. rewrite H1, H2. auto. Qed.

Lemma start_quiet {A : Type} (mk : Prog State A -> Task) (p : Prog State A)
    (s : State) (ts : list Task) :
  (forall q, always quiet anything q -> mint_bound q 0 -> task_ok (mk q)) ->
  (forall q, is_claim (mk q) = false) ->
  always quiet anything p -> mint_bound p 0 -> screen_ok s ts ->
  screen_ok (fst (start mk p s ts)) (snd (start mk p s ts)).
Proof.
  intros Hmk Hkind Hp Hm (Hc & Hts & Hn). unfold start.
  destruct (quiet_settle anything p s Hp Hc) as (Hq & Hc' & Hcl).
  pose proof (mint_bound_settle p 0 s Hm) as Hm'.
  destruct (settle p s) as [p' s']. simpl in *.
  unfold screen_ok. rewrite Hcl. split; [auto|].
  destruct (finished p'); simpl; [auto|].
  split.
  - apply Forall_app. split; auto.
  - fold (count (ts ++ [mk p'])). rewrite count_app, count_cons. unfold weight.
    rewrite Hkind. unfold count at 2. simpl. fold (count ts). unfold count. lia.
Qed.

Lemma claim_enabled_idle (s : State) : claim_enabled s = true -> claiming s = false.
Proof.
  unfold claim_enabled. intros H.
  apply andb_true_iff in H as [_ H]. apply negb_true_iff in H. exact H.
Qed.

Lemma act_ok (a : Action) (s : State) (ts : list Task) (w : World) :
  screen_ok s ts ->
  screen_ok (fst (fst (act a s ts w))) (snd (fst (act a s ts w))).
Proof.
  intros Hok. pose proof Hok as (Hc & Hts & Hn).
  destruct a; unfold act; try (destruct (loading s); cbn [fst snd]; [exact Hok|]).
  - apply (screen_ok_same_flags s); auto.
  - apply (screen_ok_same_flags s); auto.
  - destruct (in_list v ageRanges); [apply (screen_ok_same_flags s)|]; auto.
  - destruct (in_list v genders); [apply (screen_ok_same_flags s)|]; auto.
  - destruct (in_list v commuteModes); [apply (screen_ok_same_flags s)|]; auto.
  - apply (screen_ok_same_flags s); auto.
  - (* PressClaim *)
    destruct (claim_enabled s) eqn:He; cbn [fst snd]; [|exact Hok].
    destruct (claim_started s s Hc) as (p & Hp & Hfin & Hbusy).
    pose proof (mint_bound_settle (claim s) 1 s (claim_mint_bound s)) as Hm.
    unfold start. rewrite Hp in Hm |- *. rewrite Hfin. cbn [fst snd] in Hm |- *.
    unfold screen_ok. simpl. split; [auto|]. split.
    + apply Forall_app. split; auto. repeat constructor; auto.
    + fold (count (ts ++ [TClaim p])). rewrite count_app. unfold count at 2. simpl.
      fold (count ts). unfold count. rewrite Hn, (claim_enabled_idle s He). reflexivity.
  - (* PressUpdate *)
    destruct (update_enabled s); cbn [fst snd]; [|exact Hok].
    pose proof (start_quiet TSave (updateProfile now s) s ts) as H.
    destruct (start TSave (updateProfile now s) s ts) as [s' ts']. simpl in *.
    apply H; [intros q Hq Hm; split; assumption | reflexivity
             | apply updateProfile_quiet | apply updateProfile_no_mint | exact Hok].
  - (* Answer *)
    destruct (ts !! j) as [t|] eqn:Hj; cbn [fst snd]; [|exact Hok].
    pose proof (Forall_lookup_1 _ _ _ _ Hts Hj) as Ht.
    destruct t as [p|p|p]; simpl in Ht |- *; destruct Ht as [Ht Hm];
      pose proof (mint_bound_resume p _ s w Hm) as Hm'.
    + pose proof (busy_resume not_unsupported p s w Ht Hc) as (Hc' & Hcase).
      destruct (resume p s w) as [[p' s'] w']. simpl in *.
      pose proof (count_lookup ts j _ Hj) as Hcount. unfold weight in Hcount. simpl in Hcount.
      assert (Hbusy : claiming s = true).
      { destruct (claiming s); auto. unfold count in Hcount. lia. }
      destruct Hcase as [(Hf & Hb & Hcl)|(Hf & Hcl)]; rewrite Hf; simpl;
        unfold screen_ok; rewrite Hcl; (split; [auto|]); split.
      * apply Forall_insert; simpl; auto.
      * pose proof (count_insert ts j _ (TClaim p') Hj) as Hi. unfold weight, count in Hi.
        simpl in Hi. lia.
      * apply Forall_delete; auto.
      * pose proof (count_delete ts j _ Hj) as Hd. unfold weight, count in Hd.
        simpl in Hd. rewrite Hbusy in Hn. lia.
    + pose proof (quiet_resume anything p s w Ht Hc) as (Hq & Hc' & Hcl).
      destruct (resume p s w) as [[p' s'] w']. simpl in *.
      unfold screen_ok. rewrite Hcl. split; [auto|].
      destruct (finished p'); simpl; split.
      * apply Forall_delete; auto.
      * pose proof (count_delete ts j _ Hj) as Hd. unfold weight, count in Hd.
        simpl in Hd. lia.
      * apply Forall_insert; simpl; auto.
      * pose proof (count_insert ts j _ (TSave p') Hj) as Hi. unfold weight, count in Hi.
        simpl in Hi. lia.
    + pose proof (quiet_resume anything p s w Ht Hc) as (Hq & Hc' & Hcl).
      destruct (resume p s w) as [[p' s'] w']. simpl in *.
      unfold screen_ok. rewrite Hcl. split; [auto|].
      destruct (finished p'); simpl; split.
      * apply Forall_delete; auto.
      * pose proof (count_delete ts j _ Hj) as Hd. unfold weight, count in Hd.
        simpl in Hd. lia.
      * apply Forall_insert; simpl; auto.
      * pose proof (count_insert ts j _ (TLoad p') Hj) as Hi. unfold weight, count in Hi.
        simpl in Hi. lia.
Qed.


(** ** Every reachable system is made of well-behaved screens *)

Lemma initial_ok : screen_ok initial [].
Proof. repeat split. constructor. Qed.

Lemma mount_ok (user : option User) (store : gmap string string) :
  device_ok (mount user store).
Proof.
  unfold device_ok, mount.
  pose proof (start_quiet TLoad loadLocationSharingState initial []) as H1.
  destruct (start TLoad loadLocationSharingState initial []) as [s1 ts1].
  pose proof (start_quiet TLoad getProfile s1 ts1) as H2.
  destruct (start TLoad getProfile s1 ts1) as [s2 ts2]. simpl in *.
  apply H2; [intros q Hq Hm; split; assumption | reflexivity
            | apply getProfile_quiet | apply getProfile_no_mint |].
  apply H1; [intros q Hq Hm; split; assumption | reflexivity
            | apply loadLocationSharingState_quiet
            | apply loadLocationSharingState_no_mint | apply initial_ok].
Qed.

Lemma reachable_ok (sys : System) : reachable sys -> Forall device_ok (devices sys).
Proof.
  induction 1 as [sessions table ledger log flt|sys i a Hreach IH]; simpl.
  - induction sessions as [|[user store] sessions IH]; simpl; constructor; auto.
    apply mount_ok.
  - unfold system_act. destruct (devices sys !! i) as [d|] eqn:Hi; [|exact IH].
    pose proof (act_ok a (d_state d) (d_tasks d) (world_of d sys)
                  (Forall_lookup_1 _ _ _ _ IH Hi)) as Hok.
    destruct (act a (d_state d) (d_tasks d) (world_of d sys)) as [[s' ts'] w'].
    simpl in *. apply Forall_insert; auto.
Qed.

Lemma reachable_schedule (l : list (nat * Action)) (sys : System) :
  reachable sys -> reachable (run_schedule l sys).
Proof.
  revert sys. induction l as [|[i a] l IH]; intros sys H; simpl; auto.
  apply IH. apply reach_act. exact H.
Qed.

Lemma reachable_screen (sys : System) (i : nat) (d : Device) :
  reachable sys -> devices sys !! i = Some d -> screen_ok (d_state d) (d_tasks d).
Proof. intros H Hi. exact (Forall_lookup_1 _ _ _ _ (reachable_ok sys H) Hi). Qed.

(** ** What an invocation may return *)

Lemma may_return_settle {S A : Type} (p : Prog S A) (s : S) (a : A) :
  may_return p a -> may_return (fst (settle p s)) a.
Proof.
  revert s. induction p as [b|e|f k IH|X c k IH]; intros s Hp; simpl; auto.
Qed.

Lemma run_may_return {S A : Type} (p : Prog S A) (s : S) (w : World) (a : A) :
  fst (fst (run p s w)) = Returned a -> may_return p a.
Proof.
  revert s w. induction p as [b|e|f k IH|X c k IH]; intros s w; simpl.
  - congruence.
  - discriminate.
  - apply IH.
  - destruct (exec c w) as [x w'] eqn:E. intros Hr. exists x. eapply IH; eauto.
Qed.

Lemma busy_may_return {A : Type} (Q : A -> Prop) (p : Prog State A) (a : A) :
  busy Q p -> may_return p a -> Q a.
Proof.
  induction 1 as [X c k Hk IH|f k Hf Hk IH|f b Hf Hb]; simpl.
  - intros [x Hx]. eauto.
  - auto.
  - intros <-. exact Hb.
Qed.

Lemma claim_never_unsupported (st : State) :
  cryptoChain st = "Base" -> ~ may_return (claim st) UnsupportedChain.
Proof.
  intros Hc Hr. destruct (claim_started st st Hc) as (p & Hp & _ & Hbusy).
  apply (may_return_settle _ st) in Hr. rewrite Hp in Hr.
  exact (busy_may_return _ _ _ Hbusy Hr eq_refl).
Qed.

(** ** The two devices of the scenario *)

Lemma both_claiming_reachable : reachable both_claiming.
Proof.
  apply reachable_schedule.
  exact (reach_mount [(Some alice, store "12.34"); (Some alice, ∅)]
                     {[ "u1" := row "0" ]} [] [] no_faults).
Qed.

Lemma first_device_lookup : devices both_claiming !! 0 = Some first_device.
Proof.
  unfold first_device. destruct (devices both_claiming !! 0) eqn:E; [reflexivity|].
  apply lookup_ge_None in E. vm_compute in E. lia.
Qed.

(** ** The chain *)

(** C10.  In every reachable state of a profile screen the chain is
    ["Base"]; hence no claim, whether it is started in that state or is
    already in flight, returns through the unsupported-chain branch,
    whatever its calls answer and however it is interleaved with other
    work. *)
Theorem chain_is_always_base (sys : System) (i : nat) (d : Device) :
  reachable sys -> devices sys !! i = Some d ->
  cryptoChain (d_state d) = "Base" /\
  ~ may_return (claim (d_state d)) UnsupportedChain /\
  (forall w, fst (fst (run (claim (d_state d)) (d_state d) w))
             <> Returned UnsupportedChain) /\
  (forall j p, d_tasks d !! j = Some (TClaim p) -> ~ may_return p UnsupportedChain).
Proof.
  intros Hreach Hi. destruct (reachable_screen sys i d Hreach Hi) as (Hc & Hts & _).
  split; [exact Hc|]. split; [exact (claim_never_unsupported _ Hc)|]. split.
  - intros w Hr. exact (claim_never_unsupported _ Hc (run_may_return _ _ _ _ Hr)).
  - intros j p Hj Hr.
    destruct (Forall_lookup_1 _ _ _ _ Hts Hj) as [Hbusy _].
    exact (busy_may_return _ _ _ Hbusy Hr eq_refl).
Qed.

Lemma chain_is_always_base_witness :
  cryptoChain (d_state first_device) = "Base" /\
  ~ may_return (claim (d_state first_device)) UnsupportedChain /\
  (forall p, d_tasks first_device !! 0 = Some (TClaim p) ->
             ~ may_return p UnsupportedChain).
Proof.
  destruct (chain_is_always_base both_claiming 0 first_device
              both_claiming_reachable first_device_lookup) as (H1 & H2 & _ & H4).
  split; [exact H1|]. split; [exact H2|]. exact (H4 0).
Defined.

(** ** The busy flag *)

Lemma press_claim_while_claiming (s : State) (ts : list Task) (w : World) :
  claiming s = true -> act PressClaim s ts w = (s, ts, w).
Proof.
  intros Hc. unfold act. destruct (loading s); [reflexivity|].
  unfold claim_enabled. rewrite Hc, andb_false_r. reflexivity.
Qed.

(** C6 (amended).  On every mounted profile screen at most one claim is in
    flight at any time, and exactly while the busy flag is set; a claim in
    flight calls [contract.mint] at most once and no other task of the
    screen calls it; and pressing Claim while the flag is set changes
    nothing. *)
Theorem one_claim_in_flight_per_screen (sys : System) (i : nat) (d : Device) :
  reachable sys -> devices sys !! i = Some d ->
  claims_in_flight d <= 1 /\
  (claims_in_flight d = 1 <-> claiming (d_state d) = true) /\
  Forall (fun t => mints_at_most t (if is_claim t then 1 else 0)) (d_tasks d) /\
  (claiming (d_state d) = true -> system_act i PressClaim sys = sys).
Proof.
  intros Hreach Hi. destruct (reachable_screen sys i d Hreach Hi) as (Hc & Hts & Hn).
  unfold claims_in_flight. rewrite Hn. repeat split.
  - destruct (claiming (d_state d)); lia.
  - destruct (claiming (d_state d)); [reflexivity | discriminate].
  - intros ->. reflexivity.
  - eapply Forall_impl; [exact Hts|]. intros [p|p|p] [_ Hm]; exact Hm.
  - intros Hbusy. unfold system_act. rewrite Hi.
    rewrite press_claim_while_claiming by exact Hbusy. simpl.
    destruct d as [u st s ts]. simpl. rewrite list_insert_id by exact Hi.
    destruct sys; reflexivity.
Qed.

Lemma one_claim_in_flight_per_screen_witness :
  claiming (d_state first_device) = true /\
  claims_in_flight first_device = 1 /\
  system_act 0 PressClaim both_claiming = both_claiming.
Proof.
  assert (Hc : claiming (d_state first_device) = true) by (vm_compute; reflexivity).
  destruct (one_claim_in_flight_per_screen both_claiming 0 first_device
              both_claiming_reachable first_device_lookup) as (_ & H2 & _ & H4).
  split; [exact Hc|]. split; [apply H2; exact Hc | exact (H4 Hc)].
Defined.

(** The flag is a cell of one mounted screen.  With a user signed in on two
    devices, Claim can be pressed on the second while the claim of the
    first is in flight: two claims of the user are in flight at once, both
    read the balance before either resets it, and both mint it. *)
Lemma two_screens_mint_twice :
  reachable both_claiming /\
  claims_in_flight_of "u1" both_claiming = 2 /\
  s_minted (run_schedule race both_claiming) = [(address, "12.34"); (address, "12.34")] /\
  ~ (forall sys id, reachable sys -> claims_in_flight_of id sys <= 1).
Proof.
  assert (H2 : claims_in_flight_of "u1" both_claiming = 2) by (vm_compute; reflexivity).
  split; [exact both_claiming_reachable|]. split; [exact H2|].
  split; [vm_compute; reflexivity|].
  intros H. specialize (H both_claiming "u1" both_claiming_reachable).
  rewrite H2 in H. lia.
Qed.

End AppFacts.

(* ===================================================================== *)
(** * Saving the profile *)
(* ===================================================================== *)

Module SaveFacts.
Import JsNumber Backend Async EditProfile Invocation Stepping Scenario.

Lemma trim_start_blank (s : string) :
  is_blank s = true -> JsString.trim_start s = "".
Proof.
  unfold is_blank. induction s as [|c s IH]; simpl; [reflexivity|].
  intros H. apply andb_true_iff in H as [Hc Hs]. rewrite Hc. auto.
Qed.

Lemma trim_start_not_blank (s : string) :
  is_blank s = false ->
  exists c s', JsString.trim_start s = String c s' /\ JsString.is_white_space c = false.
Proof.
  unfold is_blank. induction s as [|c s IH]; simpl; [discriminate|].
  destruct (JsString.is_white_space c) eqn:Hc; simpl; eauto.
Qed.

(** [!s.trim()] holds exactly of the empty and white-space-only strings. *)
Lemma trim_blank (s : string) :
  negb (JsString.truthy (JsString.trim s)) = is_blank s.
Proof.
  unfold JsString.truthy, JsString.trim. rewrite negb_involutive.
  destruct (is_blank s) eqn:Hb.
  - rewrite (trim_start_blank s Hb). reflexivity.
  - destruct (trim_start_not_blank s Hb) as (c & s' & -> & Hc).
    simpl. rewrite Hc. reflexivity.
Qed.

#[local] Arguments JsString.trim : simpl never.
#[local] Arguments JsString.truthy : simpl never.

(** C9 (amended).  A save with an empty or white-space-only username
    returns through the validation branch, with the message set and
    without any call; a save with any other username, when the
    authenticated user is resolved, makes exactly one upsert, of the form's
    fields keyed by the user's id, right after the user is read, and asks
    for an email change only after that upsert went through and only when
    the email differs. *)
Theorem save_validates_then_upserts (now : string) (st : State) (w : World) :
  (is_blank (username st) = true ->
   fst (fst (run (updateProfile now st) st w)) = Returned ValidationError /\
   error (snd (fst (run (updateProfile now st) st w))) = Some "Username is required" /\
   updating (snd (fst (run (updateProfile now st) st w))) = false /\
   snd (run (updateProfile now st) st w) = w) /\
  (is_blank (username st) = false ->
   forall u, session w = Some u -> faults w (length (calls w)) = None ->
   exists ok tail,
     since w (snd (run (updateProfile now st) st w))
       = (EGetUser, true) :: (EUpsert (updates_of u st now), ok) :: tail /\
     upserts (since w (snd (run (updateProfile now st) st w))) = [updates_of u st now] /\
     (if ok && negb (String.eqb (email st) (user_email u))
      then exists ok', tail = [(EUpdateUser (email st), ok')]
      else tail = []) /\
     (if ok then fst (fst (run (updateProfile now st) st w)) = Returned Saved
      else exists e, fst (fst (run (updateProfile now st) st w)) = Returned (SaveFailed e))).
Proof.
  split.
  - intros Hb. unfold updateProfile. simpl. rewrite trim_blank, Hb. simpl. auto.
  - intros Hb u Hu Hf. unfold updateProfile. simpl. rewrite trim_blank, Hb. simpl.
    unfold exec. rewrite Hf. simpl. rewrite Hu. simpl.
    unfold updates_of, exec. simpl.
    destruct (faults w (length (calls w ++ [(EGetUser, true)]))) as [e|]; simpl.
    + exists false, []. show_log. simpl. eauto 10.
    + destruct (String.eqb (email st) (user_email u)); simpl.
      * exists true, []. show_log. simpl. eauto 10.
      * unfold exec. simpl.
        match goal with |- context [faults w ?n] => destruct (faults w n) as [e|] end; simpl.
        -- exists true, [(EUpdateUser (email st), false)]. show_log. simpl. eauto 10.
        -- exists true, [(EUpdateUser (email st), true)]. show_log. simpl. eauto 10.
Qed.

Lemma save_validates_then_upserts_witness :
  let w := phone "0" "0" no_faults in
  fst (fst (run (updateProfile noon (setUsername "  " form)) (setUsername "  " form) w))
    = Returned ValidationError /\
  upserts (since w (snd (run (updateProfile noon form) form w)))
    = [updates_of alice form noon].
Proof.
  intros w. split.
  - destruct (save_validates_then_upserts noon (setUsername "  " form) w) as [H _].
    exact (proj1 (H eq_refl)).
  - destruct (save_validates_then_upserts noon form w) as [_ H].
    destruct (H eq_refl alice eq_refl eq_refl) as (ok & tail & _ & Hu & _).
    exact Hu.
Defined.

(** With nobody signed in, a save with a proper username makes no upsert:
    it ends in the [catch] block with "No user found". *)
Lemma save_without_user_makes_no_upsert :
  is_blank (username form) = false /\
  fst (fst (run (updateProfile noon form) form signed_out))
    = Returned (SaveFailed (Error "No user found")) /\
  since signed_out (snd (run (updateProfile noon form) form signed_out))
    = [(EGetUser, false)] /\
  upserts (since signed_out (snd (run (updateProfile noon form) form signed_out))) = [].
Proof. vm_compute. repeat split; reflexivity. Qed.

End SaveFacts.

(* ===================================================================== *)
(** * The AsyncStorage keys of the two screens *)
(* ===================================================================== *)

Module StorageFacts.
Import JsNumber Backend Async Behaviour Scenario.

#[local] Arguments parseFloat : simpl never.
#[local] Arguments toString : simpl never.
#[local] Arguments gt : simpl never.
#[local] Arguments EditProfile.nothing_to_claim : simpl never.
#[local] Arguments EditProfile.local_balance_of : simpl never.
#[local] Arguments EditProfile.balance_toString : simpl never.
#[local] Arguments JsString.or_else : simpl never.
#[local] Arguments JsString.trim : simpl never.
#[local] Arguments JsString.truthy : simpl never.

(** Goes through every way a handler may go on. *)
Ltac keys :=
  repeat (simpl;
          first
            [ exact I
            | intros ?
            | split
            | solve [auto]
            | match goal with
              | |- context [match ?x with _ => _ end] => destruct x
              end ]).

Lemma EditProfile_storage_keys (now : string) (st : EditProfile.State) :
  storage_keys_in EditProfile_keys EditProfile.loadLocationSharingState /\
  storage_keys_in EditProfile_keys EditProfile.getProfile /\
  storage_keys_in EditProfile_keys (EditProfile.updateProfile now st) /\
  storage_keys_in EditProfile_keys (EditProfile.claim st).
Proof.
  unfold EditProfile.loadLocationSharingState, EditProfile.getProfile,
         EditProfile.updateProfile, EditProfile.claim, MintAndClaim.mintTokensToUser.
  repeat split; keys.
Qed.

Lemma Rewards_storage_keys (st : Rewards.State) :
  storage_keys_in Rewards_keys Rewards.loadSavedState /\
  storage_keys_in Rewards_keys (Rewards.saveLocationSharingState st).
Proof.
  unfold Rewards.loadSavedState, Rewards.saveLocationSharingState.
  repeat split; keys.
Qed.

(** The interval callback writes the balance under the key of Rewards. *)
Lemma tick_storage_key (random : number) (s : Rewards.State) (w : World) :
  exists ok,
    calls (snd (Rewards.tick random s w)) =
    calls w ++
    [(ESetItem Rewards.STORAGE_KEYS_CAPT_BALANCE
               (toString (Rewards.newBalance (Rewards.captBalance s)
                                             (Rewards.increment random))), ok)].
Proof.
  unfold Rewards.tick, exec. simpl.
  destruct (faults w (length (calls w))); simpl; eauto.
Qed.

(** C8.  The two screens do not use the same two keys.  The handlers of
    EditProfile touch [location_sharing_enabled] and
    [captur_token_balance], those of Rewards [captur_location_sharing] and
    [captur_token_balance]: the balance key is shared and the flag key is
    not.  So the flag that Rewards persists never reaches EditProfile:
    whatever Rewards saves, EditProfile reads back what was under its own
    key before, and [true] when nothing was. *)
Theorem location_flag_is_not_shared
    (user : option User) (table : gmap string Profile) (store : gmap string string)
    (ledger : list (string * string)) (log : list (Event * bool))
    (s : Rewards.State) (s0 : EditProfile.State) (now : string) :
  let w := mkWorld user table store ledger log no_faults in
  let w1 := snd (run (Rewards.saveLocationSharingState s) s w) in
  (storage_keys_in EditProfile_keys EditProfile.loadLocationSharingState /\
   storage_keys_in EditProfile_keys EditProfile.getProfile /\
   storage_keys_in EditProfile_keys (EditProfile.updateProfile now s0) /\
   storage_keys_in EditProfile_keys (EditProfile.claim s0)) /\
  (storage_keys_in Rewards_keys Rewards.loadSavedState /\
   storage_keys_in Rewards_keys (Rewards.saveLocationSharingState s)) /\
  EditProfile.STORAGE_KEYS_LOCATION_SHARING <> Rewards.STORAGE_KEYS_LOCATION_SHARING /\
  EditProfile.STORAGE_KEYS_CAPT_BALANCE <> Rewards.STORAGE_KEYS_CAPT_BALANCE /\
  storage w1 !! Rewards.STORAGE_KEYS_LOCATION_SHARING
    = Some (JsString.of_bool (Rewards.isLocationSharingEnabled s)) /\
  Rewards.isLocationSharingEnabled (snd (fst (run Rewards.loadSavedState Rewards.initial w1)))
    = Rewards.isLocationSharingEnabled s /\
  EditProfile.isLocationSharingEnabled
    (snd (fst (run EditProfile.loadLocationSharingState s0 w1)))
    = match store !! EditProfile.STORAGE_KEYS_LOCATION_SHARING with
      | Some v => String.eqb v "true"
      | None => true
      end.
Proof.
  intros w w1.
  split; [apply EditProfile_storage_keys|].
  split; [apply Rewards_storage_keys|].
  split; [discriminate|]. split; [discriminate|].
  subst w1 w. unfold Rewards.saveLocationSharingState. simpl.
  unfold exec. simpl.
  split; [apply lookup_insert_eq|].
  split.
  - unfold Rewards.STORAGE_KEYS_LOCATION_SHARING. rewrite lookup_insert_eq. simpl.
    unfold exec. simpl.
    destruct (Rewards.isLocationSharingEnabled s); simpl;
      match goal with |- context [match ?x with _ => _ end] => destruct x end;
      reflexivity.
  - unfold EditProfile.STORAGE_KEYS_LOCATION_SHARING, Rewards.STORAGE_KEYS_LOCATION_SHARING.
    rewrite lookup_insert_ne by discriminate.
    destruct (store !! "location_sharing_enabled"); reflexivity.
Qed.

(** Location sharing is switched off on Rewards and saved; a Rewards screen
    that mounts afterwards reads [false], the profile screen reads [true]. *)
Lemma flag_switched_off_reads_back_on :
  let s := Rewards.toggleLocationSharing Rewards.initial in
  let w1 := snd (run (Rewards.saveLocationSharingState s) s (phone "0" "0" no_faults)) in
  Rewards.isLocationSharingEnabled s = false /\
  storage w1 !! "captur_location_sharing" = Some "false" /\
  Rewards.isLocationSharingEnabled (snd (fst (run Rewards.loadSavedState Rewards.initial w1)))
    = false /\
  EditProfile.isLocationSharingEnabled
    (snd (fst (run EditProfile.loadLocationSharingState EditProfile.initial w1))) = true.
Proof. vm_compute. repeat split; reflexivity. Qed.

End StorageFacts.

(* ===================================================================== *)
(** * The claim pipeline: failures after the mint, and what is minted *)
(* ===================================================================== *)

Module ClaimEdges.
Import JsNumber Backend Async MintAndClaim EditProfile Invocation ClaimPaths Pipeline Stepping Scenario.

#[local] Arguments balance_toString : simpl never.
#[local] Arguments parseFloat : simpl never.
#[local] Arguments toString : simpl never.
#[local] Arguments gt : simpl never.
#[local] Arguments le : simpl never.
#[local] Arguments nothing_to_claim : simpl never.
#[local] Arguments local_balance_of : simpl never.
#[local] Arguments JsString.or_else : simpl never.

Lemma positive_claimable (b : number) : gt b zero = true -> nothing_to_claim (Some b) = false.
Proof. destruct b as [[]|[]| |[] m e]; cbv; congruence. Qed.

Lemma claimable_positive (bal : option number) :
  nothing_to_claim bal = false -> exists b, bal = Some b /\ gt b zero = true.
Proof.
  destruct bal as [b|]; [|discriminate]. intros H. exists b. split; [reflexivity|].
  destruct b as [[]|[]| |[] m e]; cbv in H |- *; congruence.
Qed.

(** The invocation up to the confirmed mint, when the calls go through. *)
Lemma run_to_reset (st : State) (w : World) (u : User) (b : number) :
  session w = Some u ->
  authoritative (user_id u) w = Some (Some b) ->
  gt b zero = true ->
  mintable (toString b) ->
  cryptoChain st = "Base" ->
  calls_succeed w (calls_before_mint w + 2) ->
  exists row,
    profiles (after_sync (user_id u) w) !! user_id u = Some row /\
    p_token_balance row = Some b /\
    length (calls (after_wait (user_id u) (walletAddress st) (toString b) w))
    = length (calls w) + (calls_before_mint w + 2) /\
    run (claim st) st w =
    (let w6 := after_wait (user_id u) (walletAddress st) (toString b) w in
     match faults w (length (calls w6)) with
     | Some e =>
         (Returned (ClaimFailed e), caught st e,
          log_call (EUpdateBalance (user_id u) zero) false w6)
     | None =>
         let w7 := after_reset (user_id u) (walletAddress st) (toString b) w in
         match faults w (length (calls w7)) with
         | Some e =>
             (Returned (ClaimFailed e), caught st e,
              log_call (ESetItem balance_key "0") false w7)
         | None =>
             (Returned Claimed, claimed st,
              after_local_reset (user_id u) (walletAddress st) (toString b) w)
         end
     end).
Proof.
  intros Hs Hb Hpos [units Hu] Hchain Hf.
  unfold authoritative, synced in Hb. unfold calls_before_mint in *.
  unfold after_local_reset, after_reset, after_wait, after_mint, after_read, after_sync,
         after_local, after_user, balance_key.
  unfold claim. simpl.
  call_ok Hf. rewrite Hs. simpl.
  call_ok Hf. simpl. fold (local_balance w).
  destruct (gt (local_balance w) zero) eqn:Hl; simpl.
  - call_ok Hf. simpl. call_ok Hf. simpl.
    destruct (alter (set_token_balance (local_balance w)) (user_id u) (profiles w) !! user_id u)
      as [row|] eqn:Hrow; [|discriminate].
    simpl in Hb. injection Hb as Hb. exists row. split; [reflexivity|]. split; [exact Hb|].
    split; [rewrite !length_app; simpl; lia|].
    simpl. rewrite Hb, (positive_claimable _ Hpos), Hchain. simpl.
    unfold mintTokensToUser. change (balance_toString (Some b)) with (toString b).
    rewrite Hu. simpl.
    call_ok Hf. simpl. call_ok Hf. simpl.
    unfold exec at 1. simpl.
    lazymatch goal with |- _ = match faults w ?n with _ => _ end => destruct (faults w n) end;
      simpl; [reflexivity|].
    unfold exec at 1. simpl.
    lazymatch goal with |- _ = match faults w ?n with _ => _ end => destruct (faults w n) end;
      reflexivity.
  - call_ok Hf. simpl.
    destruct (profiles w !! user_id u) as [row|] eqn:Hrow; [|discriminate].
    simpl in Hb. injection Hb as Hb. exists row. split; [reflexivity|]. split; [exact Hb|].
    split; [rewrite !length_app; simpl; lia|].
    simpl. rewrite Hb, (positive_claimable _ Hpos), Hchain. simpl.
    unfold mintTokensToUser. change (balance_toString (Some b)) with (toString b).
    rewrite Hu. simpl.
    call_ok Hf. simpl. call_ok Hf. simpl.
    unfold exec at 1. simpl.
    lazymatch goal with |- _ = match faults w ?n with _ => _ end => destruct (faults w n) end;
      simpl; [reflexivity|].
    unfold exec at 1. simpl.
    lazymatch goal with |- _ = match faults w ?n with _ => _ end => destruct (faults w n) end;
      reflexivity.
Qed.

Lemma authoritative_local (id : string) (w : World) (b : number) :
  gt (local_balance w) zero = true ->
  authoritative id w = Some (Some b) -> b = local_balance w.
Proof.
  unfold authoritative, synced. intros ->. rewrite lookup_alter_eq.
  destruct (profiles w !! id); simpl; congruence.
Qed.

Lemma profiles_after_sync (id : string) (w : World) : profiles (after_sync id w) = synced id w.
Proof.
  unfold after_sync, synced. destruct (gt (local_balance w) zero); reflexivity.
Qed.

Lemma storage_after_sync (id : string) (w : World) : storage (after_sync id w) = storage w.
Proof. unfold after_sync. destruct (gt (local_balance w) zero); reflexivity. Qed.

Lemma minted_after_sync (id : string) (w : World) : minted (after_sync id w) = minted w.
Proof. unfold after_sync. destruct (gt (local_balance w) zero); reflexivity. Qed.

(** Syncing up twice is syncing up once. *)
Lemma authoritative_kept (id : string) (w w' : World) :
  storage w' = storage w -> profiles w' = synced id w ->
  authoritative id w' = authoritative id w.
Proof.
  unfold authoritative, synced, local_balance. intros -> ->.
  destruct (gt (local_balance_of (storage w !! "captur_token_balance")) zero); [|reflexivity].
  rewrite !lookup_alter_eq. destruct (profiles w !! id); reflexivity.
Qed.

(** X6.  When the mint of a balance whose string [parseUnits] takes is
    confirmed and the write that resets the remote balance then fails, the invocation ends in the [catch] block: the tokens
    are minted, no balance is reset, and the balance that was minted is
    still the authoritative balance, so that the next claim mints it
    again. *)
Theorem minted_but_not_reset (st : State) (w : World) (u : User) (b : number) (e : JsError) :
  session w = Some u ->
  authoritative (user_id u) w = Some (Some b) ->
  gt b zero = true ->
  mintable (toString b) ->
  cryptoChain st = "Base" ->
  calls_succeed w (calls_before_mint w + 2) ->
  faults w (length (calls w) + (calls_before_mint w + 2)) = Some e ->
  let '(out, st', w') := run (claim st) st w in
  out = Returned (ClaimFailed e) /\
  error st' = Some (JsString.or_else (message e) "Claim failed.") /\
  claiming st' = false /\
  minted w' = minted w ++ [(walletAddress st, toString b)] /\
  storage w' = storage w /\
  authoritative (user_id u) w' = Some (Some b).
Proof.
  intros Hs Hb Hpos Hu Hchain Hf He.
  destruct (run_to_reset st w u b Hs Hb Hpos Hu Hchain Hf) as (row & Hrow & Hbal & Hlen & ->).
  cbv zeta. rewrite Hlen, He.
  unfold after_wait, after_mint, after_read. simpl.
  split; [reflexivity|]. split; [reflexivity|]. split; [reflexivity|].
  split; [rewrite minted_after_sync; reflexivity|]. split; [apply storage_after_sync|].
  rewrite <- Hb. apply authoritative_kept; [apply storage_after_sync|].
  apply profiles_after_sync.
Qed.

Lemma minted_but_not_reset_witness :
  let w := phone "12.34" "5" (fault_at 6 "connection lost") in
  let '(out, _, w') := run (claim form) form w in
  out = Returned (ClaimFailed (Error "connection lost")) /\
  minted w' = [(address, toString (parseFloat "12.34"))] /\
  authoritative "u1" w' = Some (Some (parseFloat "12.34")).
Proof.
  intros w.
  assert (Hb : authoritative (user_id alice) w = Some (Some (parseFloat "12.34")))
    by (vm_compute; reflexivity).
  assert (Hpos : gt (parseFloat "12.34") zero = true) by (vm_compute; reflexivity).
  assert (Hn : calls_before_mint w = 4) by (vm_compute; reflexivity).
  assert (Hf : calls_succeed w (calls_before_mint w + 2)).
  { rewrite Hn. intros i Hi. simpl. unfold fault_at.
    destruct (Nat.eqb_spec i 6); [lia | reflexivity]. }
  assert (He : faults w (length (calls w) + (calls_before_mint w + 2))
               = Some (Error "connection lost")) by (rewrite Hn; reflexivity).
  assert (Hu : mintable (toString (parseFloat "12.34")))
    by (exists 12340000000000000000%Z; vm_compute; reflexivity).
  generalize (minted_but_not_reset form w alice (parseFloat "12.34")
                (Error "connection lost") eq_refl Hb Hpos Hu eq_refl Hf He).
  destruct (run (claim form) form w) as [[out st'] w'].
  intros (H1 & _ & _ & H4 & _ & H6). repeat split; assumption.
Defined.

(** X7.  When a balance whose string [parseUnits] takes is minted, the
    remote balance is reset and the write that resets the local balance
    then fails, the tokens are minted and the remote balance
    is zero, but the local balance is as it was: a positive local balance
    is again the authoritative balance, since the next claim syncs it up
    before it reads. *)
Theorem minted_but_local_not_reset
    (st : State) (w : World) (u : User) (b : number) (e : JsError) :
  session w = Some u ->
  authoritative (user_id u) w = Some (Some b) ->
  gt b zero = true ->
  mintable (toString b) ->
  cryptoChain st = "Base" ->
  calls_succeed w (calls_before_mint w + 3) ->
  faults w (length (calls w) + (calls_before_mint w + 3)) = Some e ->
  let '(out, st', w') := run (claim st) st w in
  out = Returned (ClaimFailed e) /\
  minted w' = minted w ++ [(walletAddress st, toString b)] /\
  p_token_balance <$> (profiles w' !! user_id u) = Some (Some zero) /\
  storage w' = storage w /\
  authoritative (user_id u) w'
    = Some (Some (if gt (local_balance w) zero then b else zero)).
Proof.
  intros Hs Hb Hpos Hu Hchain Hf He.
  assert (Hf2 : calls_succeed w (calls_before_mint w + 2))
    by (intros i Hi; apply Hf; lia).
  destruct (run_to_reset st w u b Hs Hb Hpos Hu Hchain Hf2)
    as (row & Hrow & Hbal & Hlen & ->).
  cbv zeta. rewrite Hlen, (Hf (calls_before_mint w + 2)) by lia.
  assert (Hlen7 : length (calls (after_reset (user_id u) (walletAddress st) (toString b) w))
                  = length (calls w) + (calls_before_mint w + 3)).
  { unfold after_reset. simpl. rewrite length_app. simpl.
    unfold after_wait in Hlen. simpl in Hlen. rewrite Hlen. lia. }
  rewrite Hlen7, He.
  split; [reflexivity|].
  split; [unfold after_reset, after_wait, after_mint, after_read; simpl;
          rewrite minted_after_sync; reflexivity|].
  assert (Hz : p_token_balance <$>
               (alter (set_token_balance zero) (user_id u)
                      (profiles (after_sync (user_id u) w)) !! user_id u)
               = Some (Some zero)).
  { rewrite lookup_alter_eq, Hrow. reflexivity. }
  split; [exact Hz|]. split; [apply storage_after_sync|].
  unfold authoritative, synced.
  replace (local_balance (log_call (ESetItem balance_key "0") false
             (after_reset (user_id u) (walletAddress st) (toString b) w)))
    with (local_balance w)
    by (unfold local_balance; simpl; rewrite storage_after_sync; reflexivity).
  destruct (gt (local_balance w) zero) eqn:Hl.
  - rewrite (authoritative_local _ _ _ Hl Hb). simpl.
    rewrite lookup_alter_eq. simpl in Hz.
    destruct (alter (set_token_balance zero) (user_id u)
                (profiles (after_sync (user_id u) w)) !! user_id u); [reflexivity|discriminate].
  - exact Hz.
Qed.

Lemma minted_but_local_not_reset_witness :
  let w := phone "12.34" "5" (fault_at 7 "disk full") in
  let '(out, _, w') := run (claim form) form w in
  out = Returned (ClaimFailed (Error "disk full")) /\
  minted w' = [(address, toString (parseFloat "12.34"))] /\
  storage w' = store "12.34" /\
  authoritative "u1" w' = Some (Some (parseFloat "12.34")).
Proof.
  intros w.
  assert (Hb : authoritative (user_id alice) w = Some (Some (parseFloat "12.34")))
    by (vm_compute; reflexivity).
  assert (Hpos : gt (parseFloat "12.34") zero = true) by (vm_compute; reflexivity).
  assert (Hn : calls_before_mint w = 4) by (vm_compute; reflexivity).
  assert (Hl : gt (local_balance w) zero = true) by (vm_compute; reflexivity).
  assert (Hf : calls_succeed w (calls_before_mint w + 3)).
  { rewrite Hn. intros i Hi. simpl. unfold fault_at.
    destruct (Nat.eqb_spec i 7); [lia | reflexivity]. }
  assert (He : faults w (length (calls w) + (calls_before_mint w + 3))
               = Some (Error "disk full")) by (rewrite Hn; reflexivity).
  assert (Hu : mintable (toString (parseFloat "12.34")))
    by (exists 12340000000000000000%Z; vm_compute; reflexivity).
  generalize (minted_but_local_not_reset form w alice (parseFloat "12.34")
                (Error "disk full") eq_refl Hb Hpos Hu eq_refl Hf He).
  destruct (run (claim form) form w) as [[out st'] w'].
  rewrite Hl. intros (H1 & H2 & _ & H4 & H5). repeat split; assumption.
Defined.

(** X8.  Whatever the calls answer, a claim invocation makes at most one
    mint call, and only for the wallet address of the form and the decimal
    string of a balance that is positive: never for a missing, zero,
    negative or NaN balance. *)
Theorem claim_mints_only_positive (st : State) (w : World) :
  let w' := snd (run (claim st) st w) in
  mint_calls (since w w') = [] \/
  exists b, gt b zero = true /\ mint_calls (since w w') = [(walletAddress st, toString b)].
Proof.
  cbv zeta. pose proof (ClaimFacts.claim_paths st w) as Hp.
  destruct (run (claim st) st w) as [[out st'] w']. simpl.
  destruct (gt (local_balance w) zero) eqn:Hl;
    inversion Hp; subst;
    unfold after_local_reset, after_reset, after_wait, after_mint, after_read, after_sync,
           after_local, after_user, balance_key;
    rewrite ?Hl; show_log;
    try (left; reflexivity);
    repeat match goal with a := _ |- _ => subst a end;
    match goal with
    | H : nothing_to_claim _ = false |- _ =>
        apply claimable_positive in H as (b & Hb & Hpos); rewrite Hb;
        right; exists b; split; [exact Hpos | reflexivity]
    end.
Qed.

End ClaimEdges.

(* ===================================================================== *)
(** * Loading and saving the profile: what the user is shown *)
(* ===================================================================== *)

Module ProfileFacts.
Import JsNumber Backend Async EditProfile Invocation Stepping Scenario.

#[local] Arguments JsString.or_else : simpl never.
#[local] Arguments JsString.trim : simpl never.
#[local] Arguments JsString.truthy : simpl never.
#[local] Arguments Wallet.validateWalletAddress : simpl never.
#[local] Arguments String.eqb : simpl never.

(** One goal for each conjunct. *)
Ltac conjuncts := repeat match goal with |- _ /\ _ => split end.

(** X1.  Whatever the calls answer, [getProfile] ends with [loading]
    switched off, and it only reads: it makes the auth call and at most one
    select, and leaves the table, the storage and the ledger as they were.
    With nobody signed in it stops after the auth call with "No user
    found". *)
Theorem getProfile_only_reads (s : State) (w : World) :
  let '(_, s', w') := run getProfile s w in
  loading s' = false /\
  claiming s' = claiming s /\
  profiles w' = profiles w /\ storage w' = storage w /\ minted w' = minted w /\
  (since w w' = [(EGetUser, false)] \/
   exists id ok, since w w' = [(EGetUser, true); (ESelectProfile id, ok)]) /\
  (session w = None ->
   error s' = Some "No user found" /\ since w w' = [(EGetUser, false)]).
Proof.
  unfold getProfile. simpl.
  call_cases; simpl.
  { show_log. conjuncts; eauto. }
  destruct (session w) as [u|] eqn:Hs; simpl.
  2:{ show_log. conjuncts; eauto. }
  call_cases; simpl.
  { destruct (negb (code j =? "PGRST116")) eqn:Hc; simpl; show_log;
      conjuncts; eauto; discriminate. }
  destruct (profiles w !! user_id u) as [row|] eqn:Hrow; simpl; show_log;
    conjuncts; eauto; discriminate.
Qed.

(** X2.  With the user signed in and a row in the table, [getProfile] fills
    the form from the row: a [NULL] column gives the empty string, a [NULL]
    or empty email gives the email of the auth user, the chain is Base
    whatever the row says, and address validity follows the address that
    was loaded; no error is shown. *)
Theorem getProfile_fills_form (s : State) (w : World) (u : User) (row : Profile) :
  session w = Some u ->
  calls_succeed w 2 ->
  profiles w !! user_id u = Some row ->
  let '(out, s', w') := run getProfile s w in
  out = Returned tt /\
  username s' = or_empty (p_username row) /\
  email s' = JsString.or_else (or_empty (p_email row)) (user_email u) /\
  ageRange s' = or_empty (p_age_range row) /\
  gender s' = or_empty (p_gender row) /\
  commuteMode s' = or_empty (p_commute_mode row) /\
  cryptoChain s' = "Base" /\
  walletAddress s' = or_empty (p_wallet_address row) /\
  isAddressValid s' = Wallet.validateWalletAddress (or_empty (p_wallet_address row)) /\
  loading s' = false /\
  error s' = error s /\
  since w w' = [(EGetUser, true); (ESelectProfile (user_id u), true)].
Proof.
  intros Hs Hf Hrow. unfold getProfile. simpl.
  call_ok Hf. rewrite Hs. simpl.
  call_ok Hf. simpl. rewrite Hrow. simpl. show_log.
  repeat split; reflexivity.
Qed.

Lemma getProfile_fills_form_witness :
  let '(_, s', _) := run getProfile initial (phone "0" "5" no_faults) in
  username s' = "alice" /\ email s' = "alice@example.org" /\
  walletAddress s' = address /\ isAddressValid s' = true /\ loading s' = false.
Proof.
  generalize (getProfile_fills_form initial (phone "0" "5" no_faults) alice (row "5")
                eq_refl (fun i _ => eq_refl) eq_refl).
  assert (Hv : Wallet.validateWalletAddress address = true) by (vm_compute; reflexivity).
  destruct (run getProfile initial (phone "0" "5" no_faults)) as [[out s'] w'].
  intros (_ & H2 & H3 & _ & _ & _ & _ & H8 & H9 & H10 & _).
  simpl in H2, H3, H8, H9. rewrite Hv in H9.
  repeat split; assumption.
Defined.

(** X3.  With the user signed in and no row in the table, the form is left
    as it was; that no row was found is not shown as an error (nor is any
    other select error with code PGRST116), while any other select error
    is shown with its message. *)
Theorem getProfile_without_row (s : State) (w : World) (u : User) :
  session w = Some u ->
  faults w (length (calls w)) = None ->
  profiles w !! user_id u = None ->
  let '(_, s', w') := run getProfile s w in
  username s' = username s /\ email s' = email s /\
  walletAddress s' = walletAddress s /\ isAddressValid s' = isAddressValid s /\
  loading s' = false /\
  match faults w (length (calls w) + 1) with
  | Some e =>
      if String.eqb (code e) "PGRST116"
      then error s' = error s /\ cryptoChain s' = "Base"
      else error s' = Some (message e)
  | None => error s' = error s /\ cryptoChain s' = "Base"
  end.
Proof.
  intros Hs Hf Hrow. unfold getProfile. simpl.
  unfold exec at 1. rewrite Hf. simpl. rewrite Hs. simpl.
  unfold exec at 1. simpl. rewrite length_app. simpl.
  destruct (faults w (length (calls w) + 1)) as [e|]; simpl.
  - destruct (String.eqb (code e) "PGRST116"); simpl; conjuncts; reflexivity.
  - rewrite Hrow. simpl. conjuncts; reflexivity.
Qed.

Lemma getProfile_without_row_witness :
  let w := mkWorld (Some alice) ∅ ∅ [] [] no_faults in
  let '(_, s', _) := run getProfile initial w in
  username s' = "" /\ loading s' = false /\ error s' = None /\ cryptoChain s' = "Base".
Proof.
  intros w.
  generalize (getProfile_without_row initial w alice eq_refl eq_refl eq_refl).
  destruct (run getProfile initial w) as [[out s'] w'].
  simpl. intros (H1 & _ & _ & _ & H5 & H6 & H7). repeat split; assumption.
Defined.

(** X4.  A save whose upsert went through and whose email differs from the
    auth email asks for the email change as its third call.  When that
    request fails the save still ends as saved, with the row written: the
    error "Profile updated but email change requires verification" is shown
    together with the success message of the upsert.  When it goes through
    only the message about the confirmation email is shown. *)
Theorem save_then_email_change (now : string) (st : State) (w : World) (u : User) :
  is_blank (username st) = false ->
  session w = Some u ->
  calls_succeed w 2 ->
  email st <> user_email u ->
  let '(out, st', w') := run (updateProfile now st) st w in
  out = Returned Saved /\
  updating st' = false /\
  profiles w' !! user_id u
    = Some (apply_updates (updates_of u st now) (profiles w !! user_id u)) /\
  match faults w (length (calls w) + 2) with
  | Some _ =>
      error st' = Some "Profile updated but email change requires verification" /\
      success st' = Some "Profile updated successfully!" /\
      since w w' = [(EGetUser, true); (EUpsert (updates_of u st now), true);
                    (EUpdateUser (email st), false)]
  | None =>
      error st' = None /\
      success st'
        = Some "Profile updated! Please check your email to confirm your new email address." /\
      since w w' = [(EGetUser, true); (EUpsert (updates_of u st now), true);
                    (EUpdateUser (email st), true)]
  end.
Proof.
  intros Hb Hs Hf Hne. unfold updateProfile. simpl.
  rewrite SaveFacts.trim_blank, Hb. simpl.
  call_ok Hf. rewrite Hs. simpl.
  call_ok Hf. simpl.
  apply String.eqb_neq in Hne. rewrite Hne. simpl.
  unfold exec at 1. simpl. rewrite !length_app. simpl.
  replace (length (calls w) + 1 + 1) with (length (calls w) + 2) by lia.
  unfold updates_of.
  destruct (faults w (length (calls w) + 2)) as [e|]; simpl; show_log;
    conjuncts; try reflexivity; apply lookup_insert_eq.
Qed.

Lemma save_then_email_change_witness :
  let st := setEmail "alice@new.example" form in
  let w := phone "0" "5" (fault_at 2 "rate limit") in
  let '(out, st', w') := run (updateProfile noon st) st w in
  out = Returned Saved /\
  error st' = Some "Profile updated but email change requires verification" /\
  success st' = Some "Profile updated successfully!" /\
  p_email <$> (profiles w' !! "u1") = Some (Some "alice@new.example").
Proof.
  intros st w.
  assert (Hne : email st <> user_email alice) by discriminate.
  assert (Hf : calls_succeed w 2).
  { intros i Hi. simpl. unfold fault_at. destruct (Nat.eqb_spec i 2); [lia|reflexivity]. }
  generalize (save_then_email_change noon st w alice eq_refl eq_refl Hf Hne).
  destruct (run (updateProfile noon st) st w) as [[out st'] w'].
  simpl. intros (H1 & _ & H3 & H4 & H5 & _).
  rewrite H3. repeat split; assumption.
Defined.

(** X5.  A save whose upsert fails ends in the [catch] block: the message
    of the error is shown and no success message, the table is as it was,
    no email change is asked for, and [updating] is switched off. *)
Theorem save_upsert_failure (now : string) (st : State) (w : World) (u : User) (e : JsError) :
  is_blank (username st) = false ->
  session w = Some u ->
  faults w (length (calls w)) = None ->
  faults w (length (calls w) + 1) = Some e ->
  let '(out, st', w') := run (updateProfile now st) st w in
  out = Returned (SaveFailed e) /\
  error st' = Some (message e) /\
  success st' = None /\
  updating st' = false /\
  profiles w' = profiles w /\
  since w w' = [(EGetUser, true); (EUpsert (updates_of u st now), false)].
Proof.
  intros Hb Hs Hf He. unfold updateProfile. simpl.
  rewrite SaveFacts.trim_blank, Hb. simpl.
  unfold exec at 1. rewrite Hf. simpl. rewrite Hs. simpl.
  unfold exec at 1. simpl. rewrite length_app. simpl. rewrite He. simpl.
  show_log. conjuncts; reflexivity.
Qed.

Lemma save_upsert_failure_witness :
  let w := phone "0" "5" (fault_at 1 "permission denied") in
  let '(out, st', w') := run (updateProfile noon form) form w in
  out = Returned (SaveFailed (Error "permission denied")) /\
  error st' = Some "permission denied" /\
  profiles w' = profiles w.
Proof.
  intros w.
  generalize (save_upsert_failure noon form w alice (Error "permission denied")
                eq_refl eq_refl eq_refl eq_refl).
  destruct (run (updateProfile noon form) form w) as [[out st'] w'].
  intros (H1 & H2 & _ & _ & H5 & _). repeat split; assumption.
Defined.

End ProfileFacts.

(* ===================================================================== *)
(** * Tokens go to well-formed addresses only *)
(* ===================================================================== *)

Module AddressFacts.
Import JsNumber Backend Async MintAndClaim EditProfile App Behaviour Addresses AppFacts.

#[local] Arguments parseFloat : simpl never.
#[local] Arguments toString : simpl never.
#[local] Arguments gt : simpl never.
#[local] Arguments le : simpl never.
#[local] Arguments nothing_to_claim : simpl never.
#[local] Arguments local_balance_of : simpl never.
#[local] Arguments balance_toString : simpl never.
#[local] Arguments JsString.or_else : simpl never.
#[local] Arguments JsString.trim : simpl never.
#[local] Arguments JsString.truthy : simpl never.
#[local] Arguments Wallet.validateWalletAddress : simpl never.

Ltac address_setter :=
  let s := fresh "s" in let H := fresh "H" in
  intros s H; first [exact H | reflexivity].

(** Goes through a handler whose [bind]s are computed away. *)
Ltac keeps :=
  repeat (simpl;
          first
            [ apply always_ret; exact I
            | apply always_throw
            | apply always_update; [address_setter|]
            | apply always_await; intros ?
            | match goal with
              | |- always _ _ ?p =>
                  match p with
                  | context [match ?x with _ => _ end] => destruct x
                  end
              end ]).

Lemma loadLocationSharingState_keeps : always keeps_address anything loadLocationSharingState.
Proof. unfold loadLocationSharingState. keeps. Qed.

Lemma getProfile_keeps : always keeps_address anything getProfile.
Proof. unfold getProfile. keeps. Qed.

Lemma updateProfile_keeps now st : always keeps_address anything (updateProfile now st).
Proof. unfold updateProfile. keeps. Qed.

Lemma claim_keeps st : always keeps_address anything (claim st).
Proof. unfold claim, MintAndClaim.mintTokensToUser. keeps. Qed.

(** Goes through every way a handler may go on. *)
Ltac mints :=
  repeat (simpl;
          first
            [ exact I
            | assumption
            | intros ?
            | split
            | match goal with
              | |- context [match ?x with _ => _ end] => destruct x
              end ]).

Lemma loadLocationSharingState_mints : mints_to well_formed loadLocationSharingState.
Proof. unfold loadLocationSharingState. mints. Qed.

Lemma getProfile_mints : mints_to well_formed getProfile.
Proof. unfold getProfile. mints. Qed.

Lemma updateProfile_mints now st : mints_to well_formed (updateProfile now st).
Proof. unfold updateProfile. mints. Qed.

Lemma claim_mints st : well_formed (walletAddress st) -> mints_to well_formed (claim st).
Proof. intros H. unfold claim, MintAndClaim.mintTokensToUser. mints. Qed.

(** ** Tasks going on *)

Lemma mints_to_settle {S A : Type} (ok : string -> Prop) (p : Prog S A) (s : S) :
  mints_to ok p -> mints_to ok (fst (settle p s)).
Proof.
  revert s. induction p as [a|e|f k IH|X c k IH]; intros s Hp; simpl; auto.
Qed.

Lemma keeps_settle {A : Type} (p : Prog State A) (s : State) :
  always keeps_address anything p -> address_checked s ->
  always keeps_address anything (fst (settle p s)) /\ address_checked (snd (settle p s)).
Proof.
  intros Hp Hs.
  apply (always_settle keeps_address anything address_checked p); auto.
Qed.

Lemma exec_calls {X : Type} (c : Call X) (w : World) :
  exists ok, calls (snd (exec c w)) = calls w ++ [(event_of c, ok)].
Proof.
  unfold exec. destruct (faults w (length (calls w))); [simpl; eauto|].
  destruct (perform c w) as [x w'] eqn:E. simpl. exists (succeeded c x).
  f_equal. destruct c; simpl in E; try (injection E as _ <-; reflexivity);
    destruct (profiles w !! id); injection E as _ <-; reflexivity.
Qed.

(** One call of a task: what the log gains is well-formed, and so is what
    the task may still do. *)
Lemma resume_addresses {A : Type} (p : Prog State A) (s : State) (w : World) :
  always keeps_address anything p -> mints_to well_formed p ->
  address_checked s -> Forall mint_well_formed (calls w) ->
  always keeps_address anything (fst (fst (resume p s w))) /\
  mints_to well_formed (fst (fst (resume p s w))) /\
  address_checked (snd (fst (resume p s w))) /\
  Forall mint_well_formed (calls (snd (resume p s w))).
Proof.
  intros Hk Hm Hs Hlog.
  assert (Hsettle : always keeps_address anything (fst (settle p s)) /\
                    mints_to well_formed (fst (settle p s)) /\
                    address_checked (snd (settle p s))).
  { destruct (keeps_settle p s Hk Hs) as [H1 H2].
    pose proof (mints_to_settle well_formed p s Hm). auto. }
  destruct Hk as [a|e|f k Hf Hk|X c k Hk]; try (simpl in *; tauto).
  clear Hsettle. simpl. destruct Hm as [Hc Hm]. destruct (exec_calls c w) as [ok Hcalls].
  destruct (exec c w) as [x w']. simpl in *.
  destruct (keeps_settle (k x) s (Hk x) Hs) as [H1 H2].
  pose proof (mints_to_settle well_formed (k x) s (Hm x)) as H3.
  split; [exact H1|]. split; [exact H3|]. split; [exact H2|].
  rewrite Hcalls. apply Forall_app. split; [exact Hlog|].
  constructor; [|constructor]. unfold mint_well_formed. simpl.
  destruct (event_of c); auto.
Qed.

Lemma start_addresses {A : Type} (mk : Prog State A -> Task) (p : Prog State A)
    (s : State) (ts : list Task) :
  (forall q, always keeps_address anything q -> mints_to well_formed q ->
             task_addresses (mk q)) ->
  always keeps_address anything p -> mints_to well_formed p ->
  screen_addresses s ts ->
  screen_addresses (fst (start mk p s ts)) (snd (start mk p s ts)).
Proof.
  intros Hmk Hk Hm [Hs Hts]. unfold start.
  destruct (keeps_settle p s Hk Hs) as [H1 H2].
  pose proof (mints_to_settle well_formed p s Hm) as H3.
  destruct (settle p s) as [p' s']. simpl in *.
  split; [exact H2|]. destruct (finished p'); [exact Hts|].
  apply Forall_app. split; [exact Hts|]. constructor; [|constructor]. auto.
Qed.

Lemma task_resumed (t : Task) (s : State) (w : World) :
  task_addresses t -> address_checked s -> Forall mint_well_formed (calls w) ->
  match fst (fst (answer_task t s w)) with
  | Some t' => task_addresses t'
  | None => True
  end /\
  address_checked (snd (fst (answer_task t s w))) /\
  Forall mint_well_formed (calls (snd (answer_task t s w))).
Proof.
  intros Ht Hs Hlog.
  destruct t as [p|p|p]; simpl in Ht |- *; destruct Ht as [Hk Hm];
    destruct (resume_addresses p s w Hk Hm Hs Hlog) as (H1 & H2 & H3 & H4);
    destruct (resume p s w) as [[p' s'] w']; simpl in *;
    destruct (finished p'); simpl; auto.
Qed.

Lemma act_addresses (a : Action) (s : State) (ts : list Task) (w : World) :
  screen_addresses s ts -> Forall mint_well_formed (calls w) ->
  screen_addresses (fst (fst (act a s ts w))) (snd (fst (act a s ts w))) /\
  Forall mint_well_formed (calls (snd (act a s ts w))).
Proof.
  intros Hok Hlog. pose proof Hok as [Hs Hts].
  destruct a; unfold act;
    try (destruct (loading s); cbn [fst snd]; [split; assumption|]).
  - split; [split|]; assumption.
  - split; [split|]; assumption.
  - destruct (in_list v ageRanges); (split; [split|]; assumption).
  - destruct (in_list v genders); (split; [split|]; assumption).
  - destruct (in_list v commuteModes); (split; [split|]; assumption).
  - split; [split|]; [reflexivity | assumption | assumption].
  - (* PressClaim *)
    destruct (claim_enabled s) eqn:He; cbn [fst snd]; [|split; assumption].
    assert (Hv : well_formed (walletAddress s)).
    { unfold claim_enabled in He. apply andb_true_iff in He as [He _].
      apply andb_true_iff in He as [_ He]. unfold well_formed. rewrite <- Hs. exact He. }
    pose proof (start_addresses TClaim (claim s) s ts) as H.
    destruct (start TClaim (claim s) s ts) as [s' ts']. simpl in *.
    split; [|exact Hlog].
    apply H; [intros q Hq Hm; split; assumption | apply claim_keeps
             | apply claim_mints; exact Hv | exact Hok].
  - (* PressUpdate *)
    destruct (update_enabled s); cbn [fst snd]; [|split; assumption].
    pose proof (start_addresses TSave (updateProfile now s) s ts) as H.
    destruct (start TSave (updateProfile now s) s ts) as [s' ts']. simpl in *.
    split; [|exact Hlog].
    apply H; [intros q Hq Hm; split; assumption | apply updateProfile_keeps
             | apply updateProfile_mints | exact Hok].
  - (* Answer *)
    destruct (ts !! j) as [t|] eqn:Hj; cbn [fst snd]; [|split; assumption].
    pose proof (task_resumed t s w (Forall_lookup_1 _ _ _ _ Hts Hj) Hs Hlog)
      as (H1 & H2 & H3).
    destruct (answer_task t s w) as [[t' s'] w']. simpl in *.
    split; [|exact H3]. split; [exact H2|].
    destruct t' as [t'|]; [apply Forall_insert | apply Forall_delete]; auto.
Qed.

Lemma mount_addresses (user : option User) (store : gmap string string) :
  screen_addresses (d_state (mount user store)) (d_tasks (mount user store)).
Proof.
  unfold mount.
  pose proof (start_addresses TLoad loadLocationSharingState initial []) as H1.
  destruct (start TLoad loadLocationSharingState initial []) as [s1 ts1].
  pose proof (start_addresses TLoad getProfile s1 ts1) as H2.
  destruct (start TLoad getProfile s1 ts1) as [s2 ts2]. simpl in *.
  apply H2; [intros q Hq Hm; split; assumption | apply getProfile_keeps
            | apply getProfile_mints |].
  apply H1; [intros q Hq Hm; split; assumption | apply loadLocationSharingState_keeps
            | apply loadLocationSharingState_mints |].
  split; [reflexivity | constructor].
Qed.

Lemma system_act_addresses (i : nat) (a : Action) (sys : System) :
  system_addresses sys -> system_addresses (system_act i a sys).
Proof.
  intros [Hlog Hdev]. unfold system_act.
  destruct (devices sys !! i) as [d|] eqn:Hi; [|split; assumption].
  pose proof (act_addresses a (d_state d) (d_tasks d) (world_of d sys)
                (Forall_lookup_1 _ _ _ _ Hdev Hi) Hlog) as [H1 H2].
  destruct (act a (d_state d) (d_tasks d) (world_of d sys)) as [[s' ts'] w'].
  simpl in *. split; [exact H2|]. apply Forall_insert; auto.
Qed.

Lemma run_schedule_addresses (l : list (nat * Action)) (sys : System) :
  system_addresses sys -> system_addresses (run_schedule l sys).
Proof.
  revert sys. induction l as [|[i a] l IH]; intros sys H; simpl; auto.
  apply IH. apply system_act_addresses. exact H.
Qed.

(** X9.  Tokens are only ever minted to well-formed addresses: whatever
    the users do on their screens and whatever the calls answer, every
    [contract.mint] call made since the screens were mounted is to an
    address that [validateWalletAddress] accepts, and on every screen
    [isAddressValid] says what [validateWalletAddress] says of the address
    field. *)
Theorem mints_go_to_well_formed_addresses
    (sessions : list (option User * gmap string string))
    (table : gmap string Profile) (ledger : list (string * string))
    (flt : nat -> option JsError) (l : list (nat * Action)) :
  let sys := run_schedule l
               (mkSystem (map (fun us => mount (fst us) (snd us)) sessions)
                         table ledger [] flt) in
  Forall (fun c => forall to amount, fst c = EMint to amount ->
                   Wallet.validateWalletAddress to = true) (s_calls sys) /\
  Forall (fun d => isAddressValid (d_state d)
                   = Wallet.validateWalletAddress (walletAddress (d_state d)))
         (devices sys).
Proof.
  cbv zeta.
  assert (H : system_addresses
                (run_schedule l
                   (mkSystem (map (fun us => mount (fst us) (snd us)) sessions)
                             table ledger [] flt))).
  { apply run_schedule_addresses. split; [constructor|]. simpl.
    induction sessions as [|[user store] sessions IH]; simpl; constructor; auto.
    apply mount_addresses. }
  destruct H as [Hlog Hdev]. split.
  - eapply Forall_impl; [exact Hlog|]. intros [ev ok] Hc to amount E.
    unfold mint_well_formed in Hc. simpl in Hc, E. rewrite E in Hc. exact Hc.
  - eapply Forall_impl; [exact Hdev|]. intros d [Hs _]. exact Hs.
Qed.

End AddressFacts.

(* ===================================================================== *)
(** * One save at a time *)
(* ===================================================================== *)

Module SavingFacts.
Import JsNumber Backend Async MintAndClaim EditProfile App Behaviour Saving AppFacts.

#[local] Arguments parseFloat : simpl never.
#[local] Arguments toString : simpl never.
#[local] Arguments gt : simpl never.
#[local] Arguments le : simpl never.
#[local] Arguments nothing_to_claim : simpl never.
#[local] Arguments local_balance_of : simpl never.
#[local] Arguments balance_toString : simpl never.
#[local] Arguments JsString.or_else : simpl never.
#[local] Arguments JsString.trim : simpl never.
#[local] Arguments JsString.truthy : simpl never.
#[local] Arguments Wallet.validateWalletAddress : simpl never.

Ltac leaves := let s := fresh "s" in intros s; reflexivity.

(** Goes through a handler whose [bind]s are computed away. *)
Ltac untouched :=
  repeat (simpl;
          first
            [ apply always_ret; exact I
            | apply always_throw
            | apply always_update; [leaves|]
            | apply always_await; intros ?
            | match goal with
              | |- always _ _ ?p =>
                  match p with
                  | context [match ?x with _ => _ end] => destruct x
                  end
              end ]).

Lemma loadLocationSharingState_leaves :
  always leaves_updating anything loadLocationSharingState.
Proof. unfold loadLocationSharingState. untouched. Qed.

Lemma getProfile_leaves : always leaves_updating anything getProfile.
Proof. unfold getProfile. untouched. Qed.

Lemma claim_leaves st : always leaves_updating anything (claim st).
Proof. unfold claim, MintAndClaim.mintTokensToUser. untouched. Qed.

(** [try { p } catch { one setter; return } finally { setUpdating(false) }]
    is a save in flight when the setters of [p] leave [updating] alone. *)
Lemma saving_guarded {A : Type} (p : Prog State A)
    (g : JsError -> State -> State) (r : JsError -> A) :
  always leaves_updating anything p ->
  (forall e, leaves_updating (g e)) ->
  saving (finally (catch p (fun e => bind (set (g e)) (fun _ => Ret (r e))))
                  (set (setUpdating false))).
Proof.
  intros Hp Hh. induction Hp; simpl.
  - apply saving_release. leaves.
  - apply saving_update; [apply Hh|]. apply saving_release. leaves.
  - apply saving_update; auto.
  - apply saving_await; auto.
Qed.

(** A save that is started is finished at once, by the username check and
    with [updating] off, or is suspended at its first call with [updating]
    on. *)
Lemma save_started (now : string) (st s : State) :
  (finished (fst (settle (updateProfile now st) s)) = true /\
   updating (snd (settle (updateProfile now st) s)) = false) \/
  (finished (fst (settle (updateProfile now st) s)) = false /\
   saving (fst (settle (updateProfile now st) s)) /\
   updating (snd (settle (updateProfile now st) s)) = true).
Proof.
  unfold updateProfile. simpl.
  destruct (negb (JsString.truthy (JsString.trim (username st)))); simpl.
  - left. split; reflexivity.
  - right. split; [reflexivity|]. split; [|reflexivity].
    apply saving_await. intros user.
    apply (saving_guarded _ (fun e => setError (Some (message e))) SaveFailed).
    2:{ intros e. leaves. }
    untouched.
Qed.

(** ** Tasks going on *)

Lemma leaves_settle {A : Type} (p : Prog State A) (s : State) :
  always leaves_updating anything p ->
  always leaves_updating anything (fst (settle p s)) /\
  updating (snd (settle p s)) = updating s.
Proof.
  intros Hp.
  apply (always_settle leaves_updating anything (fun s' => updating s' = updating s) p);
    auto.
  intros f s0 Hf Hs0. rewrite Hf. exact Hs0.
Qed.

Lemma leaves_resume {A : Type} (p : Prog State A) (s : State) (w : World) :
  always leaves_updating anything p ->
  always leaves_updating anything (fst (fst (resume p s w))) /\
  updating (snd (fst (resume p s w))) = updating s.
Proof.
  intros Hp. pose proof (leaves_settle p s Hp) as Hsettle.
  destruct Hp as [a|e|f k Hf Hk|X c k Hk]; try exact Hsettle.
  simpl. destruct (exec c w) as [x w']. simpl. apply leaves_settle. apply Hk.
Qed.

Lemma saving_settle {A : Type} (p : Prog State A) :
  saving p -> forall s s0, updating s = updating s0 -> goes_on_or_stops s0 (settle p s).
Proof.
  induction 1 as [X c k Hk IH|f k Hf Hk IH|f a Hf]; intros s s0 Hs; simpl.
  - left. repeat split; auto. constructor; auto.
  - apply IH. rewrite Hf. exact Hs.
  - right. split; [reflexivity|]. simpl. apply Hf.
Qed.

Lemma saving_resume {A : Type} (p : Prog State A) (s : State) (w : World) :
  saving p -> goes_on_or_stops s (fst (resume p s w)).
Proof.
  intros Hp. destruct Hp as [X c k Hk|f k Hf Hk|f a Hf]; simpl.
  - destruct (exec c w) as [x w']. simpl. apply saving_settle; auto.
  - apply (saving_settle (Update f k)); auto. apply saving_update; auto.
  - apply (saving_settle (Update f (Ret a))); auto. apply saving_release; auto.
Qed.

(** ** Counting the saves in flight *)

Lemma saves_cons t ts : saves (t :: ts) = save_weight t + saves ts.
Proof.
  unfold saves, save_weight. rewrite filter_cons.
  case_decide as E; [rewrite E; reflexivity|].
  destruct (is_save t); [congruence | reflexivity].
Qed.

Lemma saves_app ts1 ts2 : saves (ts1 ++ ts2) = saves ts1 + saves ts2.
Proof. unfold saves. rewrite filter_app, length_app. reflexivity. Qed.

Lemma saves_lookup ts j t :
  ts !! j = Some t -> saves ts = saves (take j ts) + save_weight t + saves (drop (S j) ts).
Proof.
  intros H. rewrite <- (take_drop_middle ts j t H) at 1.
  rewrite saves_app, saves_cons. lia.
Qed.

Lemma saves_insert ts j t t' :
  ts !! j = Some t -> saves (<[j := t']> ts) + save_weight t = saves ts + save_weight t'.
Proof.
  intros H. rewrite (saves_lookup ts j t H).
  rewrite insert_take_drop by (eapply lookup_lt_Some; eauto).
  rewrite saves_app, saves_cons. lia.
Qed.

Lemma saves_delete ts j t :
  ts !! j = Some t -> saves (delete j ts) + save_weight t = saves ts.
Proof.
  intros H. rewrite (saves_lookup ts j t H).
  rewrite delete_take_drop, saves_app. lia.
Qed.

(** ** One action keeps the flag in step *)

Lemma screen_saving_same_flag (s s' : State) (ts : list Task) :
  screen_saving s ts -> updating s' = updating s -> screen_saving s' ts.
Proof. intros [Hts Hn] H. unfold screen_saving. rewrite H. auto. Qed.

(** Starting an invocation that is not a save. *)
Lemma start_other {A : Type} (mk : Prog State A -> Task) (p : Prog State A)
    (s : State) (ts : list Task) :
  (forall q, always leaves_updating anything q -> task_saving (mk q)) ->
  (forall q, is_save (mk q) = false) ->
  always leaves_updating anything p -> screen_saving s ts ->
  screen_saving (fst (start mk p s ts)) (snd (start mk p s ts)).
Proof.
  intros Hmk Hkind Hp [Hts Hn]. unfold start.
  destruct (leaves_settle p s Hp) as [Hq Hu].
  destruct (settle p s) as [p' s']. simpl in *.
  unfold screen_saving. rewrite Hu.
  destruct (finished p'); simpl; [auto|].
  split.
  - apply Forall_app. split; auto.
  - rewrite saves_app, saves_cons. unfold save_weight. rewrite Hkind.
    change (saves []) with 0. lia.
Qed.

Lemma update_enabled_idle (s : State) : update_enabled s = true -> updating s = false.
Proof.
  unfold update_enabled. intros H.
  apply andb_true_iff in H as [_ H]. apply negb_true_iff in H. exact H.
Qed.

Lemma act_saving (a : Action) (s : State) (ts : list Task) (w : World) :
  screen_saving s ts ->
  screen_saving (fst (fst (act a s ts w))) (snd (fst (act a s ts w))).
Proof.
  intros Hok. pose proof Hok as [Hts Hn].
  destruct a; unfold act; try (destruct (loading s); cbn [fst snd]; [exact Hok|]).
  - apply (screen_saving_same_flag s); auto.
  - apply (screen_saving_same_flag s); auto.
  - destruct (in_list v ageRanges); [apply (screen_saving_same_flag s)|]; auto.
  - destruct (in_list v genders); [apply (screen_saving_same_flag s)|]; auto.
  - destruct (in_list v commuteModes); [apply (screen_saving_same_flag s)|]; auto.
  - apply (screen_saving_same_flag s); auto.
  - (* PressClaim *)
    destruct (claim_enabled s); cbn [fst snd]; [|exact Hok].
    pose proof (start_other TClaim (claim s) s ts) as H.
    destruct (start TClaim (claim s) s ts) as [s' ts']. simpl in *.
    apply H; [intros q Hq; exact Hq | reflexivity | apply claim_leaves | exact Hok].
  - (* PressUpdate *)
    destruct (update_enabled s) eqn:He; cbn [fst snd]; [|exact Hok].
    pose proof (update_enabled_idle s He) as Hidle.
    unfold start.
    destruct (save_started now s s) as [[Hfin Hu]|(Hfin & Hsav & Hu)];
      destruct (settle (updateProfile now s) s) as [p' s']; simpl in *;
      rewrite Hfin; simpl; unfold screen_saving; rewrite Hu.
    + split; [exact Hts|]. rewrite Hn, Hidle. reflexivity.
    + split; [apply Forall_app; split; auto|].
      rewrite saves_app, saves_cons, Hn, Hidle. reflexivity.
  - (* Answer *)
    destruct (ts !! j) as [t|] eqn:Hj; cbn [fst snd]; [|exact Hok].
    pose proof (Forall_lookup_1 _ _ _ _ Hts Hj) as Ht.
    destruct t as [p|p|p]; simpl in Ht |- *.
    + pose proof (leaves_resume p s w Ht) as [Hq Hu].
      destruct (resume p s w) as [[p' s'] w']. simpl in *.
      unfold screen_saving. rewrite Hu.
      destruct (finished p'); simpl; split.
      * apply Forall_delete; auto.
      * pose proof (saves_delete ts j _ Hj) as Hd. unfold save_weight in Hd.
        simpl in Hd. lia.
      * apply Forall_insert; auto.
      * pose proof (saves_insert ts j _ (TClaim p') Hj) as Hi. unfold save_weight in Hi.
        simpl in Hi. lia.
    + pose proof (saving_resume p s w Ht) as Hcase.
      destruct (resume p s w) as [[p' s'] w']. simpl in *.
      pose proof (saves_lookup ts j _ Hj) as Hcount. unfold save_weight in Hcount.
      simpl in Hcount.
      assert (Hbusy : updating s = true).
      { destruct (updating s); auto. lia. }
      destruct Hcase as [(Hf & Hb & Hu)|(Hf & Hu)]; simpl in Hf, Hu; rewrite Hf; simpl;
        unfold screen_saving; rewrite Hu; split.
      * apply Forall_insert; auto.
      * pose proof (saves_insert ts j _ (TSave p') Hj) as Hi. unfold save_weight in Hi.
        simpl in Hi. lia.
      * apply Forall_delete; auto.
      * pose proof (saves_delete ts j _ Hj) as Hd. unfold save_weight in Hd.
        simpl in Hd. rewrite Hbusy in Hn. lia.
    + pose proof (leaves_resume p s w Ht) as [Hq Hu].
      destruct (resume p s w) as [[p' s'] w']. simpl in *.
      unfold screen_saving. rewrite Hu.
      destruct (finished p'); simpl; split.
      * apply Forall_delete; auto.
      * pose proof (saves_delete ts j _ Hj) as Hd. unfold save_weight in Hd.
        simpl in Hd. lia.
      * apply Forall_insert; auto.
      * pose proof (saves_insert ts j _ (TLoad p') Hj) as Hi. unfold save_weight in Hi.
        simpl in Hi. lia.
Qed.

Lemma mount_saving (user : option User) (store : gmap string string) :
  screen_saving (d_state (mount user store)) (d_tasks (mount user store)).
Proof.
  unfold mount.
  pose proof (start_other TLoad loadLocationSharingState initial []) as H1.
  destruct (start TLoad loadLocationSharingState initial []) as [s1 ts1].
  pose proof (start_other TLoad getProfile s1 ts1) as H2.
  destruct (start TLoad getProfile s1 ts1) as [s2 ts2]. simpl in *.
  apply H2; [intros q Hq; exact Hq | reflexivity | apply getProfile_leaves |].
  apply H1; [intros q Hq; exact Hq | reflexivity
            | apply loadLocationSharingState_leaves |].
  split; [constructor | reflexivity].
Qed.

Lemma run_schedule_saving (l : list (nat * Action)) (sys : System) :
  Forall (fun d => screen_saving (d_state d) (d_tasks d)) (devices sys) ->
  Forall (fun d => screen_saving (d_state d) (d_tasks d)) (devices (run_schedule l sys)).
Proof.
  revert sys. induction l as [|[i a] l IH]; intros sys H; simpl; auto.
  apply IH. unfold system_act.
  destruct (devices sys !! i) as [d|] eqn:Hi; [|exact H].
  pose proof (act_saving a (d_state d) (d_tasks d) (world_of d sys)
                (Forall_lookup_1 _ _ _ _ H Hi)) as Hok.
  destruct (act a (d_state d) (d_tasks d) (world_of d sys)) as [[s' ts'] w'].
  simpl in *. apply Forall_insert; auto.
Qed.

(** X10.  On every mounted profile screen, whatever the user does and
    whatever the calls answer, at most one save is in flight, and exactly
    while [updating] is set; and pressing Update Profile while it is set
    changes nothing. *)
Theorem one_save_in_flight_per_screen
    (sessions : list (option User * gmap string string))
    (table : gmap string Profile) (ledger : list (string * string))
    (log : list (Event * bool)) (flt : nat -> option JsError)
    (l : list (nat * Action)) :
  let sys := run_schedule l
               (mkSystem (map (fun us => mount (fst us) (snd us)) sessions)
                         table ledger log flt) in
  Forall (fun d => saves_in_flight d = (if updating (d_state d) then 1 else 0) /\
                   forall now w,
                     updating (d_state d) = true ->
                     act (PressUpdate now) (d_state d) (d_tasks d) w
                     = (d_state d, d_tasks d, w))
         (devices sys).
Proof.
  cbv zeta.
  eapply Forall_impl.
  - apply run_schedule_saving. simpl.
    induction sessions as [|[user store] sessions IH]; simpl; constructor; auto.
    apply mount_saving.
  - intros d [_ Hn]. split; [exact Hn|].
    intros now w Hu. unfold act. destruct (loading (d_state d)); [reflexivity|].
    unfold update_enabled. rewrite Hu, andb_false_r. reflexivity.
Qed.

End SavingFacts.

(* ===================================================================== *)
(** * Loading the saved state of the Rewards screen *)
(* ===================================================================== *)

Module RewardsFacts.
Import JsNumber Backend Async Invocation Stepping Scenario.
Import Rewards.

#[local] Arguments parseFloat : simpl never.
#[local] Arguments toString : simpl never.
#[local] Arguments newBalance : simpl never.
#[local] Arguments increment : simpl never.
#[local] Arguments String.eqb : simpl never.

Ltac conjuncts := repeat match goal with |- _ /\ _ => split end.

Ltac all_calls_ok :=
  match goal with
  | H : Forall _ _ |- _ =>
      repeat (apply Forall_cons_1 in H as [? H]); simpl in *; try discriminate
  end.

Ltac some_call_failed :=
  match goal with
  | H : Exists _ _ |- _ =>
      repeat (apply Exists_cons in H as [H|H]; simpl in H; try discriminate);
      try (apply Exists_nil in H; contradiction)
  end.

(** What a load leaves, by whether its calls went through. *)
Lemma loadSavedState_cases (s : State) (w : World) :
  let '(_, s', w') := run loadSavedState s w in
  Exists (fun c => snd c = false) (since w w') -> captBalance s' = zero.
Proof.
  unfold loadSavedState, STORAGE_KEYS_LOCATION_SHARING, STORAGE_KEYS_CAPT_BALANCE. simpl.
  call_cases; simpl; [show_log; reflexivity|].
  destruct (storage w !! "captur_location_sharing") as [v|] eqn:Hflag; simpl.
  - call_cases; simpl; [show_log; reflexivity|].
    destruct (storage w !! "captur_token_balance"); simpl; show_log;
      intros H; some_call_failed.
  - call_cases; simpl; [show_log; reflexivity|].
    call_cases; simpl; [show_log; reflexivity|].
    rewrite lookup_insert_ne by discriminate.
    destruct (storage w !! "captur_token_balance"); simpl; show_log;
      intros H; some_call_failed.
Qed.

(** X11.  [loadSavedState]: when every call goes through, the flag is on
    unless a string other than ['true'] is stored, a missing flag is stored
    as ['true'], and the balance is the stored string parsed, or 0 when
    none is stored.  When any call fails, the balance shown is 0, whatever
    balance is stored. *)
Theorem loadSavedState_result (s : State) (w : World) :
  let '(_, s', w') := run loadSavedState s w in
  (Forall (fun c => snd c = true) (since w w') ->
   isLocationSharingEnabled s'
     = match storage w !! STORAGE_KEYS_LOCATION_SHARING with
       | Some v => String.eqb v "true"
       | None => true
       end /\
   captBalance s'
     = match storage w !! STORAGE_KEYS_CAPT_BALANCE with
       | Some v => parseFloat v
       | None => zero
       end /\
   storage w' !! STORAGE_KEYS_LOCATION_SHARING
     = Some (default "true" (storage w !! STORAGE_KEYS_LOCATION_SHARING)) /\
   storage w' !! STORAGE_KEYS_CAPT_BALANCE = storage w !! STORAGE_KEYS_CAPT_BALANCE) /\
  (Exists (fun c => snd c = false) (since w w') -> captBalance s' = zero).
Proof.
  unfold loadSavedState, STORAGE_KEYS_LOCATION_SHARING, STORAGE_KEYS_CAPT_BALANCE. simpl.
  call_cases; simpl.
  { show_log. split; intros H; [all_calls_ok | reflexivity]. }
  destruct (storage w !! "captur_location_sharing") as [v|] eqn:Hflag; simpl.
  - call_cases; simpl.
    { show_log. split; intros H; [all_calls_ok | reflexivity]. }
    destruct (storage w !! "captur_token_balance") as [b|] eqn:Hbal; simpl; show_log;
      (split; intros H; [conjuncts; auto | some_call_failed]).
  - call_cases; simpl.
    { show_log. split; intros H; [all_calls_ok | reflexivity]. }
    call_cases; simpl.
    { show_log. split; intros H; [all_calls_ok | reflexivity]. }
    rewrite lookup_insert_ne by discriminate.
    destruct (storage w !! "captur_token_balance") as [b|] eqn:Hbal; simpl; show_log;
      (split; intros H;
       [conjuncts; rewrite ?lookup_insert_eq, ?lookup_insert_ne by discriminate; auto
       | some_call_failed]).
Qed.

Lemma load_failure_resets (s : State) (w : World) :
  Exists (fun c => snd c = false) (since w (snd (run loadSavedState s w))) ->
  captBalance (snd (fst (run loadSavedState s w))) = zero.
Proof.
  pose proof (loadSavedState_cases s w) as H. revert H.
  destruct (run loadSavedState s w) as [[out s'] w']. simpl. tauto.
Qed.

(** X12.  A load in which a call failed leaves the balance shown at 0; the
    next tick then stores a balance counted from 0 under the balance key,
    whatever balance was stored there before. *)
Theorem failed_load_loses_balance (s : State) (w : World) (random : number) :
  let '(_, s1, w1) := run loadSavedState s w in
  Exists (fun c => snd c = false) (since w w1) ->
  isLocationSharingEnabled s1 = true ->
  faults w1 (length (calls w1)) = None ->
  let '(s2, w2) := period true random s1 w1 in
  captBalance s2 = newBalance zero (increment random) /\
  storage w2 !! STORAGE_KEYS_CAPT_BALANCE
    = Some (toString (newBalance zero (increment random))).
Proof.
  pose proof (load_failure_resets s w) as Hzero.
  destruct (run loadSavedState s w) as [[out s1] w1]. simpl in Hzero.
  intros Hfail Hflag Hok. specialize (Hzero Hfail).
  unfold period, interval_running. rewrite Hflag. simpl.
  unfold tick, exec. rewrite Hok, Hzero. simpl.
  split; [reflexivity | apply lookup_insert_eq].
Qed.

Lemma failed_load_loses_balance_witness :
  let w := mkWorld (Some alice) ∅ (store "12.34") [] [] (fault_at 1 "disk full") in
  let '(_, s1, w1) := run loadSavedState initial w in
  let '(s2, w2) := period true zero s1 w1 in
  storage w !! "captur_token_balance" = Some "12.34" /\
  storage w2 !! "captur_token_balance" = Some (toString (newBalance zero (increment zero))) /\
  toString (newBalance zero (increment zero)) = "0.01".
Proof.
  intros w.
  assert (Hfail : Exists (fun c => snd c = false)
                    (since w (snd (run loadSavedState initial w))))
    by (vm_compute; apply Exists_cons_tl, Exists_cons_hd; reflexivity).
  assert (Hflag : isLocationSharingEnabled (snd (fst (run loadSavedState initial w))) = true)
    by (vm_compute; reflexivity).
  assert (Hok : faults (snd (run loadSavedState initial w))
                  (length (calls (snd (run loadSavedState initial w)))) = None)
    by (vm_compute; reflexivity).
  assert (Hs : toString (newBalance zero (increment zero)) = "0.01")
    by (vm_compute; reflexivity).
  generalize (failed_load_loses_balance initial w zero).
  destruct (run loadSavedState initial w) as [[out s1] w1]. simpl in Hfail, Hflag, Hok.
  intros H. specialize (H Hfail Hflag Hok).
  destruct (period true zero s1 w1) as [s2 w2].
  destruct H as [_ H]. split; [reflexivity|]. split; [exact H | exact Hs].
Defined.

#[local] Arguments JsString.of_bool : simpl never.

Lemma of_bool_reads_back (b : bool) : String.eqb (JsString.of_bool b) "true" = b.
Proof. destruct b; reflexivity. Qed.

(** The flag a load that went through shows, and the flag it leaves stored. *)
Lemma loadSavedState_flag (s : State) (w : World) :
  let '(_, s', w') := run loadSavedState s w in
  Forall (fun c => snd c = true) (since w w') ->
  isLocationSharingEnabled s'
    = match storage w !! STORAGE_KEYS_LOCATION_SHARING with
      | Some v => String.eqb v "true"
      | None => true
      end /\
  storage w' !! STORAGE_KEYS_LOCATION_SHARING
    = Some (default "true" (storage w !! STORAGE_KEYS_LOCATION_SHARING)).
Proof.
  unfold loadSavedState, STORAGE_KEYS_LOCATION_SHARING, STORAGE_KEYS_CAPT_BALANCE. simpl.
  call_cases; simpl.
  { show_log. intros H. all_calls_ok. }
  destruct (storage w !! "captur_location_sharing") as [v|] eqn:Hflag; simpl.
  - call_cases; simpl.
    { show_log. intros H. all_calls_ok. }
    destruct (storage w !! "captur_token_balance") as [b|] eqn:Hbal; simpl; show_log;
      intros H; conjuncts; auto.
  - call_cases; simpl.
    { show_log. intros H. all_calls_ok. }
    call_cases; simpl.
    { show_log. intros H. all_calls_ok. }
    rewrite lookup_insert_ne by discriminate.
    destruct (storage w !! "captur_token_balance") as [b|] eqn:Hbal; simpl; show_log;
      intros H; conjuncts; rewrite ?lookup_insert_eq, ?lookup_insert_ne by discriminate; auto.
Qed.

(** A save of the flag returns normally, whatever its write answers. *)
Lemma saveLocationSharingState_run (st : State) (w : World) :
  run (saveLocationSharingState st) st w
  = (Returned tt, st,
     snd (exec (storage_setItem STORAGE_KEYS_LOCATION_SHARING
                  (JsString.of_bool (isLocationSharingEnabled st))) w)).
Proof.
  unfold saveLocationSharingState. simpl. unfold exec.
  destruct (faults w (length (calls w))); reflexivity.
Qed.

(** X19.  The flag of the Rewards screen survives a reload: when the write
    of [saveLocationSharingState] and the calls of the next
    [loadSavedState] go through, the flag loaded is the flag saved.  A
    write that fails is swallowed: the save returns normally, and the
    storage keeps the flag it had, which is the flag the next load shows. *)
Theorem flag_survives_reload (st s0 : State) (w : World) :
  let '(out, st1, w1) := run (saveLocationSharingState st) st w in
  let '(_, s', w2) := run loadSavedState s0 w1 in
  out = Returned tt /\ st1 = st /\
  (faults w (length (calls w)) = None ->
   Forall (fun c => snd c = true) (since w1 w2) ->
   isLocationSharingEnabled s' = isLocationSharingEnabled st /\
   storage w2 !! STORAGE_KEYS_LOCATION_SHARING
     = Some (JsString.of_bool (isLocationSharingEnabled st))) /\
  (faults w (length (calls w)) <> None ->
   storage w1 = storage w /\
   (Forall (fun c => snd c = true) (since w1 w2) ->
    isLocationSharingEnabled s'
      = match storage w !! STORAGE_KEYS_LOCATION_SHARING with
        | Some v => String.eqb v "true"
        | None => true
        end)).
Proof.
  rewrite saveLocationSharingState_run.
  set (w1 := snd (exec (storage_setItem STORAGE_KEYS_LOCATION_SHARING
                          (JsString.of_bool (isLocationSharingEnabled st))) w)).
  pose proof (loadSavedState_flag s0 w1) as Hload.
  destruct (run loadSavedState s0 w1) as [[out' s'] w2].
  split; [reflexivity|]. split; [reflexivity|].
  subst w1. unfold exec in *.
  destruct (faults w (length (calls w))) as [e|] eqn:Hf; simpl in *.
  - split; [discriminate|]. intros _. split; [reflexivity|].
    intros Hok. exact (proj1 (Hload Hok)).
  - split; [|congruence]. intros _ Hok. specialize (Hload Hok).
    unfold STORAGE_KEYS_LOCATION_SHARING in *.
    rewrite lookup_insert_eq in Hload. simpl in Hload.
    rewrite of_bool_reads_back in Hload. exact Hload.
Qed.

End RewardsFacts.

(* ===================================================================== *)
(** * The referral card and the tweet *)
(* ===================================================================== *)

Module ReferralFacts.
Import Backend Referral.

#[local] Arguments JsString.truthy : simpl never.

Lemma try_block_keeps_error
    (getUser : Settled (option User)) (select : string -> Settled Selected)
    (s s1 : State) :
  try_block getUser select s = inr s1 ->
  errorReferralCode s1 = errorReferralCode s /\
  loadingReferralCode s1 = loadingReferralCode s.
Proof.
  unfold try_block. destruct getUser as [[user|]|e]; [| |discriminate].
  - destruct (select (user_id user)) as [r|e]; [|discriminate].
    destruct (sel_error r) as [e|]; [destruct (negb (sel_status r =? 406)%Z)|];
      try discriminate;
      destruct (sel_data r) as [row|]; intros H; injection H as <-; split; reflexivity.
  - intros H. injection H as <-. split; reflexivity.
Qed.

(** X13.  [fetchReferralCode] never clears the error cell: once a fetch has
    failed with a message, a later fetch that goes through, also one that
    finds the code, ends with the card showing the old message instead of
    the code. *)
Theorem stale_referral_error
    (getUser : Settled (option User)) (select : string -> Settled Selected)
    (s s1 : State) (msg : string) :
  errorReferralCode s = Some msg -> JsString.truthy msg = true ->
  try_block getUser select (setLoadingReferralCode true s) = inr s1 ->
  shown (fetchReferralCode getUser select s) = ErrorText msg /\
  referralCode (fetchReferralCode getUser select s) = referralCode s1.
Proof.
  intros He Hm Htry. unfold fetchReferralCode. cbv zeta. rewrite Htry.
  destruct (try_block_keeps_error _ _ _ _ Htry) as [He1 _]. simpl in He1.
  unfold shown. simpl. rewrite He1, He. simpl. rewrite Hm. split; reflexivity.
Qed.

Lemma stale_referral_error_witness :
  let failed := fetchReferralCode (Rejected (Error "Network request failed"))
                                  found_code initial in
  let again := fetchReferralCode (Resolved (Some (mkUser "u1" "alice@example.org")))
                                 found_code failed in
  shown failed = ErrorText "Network request failed" /\
  referralCode again = Some "CAPT-7Q2" /\
  shown again = ErrorText "Network request failed".
Proof.
  intros failed again.
  destruct (stale_referral_error (Resolved (Some (mkUser "u1" "alice@example.org")))
              found_code failed
              (setReferralCode (Some "CAPT-7Q2") (setLoadingReferralCode true failed))
              "Network request failed" eq_refl eq_refl eq_refl) as [H1 H2].
  split; [reflexivity|]. split; [exact H2 | exact H1].
Defined.

(** X14.  Whenever the share button is enabled, the code cell holds a
    non-empty string other than ['Error'], and the tweet either names that
    code or, exactly when the cell holds ['N/A'], names no code. *)
Theorem share_names_real_code_only (s : State) :
  share_disabled s = false ->
  exists code,
    referralCode s = Some code /\ code <> "" /\ code <> "Error" /\
    tweetText s =
      tweet_start +:+
      (if bool_decide (code = "N/A") then ""
       else newline +:+ newline +:+ "Use my referral code: " +:+ code).
Proof.
  unfold share_disabled, tweetText. intros H.
  apply orb_false_iff in H as [H Herr]. apply orb_false_iff in H as [_ Hcode].
  apply negb_false_iff in Hcode.
  destruct (referralCode s) as [code|]; [|discriminate]. exists code.
  simpl in Hcode |- *. rewrite Hcode. simpl.
  apply bool_decide_eq_false in Herr.
  split; [reflexivity|]. split.
  { intros ->. discriminate. }
  split; [congruence|].
  rewrite (bool_decide_eq_false_2 (Some code = Some "Error")) by exact Herr. simpl.
  rewrite andb_true_r.
  destruct (decide (code = "N/A")) as [->|Hne].
  - reflexivity.
  - rewrite (bool_decide_eq_false_2 (Some code = Some "N/A")) by congruence.
    rewrite (bool_decide_eq_false_2 (code = "N/A")) by exact Hne. reflexivity.
Qed.

Lemma share_names_real_code_only_witness :
  let s := fetchReferralCode (Resolved (Some (mkUser "u1" "alice@example.org")))
                             found_code initial in
  share_disabled s = false /\
  tweetText s = tweet_start +:+ newline +:+ newline +:+ "Use my referral code: CAPT-7Q2".
Proof.
  intros s.
  destruct (share_names_real_code_only s eq_refl) as (code & Hc & _ & _ & Ht).
  injection Hc as <-. split; [reflexivity | exact Ht].
Defined.

End ReferralFacts.

(* ===================================================================== *)
(** * The arithmetic of Numbers rounds to nearest *)
(* ===================================================================== *)

Module ExactFacts.
Import QArith Qround Lqa Qpower Qabs JsNumber Exact.
Local Open Scope Q_scope.

#[local] Arguments pow2 : simpl never.
#[local] Arguments F2Q : simpl never.

Lemma pow2_pos e : 0 < pow2 e.
Proof. unfold pow2. apply Qpower_0_lt. reflexivity. Qed.

Lemma pow2_add a b : pow2 (a + b) == pow2 a * pow2 b.
Proof. unfold pow2. apply Qpower_plus. discriminate. Qed.

Lemma pow2_succ e : pow2 (e + 1) == 2 * pow2 e.
Proof. rewrite pow2_add. unfold pow2 at 2. simpl. lra. Qed.

Lemma pow2_pred e : pow2 e == 2 * pow2 (e - 1).
Proof. rewrite <- pow2_succ. replace (e - 1 + 1)%Z with e by lia. reflexivity. Qed.

Lemma pow2_Z e : (0 <= e)%Z -> pow2 e == inject_Z (2 ^ e).
Proof. intros H. unfold pow2. rewrite Zpower_Qpower by exact H. reflexivity. Qed.

Lemma pow2_le a b : (a <= b)%Z -> pow2 a <= pow2 b.
Proof. intros H. unfold pow2. apply Qpower_le_compat_l; [exact H | lra]. Qed.

Lemma pow2_lt a b : (a < b)%Z -> pow2 a < pow2 b.
Proof. intros H. unfold pow2. apply Qpower_lt_compat_l; [exact H | lra]. Qed.

Lemma pow2_sub_Z a b : (b <= a)%Z -> pow2 a == inject_Z (2 ^ (a - b)) * pow2 b.
Proof.
  intros H. rewrite <- pow2_Z by lia. rewrite <- pow2_add.
  replace (a - b + b)%Z with a by lia. reflexivity.
Qed.

Lemma F2Q_le m n e : (m <= n)%Z -> F2Q m e <= F2Q n e.
Proof.
  intros H. unfold F2Q. apply Qmult_le_compat_r.
  - rewrite <- Zle_Qle. exact H.
  - apply Qlt_le_weak, pow2_pos.
Qed.

Lemma F2Q_lt m n e : (m < n)%Z -> F2Q m e < F2Q n e.
Proof.
  intros H. unfold F2Q. apply Qmult_lt_compat_r.
  - apply pow2_pos.
  - rewrite <- Zlt_Qlt. exact H.
Qed.

Lemma F2Q_le_inv m n e : F2Q m e <= F2Q n e -> (m <= n)%Z.
Proof.
  intros H. destruct (Z_le_gt_dec m n) as [|Hgt]; [assumption|].
  exfalso. apply (Qlt_not_le _ _ (F2Q_lt n m e ltac:(lia))). exact H.
Qed.

Lemma F2Q_lt_inv m n e : F2Q m e < F2Q n e -> (m < n)%Z.
Proof.
  intros H. destruct (Z_lt_ge_dec m n) as [|Hge]; [assumption|].
  exfalso. apply (Qle_not_lt _ _ (F2Q_le n m e ltac:(lia))). exact H.
Qed.

(** The same real with a smaller exponent. *)
Lemma F2Q_shift m e k : (0 <= k)%Z -> F2Q m e == F2Q (m * 2 ^ k) (e - k).
Proof.
  intros H. unfold F2Q. rewrite inject_Z_mult.
  rewrite (pow2_sub_Z e (e - k)) by lia.
  replace (e - (e - k))%Z with k by lia. ring.
Qed.

Lemma F2Q_plus m n e : F2Q (m + n) e == F2Q m e + F2Q n e.
Proof. unfold F2Q. rewrite inject_Z_plus. ring. Qed.

Lemma F2Q_0 e : F2Q 0 e == 0.
Proof. unfold F2Q. simpl. ring. Qed.

Lemma F2Q_pos m e : (0 < m)%Z -> 0 < F2Q m e.
Proof. intros H. rewrite <- (F2Q_0 e). apply F2Q_lt. exact H. Qed.

(** ** Binary digits *)

Lemma digits2_pos_spec (m : positive) :
  (2 ^ (Z.pos (digits2_pos m) - 1) <= Z.pos m < 2 ^ Z.pos (digits2_pos m))%Z.
Proof.
  induction m as [p IH|p IH|]; simpl digits2_pos.
  - rewrite Pos2Z.inj_succ.
    replace (Z.succ (Z.pos (digits2_pos p)) - 1)%Z with (Z.succ (Z.pos (digits2_pos p) - 1)) by lia.
    rewrite !Z.pow_succ_r by lia. lia.
  - rewrite Pos2Z.inj_succ.
    replace (Z.succ (Z.pos (digits2_pos p)) - 1)%Z with (Z.succ (Z.pos (digits2_pos p) - 1)) by lia.
    rewrite !Z.pow_succ_r by lia. lia.
  - simpl. lia.
Qed.

Lemma Zdigits2_spec (m : Z) :
  (0 < m)%Z -> (2 ^ (Zdigits2 m - 1) <= m < 2 ^ Zdigits2 m)%Z /\ (0 < Zdigits2 m)%Z.
Proof.
  destruct m as [|p|p]; try lia. intros _. simpl. split; [apply digits2_pos_spec | lia].
Qed.

(** The number of digits is fixed by the powers of two around. *)
Lemma Zdigits2_unique (m d : Z) :
  (0 < d)%Z -> (2 ^ (d - 1) <= m < 2 ^ d)%Z -> Zdigits2 m = d.
Proof.
  intros Hd [Hlo Hhi].
  assert (Hm : (0 < m)%Z) by (pose proof (Z.pow_pos_nonneg 2 (d - 1)); lia).
  destruct (Zdigits2_spec m Hm) as [[Hl Hh] Hp].
  destruct (Z.lt_trichotomy (Zdigits2 m) d) as [Hlt|[Heq|Hgt]]; [|exact Heq|].
  - assert (2 ^ Zdigits2 m <= 2 ^ (d - 1))%Z by (apply Z.pow_le_mono_r; lia). lia.
  - assert (2 ^ d <= 2 ^ (Zdigits2 m - 1))%Z by (apply Z.pow_le_mono_r; lia). lia.
Qed.

Lemma Zdigits2_le_pow (m k : Z) : (0 < m)%Z -> (0 <= k)%Z -> (m < 2 ^ k)%Z -> (Zdigits2 m <= k)%Z.
Proof.
  intros Hm Hk Hlt. destruct (Zdigits2_spec m Hm) as [[Hl Hh] Hp].
  destruct (Z_le_gt_dec (Zdigits2 m) k) as [|Hgt]; [assumption|].
  assert (2 ^ k <= 2 ^ (Zdigits2 m - 1))%Z by (apply Z.pow_le_mono_r; lia). lia.
Qed.

Lemma Zdigits2_ge_pow (m k : Z) : (0 <= k)%Z -> (2 ^ k <= m)%Z -> (k + 1 <= Zdigits2 m)%Z.
Proof.
  intros Hk Hle.
  assert (Hm : (0 < m)%Z) by (pose proof (Z.pow_pos_nonneg 2 k); lia).
  destruct (Zdigits2_spec m Hm) as [[Hl Hh] Hp].
  destruct (Z_le_gt_dec (k + 1) (Zdigits2 m)) as [|Hgt]; [assumption|].
  assert (2 ^ Zdigits2 m <= 2 ^ k)%Z by (apply Z.pow_le_mono_r; lia). lia.
Qed.

(** ** Shifting right *)

Ltac push_inject :=
  unfold F2Q;
  repeat first [rewrite inject_Z_plus | rewrite inject_Z_mult | rewrite inject_Z_opp];
  change (inject_Z 0) with 0; change (inject_Z 1) with 1; change (inject_Z 2) with 2.

Lemma inbetween_halve (q : Z) (b r s : bool) (e : Z) (z : Q) :
  inbetween (2 * q + Z.b2z b) r s e z -> inbetween q b (r || s) (e + 1) z.
Proof.
  unfold inbetween.
  replace (e + 1 - 1)%Z with e by lia.
  push_inject.
  rewrite !pow2_succ, !(pow2_pred e).
  pose proof (pow2_pos (e - 1)) as Ht. revert Ht.
  generalize (pow2 (e - 1)). intros t Ht.
  set (a := inject_Z q).
  destruct b, r, s; simpl Z.b2z; simpl orb; push_inject; fold a;
    intros ((H1 & H2) & (H3 & H4) & (H5 & H6));
    (split; [split; lra|]); (split; split; intros H; try discriminate; try reflexivity).
  all: lra.
Qed.

Lemma shr_1_holds (mrs : shr_record) (e : Z) (z : Q) :
  holds mrs e z ->
  holds (shr_1 mrs) (e + 1) z /\ shr_m (shr_1 mrs) = (shr_m mrs / 2)%Z.
Proof.
  destruct mrs as [m r s]. unfold holds. intros [Hm H]. simpl in Hm, H.
  assert (Hshr : shr_1 (Build_shr_record m r s)
                 = Build_shr_record (Z.div2 m) (Z.odd m) (r || s)).
  { destruct m as [|[p|p|]|p]; try reflexivity. lia. }
  rewrite Hshr. simpl. rewrite <- Z.div2_div. split; [|reflexivity].
  split; [apply Z.div2_nonneg; exact Hm|].
  apply inbetween_halve. rewrite <- Z.div2_odd. exact H.
Qed.

Lemma iter_pos_holds (n : positive) (mrs : shr_record) (e : Z) (z : Q) :
  holds mrs e z ->
  holds (SpecFloat.iter_pos shr_1 n mrs) (e + Z.pos n) z /\
  shr_m (SpecFloat.iter_pos shr_1 n mrs) = (shr_m mrs / 2 ^ Z.pos n)%Z.
Proof.
  revert mrs e. induction n as [n IH|n IH|]; intros mrs e H; simpl SpecFloat.iter_pos.
  - destruct (shr_1_holds mrs e z H) as [H1 E1].
    destruct (IH _ _ H1) as [H2 E2]. destruct (IH _ _ H2) as [H3 E3].
    replace (e + Z.pos n~1)%Z with (e + 1 + Z.pos n + Z.pos n)%Z by lia.
    split; [exact H3|]. rewrite E3, E2, E1.
    rewrite !Z.div_div by (try lia; apply Z.pow_pos_nonneg; lia).
    f_equal. replace (Z.pos n~1) with (1 + Z.pos n + Z.pos n)%Z by lia.
    rewrite !Z.pow_add_r by lia. change (2 ^ 1)%Z with 2%Z. lia.
  - destruct (IH _ _ H) as [H2 E2]. destruct (IH _ _ H2) as [H3 E3].
    replace (e + Z.pos n~0)%Z with (e + Z.pos n + Z.pos n)%Z by lia.
    split; [exact H3|]. rewrite E3, E2.
    rewrite !Z.div_div by (try lia; apply Z.pow_pos_nonneg; lia).
    f_equal. replace (Z.pos n~0) with (Z.pos n + Z.pos n)%Z by lia.
    rewrite !Z.pow_add_r by lia. lia.
  - destruct (shr_1_holds mrs e z H) as [H1 E1]. split; [exact H1|].
    rewrite E1. reflexivity.
Qed.

(** [shr] by [n >= 0] places. *)
Lemma shr_holds (mrs : shr_record) (e n : Z) (z : Q) :
  (0 <= n)%Z -> holds mrs e z ->
  holds (fst (shr mrs e n)) (e + n) z /\
  snd (shr mrs e n) = (e + n)%Z /\
  shr_m (fst (shr mrs e n)) = (shr_m mrs / 2 ^ n)%Z.
Proof.
  intros Hn H. destruct n as [|p|p]; simpl; [| |lia].
  - rewrite Z.add_0_r, Z.div_1_r. auto.
  - destruct (iter_pos_holds p mrs e z H) as [H1 E1]. auto.
Qed.

Lemma holds_of_loc (m : Z) (l : location) (e : Z) (z : Q) (r s : bool) :
  (0 <= m)%Z -> inbetween m r s e z ->
  shr_record_of_loc m l = Build_shr_record m r s ->
  holds (shr_record_of_loc m l) e z.
Proof. intros Hm H ->. split; assumption. Qed.

Lemma holds_exact (m e : Z) :
  (0 <= m)%Z -> holds (shr_record_of_loc m loc_Exact) e (F2Q m e).
Proof.
  intros Hm. split; [exact Hm|]. simpl. unfold inbetween.
  pose proof (pow2_pos (e - 1)) as Ht. revert Ht.
  push_inject. rewrite !(pow2_pred e). generalize (pow2 (e - 1)). intros t Ht.
  split; [split; lra|]. split; split; intros H; try discriminate; try reflexivity.
  - lra.
  - left. reflexivity.
Qed.

(** ** The exponent of a rounded result *)

Lemma fexp_eq (x : Z) : fexp prec emax x = Z.max (x - 53) (-1074).
Proof. reflexivity. Qed.

Lemma emin_eq : emin = (-1074)%Z.
Proof. reflexivity. Qed.

Lemma bounded_spec (p : positive) (e : Z) :
  bounded prec emax p e = true <->
  (Z.max (Z.pos (digits2_pos p) + e - 53) (-1074) = e /\ e <= 971)%Z.
Proof.
  unfold bounded, canonical_mantissa. rewrite fexp_eq, andb_true_iff, Z.eqb_eq, Z.leb_le.
  change (emax - prec)%Z with 971%Z. reflexivity.
Qed.

(** A positive Number is subnormal, with exponent [emin], or has 53 bits. *)
Lemma bounded_cases (p : positive) (e : Z) :
  bounded prec emax p e = true ->
  (-1074 <= e <= 971)%Z /\ (Z.pos p < 2 ^ 53)%Z /\ (e = (-1074)%Z \/ (2 ^ 52 <= Z.pos p)%Z).
Proof.
  rewrite bounded_spec. intros [Hc He].
  pose proof (digits2_pos_spec p) as [Hlo Hhi].
  assert (Hd : (Z.pos (digits2_pos p) <= 53)%Z) by lia.
  split; [lia|]. split.
  - assert (2 ^ Z.pos (digits2_pos p) <= 2 ^ 53)%Z by (apply Z.pow_le_mono_r; lia). lia.
  - destruct (Z.eq_dec e (-1074)) as [|Hne]; [left; assumption|right].
    assert (Z.pos (digits2_pos p) = 53%Z) as Hd53 by lia.
    rewrite Hd53 in Hlo. exact Hlo.
Qed.

Lemma bounded_intro (p : positive) (e : Z) :
  (-1074 <= e <= 971)%Z -> (Z.pos p < 2 ^ 53)%Z ->
  (e = (-1074)%Z \/ (2 ^ 52 <= Z.pos p)%Z) ->
  bounded prec emax p e = true.
Proof.
  intros He Hp Hn. rewrite bounded_spec. split; [|lia].
  assert (Hd : (Z.pos (digits2_pos p) <= 53)%Z).
  { change (Z.pos (digits2_pos p)) with (Zdigits2 (Z.pos p)).
    apply Zdigits2_le_pow; lia. }
  destruct Hn as [->|Hn]; [lia|].
  assert (53 <= Z.pos (digits2_pos p))%Z.
  { change (Z.pos (digits2_pos p)) with (Zdigits2 (Z.pos p)).
    apply (Zdigits2_ge_pow _ 52); lia. }
  lia.
Qed.

(** No Number lies strictly between two neighbours. *)
Lemma no_number_between (m e : Z) (f : Q) :
  representable f -> (-1074 <= e)%Z -> (0 <= m)%Z ->
  (e = (-1074)%Z \/ (2 ^ 52 <= m)%Z) ->
  f <= F2Q m e \/ F2Q (m + 1) e <= f.
Proof.
  intros (N & E & HN & HE & ->) He Hm Hn. rewrite emin_eq in HE.
  change prec with 53%Z in HN. change (emax - prec)%Z with 971%Z in HE.
  destruct (Z_le_gt_dec e E) as [Hle|Hgt].
  - rewrite (F2Q_shift N E (E - e)) by lia.
    replace (E - (E - e))%Z with e by lia.
    destruct (Z_le_gt_dec (N * 2 ^ (E - e)) m) as [H|H].
    + left. apply F2Q_le. exact H.
    + right. apply F2Q_le. lia.
  - left. destruct Hn as [->|Hn]; [lia|].
    rewrite (F2Q_shift m e (e - E)) by lia.
    replace (e - (e - E))%Z with E by lia.
    apply F2Q_le.
    assert (H1 : (2 ^ 1 <= 2 ^ (e - E))%Z) by (apply Z.pow_le_mono_r; lia).
    assert (H2 : (2 ^ 52 * 2 ^ 1 <= m * 2 ^ (e - E))%Z)
      by (apply Z.mul_le_mono_nonneg; lia).
    change (2 ^ 52 * 2 ^ 1)%Z with (2 ^ 53)%Z in H2. lia.
Qed.

(** ** Rounding to nearest *)

Lemma middle (m e : Z) : 2 * F2Q (2 * m + 1) (e - 1) == F2Q m e + F2Q (m + 1) e.
Proof. push_inject. rewrite (pow2_pred e). ring. Qed.

Lemma round_nearest_even_spec (m : Z) (r s : bool) (e : Z) (z : Q) :
  inbetween m r s e z ->
  (round_nearest_even m (loc_of_shr_record (Build_shr_record m r s)) = m /\
   2 * z <= F2Q m e + F2Q (m + 1) e) \/
  (round_nearest_even m (loc_of_shr_record (Build_shr_record m r s)) = (m + 1)%Z /\
   F2Q m e + F2Q (m + 1) e <= 2 * z).
Proof.
  unfold inbetween. pose proof (middle m e) as Hmid. revert Hmid.
  generalize (F2Q (2 * m + 1) (e - 1)) (F2Q m e) (F2Q (m + 1) e).
  intros mid lo hi Hmid ((H1 & H2) & (H3 & H4) & (H5 & H6)).
  destruct r, s; simpl.
  - right. split; [reflexivity|]. assert (mid <= z) by auto. lra.
  - assert (mid <= z) by auto.
    assert (z == lo \/ z == mid) as [|] by auto; [lra|].
    destruct (Z.even m); [left | right]; split; try reflexivity; lra.
  - left. split; [reflexivity|].
    destruct (Qlt_le_dec z mid) as [|Hge]; [lra|]. apply H4 in Hge. discriminate.
  - left. split; [reflexivity|].
    destruct (Qlt_le_dec z mid) as [|Hge]; [lra|]. apply H4 in Hge. discriminate.
Qed.

Lemma shr_not_positive (mrs : shr_record) (e n : Z) :
  (n <= 0)%Z -> shr mrs e n = (mrs, e).
Proof. destruct n; try reflexivity. lia. Qed.

(** The shift after rounding: only a mantissa that became [2^53] moves. *)
Lemma shr_fexp_rounded (mr e : Z) :
  (-1074 <= e)%Z -> (0 <= mr <= 2 ^ 53)%Z ->
  shr_fexp prec emax mr e loc_Exact =
  if (mr =? 2 ^ 53)%Z
  then (Build_shr_record (2 ^ 52) false false, (e + 1)%Z)
  else (Build_shr_record mr false false, e).
Proof.
  intros He Hm. unfold shr_fexp. rewrite fexp_eq.
  destruct (Z.eqb_spec mr (2 ^ 53)) as [->|Hne].
  - change (Zdigits2 (2 ^ 53)) with 54%Z.
    replace (Z.max (54 + e - 53) (-1074) - e)%Z with 1%Z by lia.
    reflexivity.
  - apply shr_not_positive.
    destruct (Z.eq_dec mr 0) as [->|Hpos]; [simpl; lia|].
    assert (Zdigits2 mr <= 53)%Z by (apply Zdigits2_le_pow; lia). lia.
Qed.

Lemma nearer_neighbours (lo hi v f z : Q) :
  lo <= z < hi -> (f <= lo \/ hi <= f) ->
  (v == lo /\ 2 * z <= lo + hi) \/ (v == hi /\ lo + hi <= 2 * z) ->
  nearer v f z.
Proof. unfold nearer. intros [H1 H2] [H|H] [[Hv Hz]|[Hv Hz]]; split; lra. Qed.

Lemma shr_m_of_loc (m : Z) (l : location) : shr_m (shr_record_of_loc m l) = m.
Proof. destruct l as [|[]]; reflexivity. Qed.

Lemma representable_nonneg (f : Q) : representable f -> 0 <= f.
Proof.
  intros (N & E & HN & _ & ->). rewrite <- (F2Q_0 E). apply F2Q_le. lia.
Qed.

(** Every Number is below [2^53 * 2^971]. *)
Lemma representable_below (f : Q) (m e : Z) :
  representable f -> (971 < e)%Z -> (2 ^ 52 <= m)%Z -> f < F2Q m e.
Proof.
  intros (N & E & HN & HE & ->) He Hm.
  change prec with 53%Z in HN. change (emax - prec)%Z with 971%Z in HE.
  rewrite (F2Q_shift m e (e - E)) by lia.
  replace (e - (e - E))%Z with E by lia.
  apply F2Q_lt.
  assert (H1 : (2 ^ 1 <= 2 ^ (e - E))%Z) by (apply Z.pow_le_mono_r; lia).
  assert (H2 : (2 ^ 52 * 2 ^ 1 <= m * 2 ^ (e - E))%Z)
    by (apply Z.mul_le_mono_nonneg; lia).
  change (2 ^ 52 * 2 ^ 1)%Z with (2 ^ 53)%Z in H2. lia.
Qed.

(** The heart of every operation: a positive real given by its place
    between two multiples of [2^e], with [e] at most the exponent of the
    result, is rounded to a nearest Number. *)
Lemma binary_round_aux_rounded (m e : Z) (l : location) (z : Q) :
  (0 < m)%Z -> holds (shr_record_of_loc m l) e z ->
  (e <= fexp prec emax (Zdigits2 m + e))%Z ->
  rounded z (binary_round_aux prec emax false m e l).
Proof.
  intros Hm Hz Hn. rewrite fexp_eq in Hn.
  unfold binary_round_aux. unfold shr_fexp at 1. rewrite fexp_eq.
  set (n := (Z.max (Zdigits2 m + e - 53) (-1074) - e)%Z).
  assert (Hn0 : (0 <= n)%Z) by lia.
  destruct (shr_holds _ e n z Hn0 Hz) as (H1 & H2 & H3).
  destruct (shr (shr_record_of_loc m l) e n) as [mrs' e'].
  simpl in H1, H2, H3. subst e'. rewrite shr_m_of_loc in H3.
  destruct mrs' as [m' r s]. destruct H1 as [Hm'0 Hin]. simpl in Hm'0, Hin, H3.
  destruct (Zdigits2_spec m Hm) as [[Hdl Hdh] Hdp].
  assert (Hpn : (0 < 2 ^ n)%Z) by (apply Z.pow_pos_nonneg; lia).
  assert (Hm'53 : (m' < 2 ^ 53)%Z).
  { subst m'. apply Z.div_lt_upper_bound; [exact Hpn|].
    rewrite <- Z.pow_add_r by lia.
    assert (2 ^ Zdigits2 m <= 2 ^ (n + 53))%Z by (apply Z.pow_le_mono_r; lia). lia. }
  assert (Hnorm : (e + n = -1074 \/ 2 ^ 52 <= m')%Z).
  { destruct (Z.eq_dec (e + n) (-1074)) as [|Hne]; [left; assumption|right].
    subst m'. apply Z.div_le_lower_bound; [exact Hpn|].
    rewrite <- Z.pow_add_r by lia.
    assert (2 ^ (n + 52) <= 2 ^ (Zdigits2 m - 1))%Z by (apply Z.pow_le_mono_r; lia). lia. }
  assert (He' : (-1074 <= e + n)%Z) by lia.
  clear H3 Hdl Hdh Hdp Hz Hn.
  pose proof (fun f Hf => no_number_between m' (e + n) f Hf He' Hm'0 Hnorm) as Hgap.
  assert (Hlohi : F2Q m' (e + n) <= z < F2Q (m' + 1) (e + n)) by apply Hin.
  cbn [shr_m].
  destruct (round_nearest_even_spec m' r s (e + n) z Hin) as [[-> Hz2]|[-> Hz2]];
    rewrite shr_fexp_rounded by lia.
  - destruct (Z.eqb_spec m' (2 ^ 53)) as [|_]; [lia|]. simpl shr_m.
    destruct m' as [|p|p]; [| |lia].
    + intros f Hf. apply (nearer_neighbours (F2Q 0 (e + n)) (F2Q (0 + 1) (e + n))); auto.
      left. split; [rewrite F2Q_0; reflexivity | exact Hz2].
    + destruct (Z.leb_spec (e + n) (emax - prec)) as [Hle|Hgt];
        change (emax - prec)%Z with 971%Z in *.
      * split; [apply bounded_intro; lia|].
        intros f Hf.
        apply (nearer_neighbours (F2Q (Z.pos p) (e + n)) (F2Q (Z.pos p + 1) (e + n))); auto.
        left. split; [reflexivity | exact Hz2].
      * intros f Hf. destruct Hnorm as [|Hnorm]; [lia|].
        apply Qlt_le_trans with (F2Q (Z.pos p) (e + n)); [|apply Hlohi].
        apply representable_below; assumption.
  - destruct (Z.eqb_spec (m' + 1) (2 ^ 53)) as [Htop|Hlow]; simpl shr_m.
    + change (2 ^ 52)%Z with (Z.pos (2 ^ 52)).
      assert (Hv : F2Q (Z.pos (2 ^ 52)) (e + n + 1) == F2Q (m' + 1) (e + n)).
      { rewrite Htop. rewrite (F2Q_shift _ (e + n + 1) 1) by lia.
        replace (e + n + 1 - 1)%Z with (e + n)%Z by lia. reflexivity. }
      destruct (Z.leb_spec (e + n + 1) (emax - prec)) as [Hle|Hgt];
        change (emax - prec)%Z with 971%Z in *.
      * split; [apply bounded_intro; lia|].
        intros f Hf.
        apply (nearer_neighbours (F2Q m' (e + n)) (F2Q (m' + 1) (e + n))); auto.
      * intros f Hf.
        pose proof (representable_below f (Z.pos (2 ^ 52)) (e + n + 1) Hf
                      ltac:(lia) ltac:(reflexivity)) as Hb.
        destruct (Hgap f Hf) as [Hlo|Hhi].
        -- pose proof (F2Q_lt m' (m' + 1) (e + n) ltac:(lia)). lra.
        -- exfalso. rewrite <- Hv in Hhi. lra.
    + assert (exists p, (m' + 1)%Z = Z.pos p) as [p Ep]
        by (exists (Z.to_pos (m' + 1)); rewrite Z2Pos.id; lia).
      rewrite Ep at 1.
      destruct (Z.leb_spec (e + n) (emax - prec)) as [Hle|Hgt];
        change (emax - prec)%Z with 971%Z in *.
      * split; [apply bounded_intro; lia|].
        intros f Hf. rewrite <- Ep.
        apply (nearer_neighbours (F2Q m' (e + n)) (F2Q (m' + 1) (e + n))); auto.
        right. split; [reflexivity | exact Hz2].
      * intros f Hf. destruct Hnorm as [|Hnorm]; [lia|].
        apply Qlt_le_trans with (F2Q m' (e + n)); [|apply Hlohi].
        apply representable_below; assumption.
Qed.

Lemma nearer_proper (v v' f z z' : Q) : v == v' -> z == z' -> nearer v f z -> nearer v' f z'.
Proof. unfold nearer. intros Hv Hz [[H1|H1] [H2|H2]]; split; lra. Qed.

Lemma rounded_proper (z z' : Q) (x : number) : z == z' -> rounded z x -> rounded z' x.
Proof.
  intros Hz. destruct x as [[]|[]| |[] m e]; simpl; auto.
  - intros H f Hf. apply (nearer_proper 0 0 f z z'); auto. reflexivity.
  - intros H f Hf. rewrite <- Hz. auto.
  - intros [Hb H]. split; [exact Hb|]. intros f Hf.
    apply (nearer_proper _ _ f z z' (Qeq_refl _) Hz). auto.
Qed.

(** A Number is the rounding of its own value. *)
Lemma rounded_self (x : number) : nonneg x -> rounded (value x) x.
Proof.
  destruct x as [[]|[]| |[] m e]; simpl; try tauto.
  - intros _ f Hf. pose proof (representable_nonneg f Hf). unfold nearer. lra.
  - intros Hb. split; [exact Hb|]. intros f Hf. unfold nearer.
    destruct (Qlt_le_dec f (F2Q (Z.pos m) e)); lra.
Qed.

Lemma value_nonneg (x : number) : nonneg x -> 0 <= value x.
Proof.
  destruct x as [[]|[]| |[] m e]; simpl; try tauto; try lra.
  intros _. apply Qlt_le_weak, F2Q_pos. reflexivity.
Qed.

(** ** Shifting left *)

Lemma iter_xO (d m : positive) : Z.pos (Pos.iter xO m d) = (Z.pos m * 2 ^ Z.pos d)%Z.
Proof.
  induction d as [|d IH] using Pos.peano_ind.
  - simpl. lia.
  - rewrite Pos.iter_succ, Pos2Z.inj_xO, IH, Pos2Z.inj_succ, Z.pow_succ_r by lia. lia.
Qed.

Lemma shl_align_spec (mx : positive) (ex ex' : Z) :
  snd (shl_align mx ex ex') = Z.min ex ex' /\
  Z.pos (fst (shl_align mx ex ex')) = (Z.pos mx * 2 ^ (ex - Z.min ex ex'))%Z.
Proof.
  unfold shl_align. destruct (ex' - ex)%Z as [|d|d] eqn:E; simpl.
  - replace (Z.min ex ex') with ex by lia. rewrite Z.sub_diag. simpl. lia.
  - replace (Z.min ex ex') with ex by lia. rewrite Z.sub_diag. simpl. lia.
  - replace (Z.min ex ex') with ex' by lia. split; [reflexivity|].
    rewrite iter_xO. f_equal. f_equal. lia.
Qed.

Lemma shl_align_value (mx : positive) (ex ex' : Z) :
  F2Q (Z.pos (fst (shl_align mx ex ex'))) (Z.min ex ex') == F2Q (Z.pos mx) ex.
Proof.
  destruct (shl_align_spec mx ex ex') as [_ ->].
  rewrite (F2Q_shift (Z.pos mx) ex (ex - Z.min ex ex')) by lia.
  replace (ex - (ex - Z.min ex ex'))%Z with (Z.min ex ex') by lia. reflexivity.
Qed.

Lemma Zdigits2_shift (m k : Z) :
  (0 < m)%Z -> (0 <= k)%Z -> Zdigits2 (m * 2 ^ k) = (Zdigits2 m + k)%Z.
Proof.
  intros Hm Hk. destruct (Zdigits2_spec m Hm) as [[Hl Hh] Hp].
  assert (Hpk : (0 < 2 ^ k)%Z) by (apply Z.pow_pos_nonneg; lia).
  apply Zdigits2_unique; [lia|].
  replace (Zdigits2 m + k - 1)%Z with (Zdigits2 m - 1 + k)%Z by lia.
  rewrite !Z.pow_add_r by lia. nia.
Qed.

(** [binary_round] rounds [m * 2^e]. *)
Lemma binary_round_rounded (m : positive) (e : Z) :
  rounded (F2Q (Z.pos m) e) (binary_round prec emax false m e).
Proof.
  unfold binary_round. set (e' := fexp prec emax (Z.pos (digits2_pos m) + e)).
  pose proof (shl_align_spec m e e') as [He Hm].
  pose proof (shl_align_value m e e') as Hv.
  destruct (shl_align m e e') as [mz ez]. simpl in He, Hm, Hv. subst ez.
  apply (rounded_proper _ _ _ Hv).
  apply binary_round_aux_rounded; [reflexivity | apply holds_exact; lia |].
  rewrite Hm, Zdigits2_shift by lia.
  change (Zdigits2 (Z.pos m)) with (Z.pos (digits2_pos m)).
  subst e'. rewrite !fexp_eq. lia.
Qed.

(** ** Addition and multiplication *)

Lemma rounded_zero : rounded 0 (S754_zero false).
Proof. apply (rounded_self (S754_zero false)). exact I. Qed.

Theorem add_rounded (x y : number) :
  nonneg x -> nonneg y -> rounded (value x + value y) (add x y).
Proof.
  intros Hx Hy.
  destruct x as [[]|[]| |[] mx ex]; simpl in Hx; try tauto;
    destruct y as [[]|[]| |[] my ey]; simpl in Hy; try tauto.
  - apply (rounded_proper 0); [simpl; lra | apply rounded_zero].
  - apply (rounded_proper (value (S754_finite false my ey))); [simpl; lra|].
    apply rounded_self. exact Hy.
  - apply (rounded_proper (value (S754_finite false mx ex))); [simpl; lra|].
    apply rounded_self. exact Hx.
  - unfold add, SFadd. cbv zeta. unfold cond_Zopp. simpl Z.add.
    unfold binary_normalize.
    pose proof (shl_align_value mx ex (Z.min ex ey)) as Hvx.
    pose proof (shl_align_value my ey (Z.min ex ey)) as Hvy.
    replace (Z.min ex (Z.min ex ey)) with (Z.min ex ey) in Hvx by lia.
    replace (Z.min ey (Z.min ex ey)) with (Z.min ex ey) in Hvy by lia.
    eapply rounded_proper; [|apply binary_round_rounded].
    simpl value. rewrite <- Hvx, <- Hvy, Pos2Z.inj_add, F2Q_plus. reflexivity.
Qed.

Lemma F2Q_mult (m n e k : Z) : F2Q (m * n) (e + k) == F2Q m e * F2Q n k.
Proof. unfold F2Q. rewrite inject_Z_mult, pow2_add. ring. Qed.

Theorem mul_rounded (x y : number) :
  nonneg x -> nonneg y -> rounded (value x * value y) (mul x y).
Proof.
  intros Hx Hy.
  destruct x as [[]|[]| |[] mx ex]; simpl in Hx; try tauto;
    destruct y as [[]|[]| |[] my ey]; simpl in Hy; try tauto;
    try (apply (rounded_proper 0); [simpl; lra | apply rounded_zero]).
  unfold mul, SFmul. simpl xorb.
  eapply rounded_proper;
    [|apply (binary_round_aux_rounded (Z.pos (mx * my)) (ex + ey) loc_Exact
               (F2Q (Z.pos (mx * my)) (ex + ey)))].
  - simpl value. rewrite Pos2Z.inj_mul. apply F2Q_mult.
  - reflexivity.
  - apply holds_exact. lia.
  - rewrite fexp_eq.
    destruct (bounded_cases mx ex Hx) as (Hex & Hmx & Hnx).
    destruct (bounded_cases my ey Hy) as (Hey & Hmy & Hny).
    rewrite Pos2Z.inj_mul.
    destruct Hnx as [Hnx|Hnx], Hny as [Hny|Hny].
    + lia.
    + assert (2 ^ 52 <= Z.pos mx * Z.pos my)%Z by nia.
      pose proof (Zdigits2_ge_pow (Z.pos mx * Z.pos my) 52 ltac:(lia) H). lia.
    + assert (2 ^ 52 <= Z.pos mx * Z.pos my)%Z by nia.
      pose proof (Zdigits2_ge_pow (Z.pos mx * Z.pos my) 52 ltac:(lia) H). lia.
    + assert (2 ^ 104 <= Z.pos mx * Z.pos my)%Z.
      { change (2 ^ 104)%Z with (2 ^ 52 * 2 ^ 52)%Z. apply Z.mul_le_mono_nonneg; lia. }
      pose proof (Zdigits2_ge_pow (Z.pos mx * Z.pos my) 104 ltac:(lia) H). lia.
Qed.

(** ** Division *)

Lemma holds_of_fraction (q e : Z) (u z : Q) (l : location) :
  (0 <= q)%Z -> z == F2Q q e + u -> 0 <= u < pow2 e ->
  match l with
  | loc_Exact => u == 0
  | loc_Inexact Lt => 0 < u /\ 2 * u < pow2 e
  | loc_Inexact Eq => 2 * u == pow2 e
  | loc_Inexact Gt => pow2 e < 2 * u
  end ->
  holds (shr_record_of_loc q l) e z.
Proof.
  intros Hq Hz Hu Hl. split; [rewrite shr_m_of_loc; exact Hq|].
  pose proof (pow2_pos (e - 1)) as Ht. revert Hz Hu Hl Ht.
  destruct l as [|[]]; simpl; unfold inbetween; push_inject; rewrite !(pow2_pred e);
    generalize (pow2 (e - 1)) (inject_Z q); intros t a Hz Hu Hl Ht;
    (split; [split; lra|]); (split; split; intros H; try discriminate; try reflexivity);
    lra.
Qed.

Lemma new_location_spec (k r : Z) :
  (0 < k)%Z -> (0 <= r < k)%Z ->
  match new_location k r with
  | loc_Exact => r = 0%Z
  | loc_Inexact Lt => (0 < r /\ 2 * r < k)%Z
  | loc_Inexact Eq => (2 * r = k)%Z
  | loc_Inexact Gt => (k < 2 * r)%Z
  end.
Proof.
  intros Hk Hr. unfold new_location, new_location_even, new_location_odd.
  destruct (Z.even k) eqn:Ek; destruct (Z.eqb_spec r 0) as [|Hne]; try assumption.
  - destruct (Z.compare_spec (2 * r) k); lia.
  - assert (Ho : Z.odd k = true) by (rewrite <- Z.negb_even, Ek; reflexivity).
    apply Z.odd_spec in Ho as [j Hj].
    destruct (Z.compare_spec (2 * r + 1) k); lia.
Qed.

Lemma fexp_mono (a b : Z) : (a <= b)%Z -> (fexp prec emax a <= fexp prec emax b)%Z.
Proof. rewrite !fexp_eq. lia. Qed.

Lemma F2Q_bounds (m e : Z) :
  (0 < m)%Z -> pow2 (Zdigits2 m - 1 + e) <= F2Q m e < pow2 (Zdigits2 m + e).
Proof.
  intros Hm. destruct (Zdigits2_spec m Hm) as [[Hl Hh] Hp].
  rewrite !pow2_add, (pow2_Z (Zdigits2 m - 1)), (pow2_Z (Zdigits2 m)) by lia. unfold F2Q.
  pose proof (pow2_pos e). split.
  - apply Qmult_le_compat_r; [rewrite <- Zle_Qle; exact Hl | lra].
  - apply Qmult_lt_compat_r; [lra | rewrite <- Zlt_Qlt; exact Hh].
Qed.

Theorem div_rounded (x y : number) :
  nonneg x -> nonneg y -> 0 < value y ->
  pow2 (-1021) <= value x / value y ->
  rounded (value x / value y) (div x y).
Proof.
  intros Hx Hy Hypos Hbig.
  destruct y as [[]|[]| |[] my ey]; simpl in Hy, Hypos; try tauto; try lra.
  destruct x as [[]|[]| |[] mx ex]; simpl in Hx; try tauto.
  { exfalso. change (value (S754_zero false)) with 0 in Hbig.
    pose proof (pow2_pos (-1021)).
    unfold Qdiv in Hbig. rewrite Qmult_0_l in Hbig. lra. }
  simpl value in *. unfold div, SFdiv, SFdiv_core_binary. cbv zeta.
  change (Zdigits2 (Z.pos mx)) with (Z.pos (digits2_pos mx)).
  change (Zdigits2 (Z.pos my)) with (Z.pos (digits2_pos my)).
  set (d1 := Z.pos (digits2_pos mx)). set (d2 := Z.pos (digits2_pos my)).
  set (X := (d1 + ex - (d2 + ey))%Z).
  set (e' := Z.min (fexp prec emax X) (ex - ey)).
  set (s := (ex - ey - e')%Z).
  assert (Hs : (0 <= s)%Z) by (subst s e'; lia).
  pose proof (F2Q_bounds (Z.pos mx) ex ltac:(lia)) as [Hxl Hxh].
  pose proof (F2Q_bounds (Z.pos my) ey ltac:(lia)) as [Hyl Hyh].
  change (Zdigits2 (Z.pos mx)) with d1 in Hxl, Hxh.
  change (Zdigits2 (Z.pos my)) with d2 in Hyl, Hyh.
  (* the quotient is not tiny *)
  assert (HX : (-1021 <= X)%Z).
  { destruct (Z_le_gt_dec (-1021) X) as [|Hgt]; [assumption|exfalso].
    assert (Hlt : F2Q (Z.pos mx) ex / F2Q (Z.pos my) ey < pow2 (-1021)).
    { apply Qlt_shift_div_r; [exact Hypos|].
      apply Qlt_le_trans with (pow2 (d1 + ex)); [exact Hxh|].
      apply Qle_trans with (pow2 (-1021) * pow2 (d2 - 1 + ey)).
      - rewrite <- pow2_add. apply pow2_le. subst X. lia.
      - apply Qmult_le_l; [apply pow2_pos | exact Hyl]. }
    lra. }
  pose proof (proj1 (bounded_spec mx ex) Hx) as [Hcx _]. fold d1 in Hcx.
  assert (Hd2 : (0 < d2)%Z) by (subst d2; lia).
  assert (He' : e' = (X - 53)%Z) by (subst e' X; rewrite fexp_eq; lia).
  assert (Hm' : match s with
                | Z.pos _ => Z.shiftl (Z.pos mx) s
                | 0%Z => Z.pos mx
                | Z.neg _ => 0%Z
                end = (Z.pos mx * 2 ^ s)%Z).
  { destruct s as [|p|p] eqn:Es; [simpl; lia | apply Z.shiftl_mul_pow2; lia | lia]. }
  rewrite Hm'. set (m' := (Z.pos mx * 2 ^ s)%Z).
  pose proof (Z_div_mod m' (Z.pos my) ltac:(lia)) as Hdiv.
  destruct (Z.div_eucl m' (Z.pos my)) as [q r]. destruct Hdiv as [Hqr Hr].
  simpl xorb.
  pose proof (new_location_spec (Z.pos my) r ltac:(lia) Hr) as Hloc.
  assert (Hps : (0 < 2 ^ s)%Z) by (apply Z.pow_pos_nonneg; lia).
  (* the quotient has at least 53 bits *)
  assert (Hq : (2 ^ 52 <= q)%Z).
  { assert (H1 : (2 ^ (d1 - 1) <= Z.pos mx)%Z) by apply digits2_pos_spec.
    assert (H2 : (Z.pos my < 2 ^ d2)%Z) by apply digits2_pos_spec.
    assert (Hs53 : (s = 53 + d2 - d1)%Z) by (subst s X; lia).
    assert (H3 : (2 ^ (d1 - 1) * 2 ^ s <= m')%Z) by (subst m'; nia).
    rewrite <- Z.pow_add_r in H3 by (subst d1; lia).
    replace (d1 - 1 + s)%Z with (52 + d2)%Z in H3 by lia.
    rewrite Z.pow_add_r in H3 by (subst d2; lia).
    destruct (Z_le_gt_dec (2 ^ 52) q) as [|Hgt]; [assumption|exfalso].
    assert (q + 1 <= 2 ^ 52)%Z by lia.
    assert (Z.pos my * (q + 1) <= Z.pos my * 2 ^ 52)%Z by (apply Z.mul_le_mono_nonneg_l; lia).
    assert (Z.pos my * 2 ^ 52 < 2 ^ d2 * 2 ^ 52)%Z by (apply Z.mul_lt_mono_pos_r; lia).
    lia. }
  set (u := inject_Z r / inject_Z (Z.pos my) * pow2 e').
  assert (Hmy : 0 < inject_Z (Z.pos my)) by (rewrite <- (Zlt_Qlt 0); lia).
  assert (Hz : F2Q (Z.pos mx) ex / F2Q (Z.pos my) ey == F2Q q e' + u).
  { subst u. unfold F2Q.
    assert (Hex : pow2 ex == inject_Z (2 ^ s) * pow2 e' * pow2 ey).
    { rewrite <- pow2_Z, <- !pow2_add by lia. replace (s + e' + ey)%Z with ex by (subst s; lia).
      reflexivity. }
    assert (Hm'Q : inject_Z (Z.pos mx) * inject_Z (2 ^ s)
                   == inject_Z (Z.pos my) * inject_Z q + inject_Z r).
    { rewrite <- !inject_Z_mult, <- inject_Z_plus. subst m'. rewrite Hqr. reflexivity. }
    rewrite Hex. pose proof (pow2_pos ey) as Hty. pose proof (pow2_pos e') as Ht.
    revert Hm'Q Hmy Hty Ht.
    generalize (inject_Z (Z.pos mx)) (inject_Z (2 ^ s)) (inject_Z (Z.pos my))
               (inject_Z q) (inject_Z r) (pow2 e') (pow2 ey).
    intros A B Y Qq R t ty HAB HY Hty Ht.
    transitivity (A * B * t / Y); [field; split; lra|].
    rewrite HAB. field. lra. }
  assert (Hu : 0 <= u < pow2 e').
  { subst u. pose proof (pow2_pos e') as Ht. split.
    - apply Qmult_le_0_compat; [|lra].
      apply Qle_shift_div_l; [exact Hmy|]. rewrite Qmult_0_l, <- (Zle_Qle 0). lia.
    - rewrite <- (Qmult_1_l (pow2 e')) at 2. apply Qmult_lt_compat_r; [exact Ht|].
      apply Qlt_shift_div_r; [exact Hmy|]. rewrite Qmult_1_l, <- Zlt_Qlt. lia. }
  apply binary_round_aux_rounded with (z := F2Q (Z.pos mx) ex / F2Q (Z.pos my) ey).
  - lia.
  - apply (holds_of_fraction q e' u); [lia | exact Hz | exact Hu |].
    pose proof (pow2_pos e') as Ht.
    assert (Hru : forall k : Z, 2 * u - inject_Z k * pow2 e'
                  == inject_Z (2 * r - k * Z.pos my) / inject_Z (Z.pos my) * pow2 e').
    { intros k. subst u. unfold Z.sub.
      rewrite inject_Z_plus, inject_Z_opp, !inject_Z_mult.
      change (inject_Z 2) with 2. revert Hmy.
      generalize (inject_Z (Z.pos my)) (inject_Z r) (inject_Z k) (pow2 e').
      intros Y R K t HY. field. lra. }
    destruct (new_location (Z.pos my) r) as [|[]].
    + subst u r. unfold Qdiv. simpl. ring.
    + specialize (Hru 1%Z). change (inject_Z 1) with 1 in Hru.
      replace (2 * r - 1 * Z.pos my)%Z with 0%Z in Hru by lia.
      unfold Qdiv in Hru. rewrite !Qmult_0_l in Hru. lra.
    + destruct Hloc as [Hr0 Hr2]. split.
      * subst u. apply Qmult_lt_0_compat; [|exact Ht].
        apply Qlt_shift_div_l; [exact Hmy|]. rewrite Qmult_0_l, <- (Zlt_Qlt 0). lia.
      * specialize (Hru 1%Z). change (inject_Z 1) with 1 in Hru.
        assert (inject_Z (2 * r - 1 * Z.pos my) / inject_Z (Z.pos my) * pow2 e' < 0).
        { rewrite <- (Qmult_0_l (pow2 e')). apply Qmult_lt_compat_r; [exact Ht|].
          apply Qlt_shift_div_r; [exact Hmy|]. rewrite Qmult_0_l, <- (Zlt_Qlt _ 0). lia. }
        lra.
    + specialize (Hru 1%Z). change (inject_Z 1) with 1 in Hru.
      assert (0 < inject_Z (2 * r - 1 * Z.pos my) / inject_Z (Z.pos my) * pow2 e').
      { apply Qmult_lt_0_compat; [|exact Ht].
        apply Qlt_shift_div_l; [exact Hmy|]. rewrite Qmult_0_l, <- (Zlt_Qlt 0). lia. }
      lra.
  - assert (HXq : (X <= Zdigits2 q + e')%Z).
    { pose proof (Zdigits2_ge_pow q 52 ltac:(lia) Hq). lia. }
    pose proof (fexp_mono _ _ HXq) as Hmono.
    pose proof (Z.le_min_l (fexp prec emax X) (ex - ey)) as Hmin. fold e' in Hmin.
    exact (Z.le_trans _ _ _ Hmin Hmono).
Qed.

End ExactFacts.
(* ===================================================================== *)
(** * What a rounding is bounded by *)
(* ===================================================================== *)

Module RoundingFacts.
Import QArith Qround Lqa Qpower Qabs JsNumber Exact ExactFacts.
Local Open Scope Q_scope.

#[local] Arguments pow2 : simpl never.
#[local] Arguments F2Q : simpl never.

Lemma nonneg_representable (x : number) : nonneg x -> representable (value x).
Proof.
  destruct x as [[]|[]| |[] m e]; simpl; try tauto.
  - intros _. exists 0%Z, 0%Z. rewrite emin_eq. repeat split; try (vm_compute; congruence).
  - intros Hb. destruct (bounded_cases m e Hb) as (He & Hm & _).
    exists (Z.pos m), e. rewrite emin_eq. change prec with 53%Z. change (emax - 53)%Z with 971%Z.
    repeat split; try lia. 
Qed.

(** A rounding of [z] is not above a Number above [z]. *)
Lemma rounded_le (z f : Q) (x : number) :
  rounded z x -> representable f -> z <= f -> nonneg x /\ value x <= f.
Proof.
  intros Hr Hf Hz. destruct x as [[]|[]| |[] m e]; simpl in *; try tauto.
  - split; [exact I|]. apply representable_nonneg. exact Hf.
  - specialize (Hr f Hf). lra.
  - destruct Hr as [Hb Hr]. split; [exact Hb|].
    destruct (Hr f Hf) as [[H|H] _]; lra.
Qed.

Lemma rounded_ge (z f : Q) (x : number) :
  rounded z x -> nonneg x -> representable f -> f <= z -> f <= value x.
Proof.
  intros Hr Hx Hf Hz. destruct x as [[]|[]| |[] m e]; simpl in *; try tauto.
  - destruct (Hr f Hf) as [_ [H|H]]; lra.
  - destruct Hr as [Hb Hr]. destruct (Hr f Hf) as [_ [H|H]]; lra.
Qed.

Lemma rounded_nearer (z f : Q) (x : number) :
  rounded z x -> nonneg x -> representable f -> nearer (value x) f z.
Proof.
  intros Hr Hx Hf. destruct x as [[]|[]| |[] m e]; simpl in *; try tauto.
  - auto.
  - destruct Hr as [_ Hr]. auto.
Qed.

(** A real that is a Number is rounded to itself. *)
Lemma rounded_exact (z : Q) (x : number) :
  rounded z x -> representable z -> nonneg x /\ value x == z.
Proof.
  intros Hr Hz. destruct (rounded_le z z x Hr Hz ltac:(lra)) as [Hx Hle].
  split; [exact Hx|].
  pose proof (rounded_ge z z x Hr Hx Hz ltac:(lra)). lra.
Qed.

(** Below the middle of two neighbours the rounding is the lower one or less,
    above it the upper one or more. *)
Lemma rounded_down (z : Q) (x : number) (m e : Z) :
  rounded z x -> (-1074 <= e)%Z -> (0 <= m)%Z -> (e = (-1074)%Z \/ (2 ^ 52 <= m)%Z) ->
  representable (F2Q m e) -> representable (F2Q (m + 1) e) ->
  2 * z < F2Q m e + F2Q (m + 1) e ->
  nonneg x /\ value x <= F2Q m e.
Proof.
  intros Hr He Hm Hn Hlo Hhi Hz.
  assert (Hlt : F2Q m e < F2Q (m + 1) e) by (apply F2Q_lt; lia).
  destruct (rounded_le z (F2Q (m + 1) e) x Hr Hhi ltac:(lra)) as [Hx Hle].
  split; [exact Hx|].
  destruct (no_number_between m e (value x) (nonneg_representable x Hx) He Hm Hn) as [H|H];
    [exact H|].
  destruct (rounded_nearer z (F2Q m e) x Hr Hx Hlo) as [[H1|H1] _]; lra.
Qed.

Lemma rounded_up (z : Q) (x : number) (m e : Z) :
  rounded z x -> nonneg x -> (-1074 <= e)%Z -> (0 <= m)%Z ->
  (e = (-1074)%Z \/ (2 ^ 52 <= m)%Z) ->
  representable (F2Q m e) -> representable (F2Q (m + 1) e) ->
  F2Q m e + F2Q (m + 1) e < 2 * z ->
  F2Q (m + 1) e <= value x.
Proof.
  intros Hr Hx He Hm Hn Hlo Hhi Hz.
  assert (Hlt : F2Q m e < F2Q (m + 1) e) by (apply F2Q_lt; lia).
  destruct (no_number_between m e (value x) (nonneg_representable x Hx) He Hm Hn) as [H|H];
    [|exact H].
  destruct (rounded_nearer z (F2Q (m + 1) e) x Hr Hx Hhi) as [_ [H1|H1]]; lra.
Qed.

Lemma representable_intro (m e : Z) :
  (0 <= m <= 2 ^ 53)%Z -> (-1074 <= e <= 970)%Z -> representable (F2Q m e).
Proof.
  intros Hm He. destruct (Z.eq_dec m (2 ^ 53)) as [->|Hne].
  - exists (2 ^ 52)%Z, (e + 1)%Z. rewrite emin_eq.
    change prec with 53%Z. change (emax - 53)%Z with 971%Z.
    split; [lia|]. split; [lia|].
    rewrite (F2Q_shift (2 ^ 52) (e + 1) 1) by lia.
    replace (e + 1 - 1)%Z with e by lia. reflexivity.
  - exists m, e. rewrite emin_eq.
    change prec with 53%Z. change (emax - 53)%Z with 971%Z.
    split; [lia|]. split; [lia|]. reflexivity.
Qed.

(** The error of a rounding: half a unit in the last place. *)
Lemma rounded_error (z : Q) (x : number) (k : Z) :
  rounded z x -> (-1074 <= k <= 970)%Z -> 0 <= z <= pow2 (k + 53) ->
  nonneg x /\ z - pow2 (k - 1) <= value x <= z + pow2 (k - 1).
Proof.
  intros Hr Hk [Hz0 Hz1].
  pose proof (pow2_pos k) as Hpk. pose proof (pow2_pred k) as Hpred.
  set (n := Qfloor (z / pow2 k)).
  assert (Hn : inject_Z n * pow2 k <= z < inject_Z (n + 1) * pow2 k).
  { pose proof (Qfloor_le (z / pow2 k)) as H1. pose proof (Qlt_floor (z / pow2 k)) as H2.
    fold n in H1, H2. split.
    - apply Qle_shift_div_l in H1 || idtac.
      apply (Qmult_le_compat_r _ _ (pow2 k)) in H1; [|lra].
      unfold Qdiv in H1. rewrite <- Qmult_assoc, (Qmult_comm (/ pow2 k)), Qmult_inv_r in H1 by lra.
      lra.
    - apply (Qmult_lt_compat_r _ _ (pow2 k)) in H2; [|lra].
      unfold Qdiv in H2. rewrite <- Qmult_assoc, (Qmult_comm (/ pow2 k)), Qmult_inv_r in H2 by lra.
      lra. }
  fold (F2Q n k) in Hn. fold (F2Q (n + 1) k) in Hn.
  assert (Hn0 : (0 <= n)%Z).
  { destruct (Z_le_gt_dec 0 n) as [|Hgt]; [assumption|exfalso].
    assert (F2Q (n + 1) k <= F2Q 0 k) by (apply F2Q_le; lia).
    rewrite F2Q_0 in H. lra. }
  assert (Hn1 : (n <= 2 ^ 53)%Z).
  { destruct (Z_le_gt_dec n (2 ^ 53)) as [|Hgt]; [assumption|exfalso].
    assert (F2Q (2 ^ 53 + 1) k <= F2Q n k) by (apply F2Q_le; lia).
    assert (F2Q (2 ^ 53) k < F2Q (2 ^ 53 + 1) k) by (apply F2Q_lt; lia).
    assert (F2Q (2 ^ 53) k == pow2 (k + 53)).
    { unfold F2Q. rewrite pow2_add, (pow2_Z 53) by lia. ring. }
    lra. }
  destruct (Z.eq_dec n (2 ^ 53)) as [E|Hne].
  - assert (Hz : z == F2Q (2 ^ 53) k).
    { assert (F2Q (2 ^ 53) k == pow2 (k + 53)).
      { unfold F2Q. rewrite pow2_add, (pow2_Z 53) by lia. ring. }
      rewrite E in Hn. lra. }
    assert (Hrep : representable z).
    { destruct (representable_intro (2 ^ 53) k ltac:(lia) Hk) as (N & E' & H1 & H2 & H3).
      exists N, E'. split; [exact H1|]. split; [exact H2|]. rewrite Hz. exact H3. }
    destruct (rounded_exact z x Hr Hrep) as [Hx Hv].
    split; [exact Hx|]. pose proof (pow2_pos (k - 1)). lra.
  - assert (Hlo : representable (F2Q n k)) by (apply representable_intro; lia).
    assert (Hhi : representable (F2Q (n + 1) k)) by (apply representable_intro; lia).
    destruct (rounded_le z _ x Hr Hhi ltac:(lra)) as [Hx Hle].
    pose proof (rounded_ge z _ x Hr Hx Hlo ltac:(lra)) as Hge.
    split; [exact Hx|].
    pose proof (rounded_nearer z _ x Hr Hx Hlo) as [Ha Hb].
    pose proof (rounded_nearer z _ x Hr Hx Hhi) as [Hc Hd].
    assert (Hgap : F2Q (n + 1) k == F2Q n k + 2 * pow2 (k - 1)).
    { rewrite F2Q_plus.
      assert (F2Q 1 k == pow2 k) by (unfold F2Q; change (inject_Z 1) with 1; ring).
      lra. }
    lra.
Qed.

End RoundingFacts.
(* ===================================================================== *)
(** * Comparing Numbers *)
(* ===================================================================== *)

Module OrderFacts.
Import QArith Qround Lqa Qpower Qabs JsNumber Exact ExactFacts RoundingFacts.
Local Open Scope Q_scope.

#[local] Arguments pow2 : simpl never.
#[local] Arguments F2Q : simpl never.

(** Of two positive Numbers the one with the smaller exponent is smaller. *)
Lemma smaller_exponent (m1 m2 : positive) (e1 e2 : Z) :
  bounded prec emax m1 e1 = true -> bounded prec emax m2 e2 = true ->
  (e1 < e2)%Z -> F2Q (Z.pos m1) e1 < F2Q (Z.pos m2) e2.
Proof.
  intros H1 H2 He.
  destruct (bounded_cases m1 e1 H1) as (Hr1 & Hm1 & _).
  destruct (bounded_cases m2 e2 H2) as (Hr2 & _ & [E|Hm2]); [lia|].
  rewrite (F2Q_shift (Z.pos m2) e2 (e2 - e1)) by lia.
  replace (e2 - (e2 - e1))%Z with e1 by lia.
  apply F2Q_lt.
  assert (Hp : (2 ^ 1 <= 2 ^ (e2 - e1))%Z) by (apply Z.pow_le_mono_r; lia).
  assert (Hq : (2 ^ 52 * 2 ^ 1 <= Z.pos m2 * 2 ^ (e2 - e1))%Z)
    by (apply Z.mul_le_mono_nonneg; lia).
  change (2 ^ 52 * 2 ^ 1)%Z with (2 ^ 53)%Z in Hq. lia.
Qed.

(** The comparison of two Numbers that are not negative is the comparison of
    the reals they stand for, and two of them that compare equal are the
    same. *)
Lemma compare_spec (x y : number) :
  nonneg x -> nonneg y ->
  match SFcompare x y with
  | Some Lt => value x < value y
  | Some Eq => x = y
  | Some Gt => value y < value x
  | None => False
  end.
Proof.
  destruct x as [[]|[]| |[] m1 e1]; simpl nonneg; try tauto;
    destruct y as [[]|[]| |[] m2 e2]; simpl nonneg; try tauto; intros H1 H2.
  - reflexivity.
  - simpl. apply F2Q_pos. reflexivity.
  - simpl. apply F2Q_pos. reflexivity.
  - unfold SFcompare. simpl value.
    destruct (Z.compare_spec e1 e2) as [->|He|He].
    + change (PosDef.Pos.compare_cont Eq m1 m2) with (Pos.compare m1 m2).
      destruct (Pos.compare_spec m1 m2) as [->|Hm|Hm].
      * reflexivity.
      * apply F2Q_lt. lia.
      * apply F2Q_lt. lia.
    + apply smaller_exponent; assumption.
    + apply smaller_exponent; assumption.
Qed.

Lemma lt_value (x y : number) :
  nonneg x -> nonneg y -> (lt x y = true <-> value x < value y).
Proof.
  intros Hx Hy. pose proof (compare_spec x y Hx Hy) as H. unfold lt, SFltb.
  destruct (SFcompare x y) as [[]|]; [subst y| | |contradiction];
    (split; [intros E; try discriminate E; try assumption | intros E; try reflexivity; exfalso; lra]).
Qed.

Lemma le_value (x y : number) :
  nonneg x -> nonneg y -> (le x y = true <-> value x <= value y).
Proof.
  intros Hx Hy. pose proof (compare_spec x y Hx Hy) as H. unfold le, SFleb.
  destruct (SFcompare x y) as [[]|]; [subst y| | |contradiction];
    (split; [intros E; try discriminate E; lra | intros E; try reflexivity; exfalso; lra]).
Qed.

(** Two Numbers that are not negative and stand for the same real are the
    same. *)
Lemma value_inj (x y : number) :
  nonneg x -> nonneg y -> value x == value y -> x = y.
Proof.
  intros Hx Hy E. pose proof (compare_spec x y Hx Hy) as H.
  destruct (SFcompare x y) as [[]|]; [exact H | exfalso; lra | exfalso; lra | contradiction].
Qed.

End OrderFacts.
(* ===================================================================== *)
(** * The ticks of the Rewards screen *)
(* ===================================================================== *)

Module TickFacts.
Import QArith Qround Lqa Qpower Qabs.
Import JsNumber Backend Async Invocation Stepping Scenario Rewards.
Import Exact ExactFacts RoundingFacts OrderFacts Ticks.
Local Open Scope Q_scope.

#[local] Arguments pow2 : simpl never.
#[local] Arguments F2Q : simpl never.
#[local] Arguments toString : simpl never.
#[local] Arguments newBalance : simpl never.
#[local] Arguments increment : simpl never.

(** [Math.round] of a Number that is not negative is the whole number [n]
    with [n <= x + 1/2 < n + 1]. *)
Lemma Math_round_spec (x : number) :
  nonneg x ->
  exists n : Z, nonneg (Math_round x) /\ value (Math_round x) == inject_Z n /\
                inject_Z n <= value x + (1 # 2) < inject_Z n + 1.
Proof.
  destruct x as [[]|[]| |[] m e]; simpl nonneg; try tauto.
  - intros _. exists 0%Z. unfold Math_round.
    change (value (S754_zero false)) with 0. change (inject_Z 0) with 0.
    split; [exact I|]. split; [reflexivity|]. split; lra.
  - intros Hb. unfold Math_round. destruct (Z.leb_spec 0 e) as [He|He].
    + exists (Z.pos m * 2 ^ e)%Z. split; [exact Hb|].
      assert (Hv : value (S754_finite false m e) == inject_Z (Z.pos m * 2 ^ e)).
      { simpl. unfold F2Q. rewrite inject_Z_mult, pow2_Z by lia. reflexivity. }
      split; [exact Hv|]. rewrite Hv. split; lra.
    + destruct (bounded_cases m e Hb) as (Hre & Hm & _).
      set (t := (2 ^ (- e))%Z).
      assert (Ht : (2 <= t)%Z).
      { subst t. change 2%Z with (2 ^ 1)%Z at 1. apply Z.pow_le_mono_r; lia. }
      assert (Hn : Z.shiftr (2 * Z.pos m + Z.shiftl 1 (- e)) (1 - e)
                   = ((2 * Z.pos m + t) / (2 * t))%Z).
      { rewrite Z.shiftr_div_pow2, Z.shiftl_mul_pow2 by lia.
        replace (1 - e)%Z with (1 + - e)%Z by lia.
        rewrite Z.pow_add_r by lia. subst t. f_equal. lia. }
      rewrite Hn. set (n := ((2 * Z.pos m + t) / (2 * t))%Z).
      pose proof (Z_div_mod_eq_full (2 * Z.pos m + t) (2 * t)) as Hdm.
      pose proof (Z.mod_pos_bound (2 * Z.pos m + t) (2 * t) ltac:(lia)) as Hmod.
      fold n in Hdm.
      assert (Hn0 : (0 <= n)%Z) by (subst n; apply Z.div_pos; lia).
      assert (Hnm : (n <= Z.pos m)%Z) by nia.
      (* the value plus one half, as a fraction *)
      assert (Hval : (value (S754_finite false m e) + (1 # 2)) * inject_Z (2 * t)
                     == inject_Z (2 * Z.pos m + t)).
      { simpl value. unfold F2Q.
        assert (Hte : pow2 e * inject_Z t == 1).
        { subst t. rewrite <- pow2_Z, <- pow2_add by lia.
          replace (e + - e)%Z with 0%Z by lia. reflexivity. }
        rewrite inject_Z_plus, !inject_Z_mult. change (inject_Z 2) with 2.
        revert Hte. generalize (inject_Z (Z.pos m)) (pow2 e) (inject_Z t).
        intros M P T Hte.
        transitivity (2 * M * (P * T) + T); [ring|]. rewrite Hte. ring. }
      assert (Htq : 0 < inject_Z (2 * t)) by (rewrite <- (Zlt_Qlt 0); lia).
      assert (Hlow : inject_Z n <= value (S754_finite false m e) + (1 # 2)).
      { apply (Qmult_le_r _ _ (inject_Z (2 * t))); [exact Htq|].
        rewrite Hval, <- inject_Z_mult, <- Zle_Qle. lia. }
      assert (Hhigh : value (S754_finite false m e) + (1 # 2) < inject_Z n + 1).
      { apply (Qmult_lt_r _ _ (inject_Z (2 * t))); [exact Htq|].
        change 1 with (inject_Z 1). rewrite Hval, <- inject_Z_plus, <- inject_Z_mult, <- Zlt_Qlt.
        lia. }
      exists n. unfold binary_normalize.
      destruct n as [|p|p] eqn:En; [| |lia].
      * split; [exact I|]. split; [reflexivity|]. split; assumption.
      * pose proof (binary_round_rounded p 0) as Hr.
        assert (Hrep : representable (F2Q (Z.pos p) 0)).
        { exists (Z.pos p), 0%Z. rewrite emin_eq. change prec with 53%Z.
          change (emax - 53)%Z with 971%Z. repeat split; lia. }
        destruct (rounded_exact _ _ Hr Hrep) as [Hx Hv].
        split; [exact Hx|]. split; [|split; assumption].
        rewrite Hv. unfold F2Q. change (pow2 0) with 1. ring.
Qed.


Lemma increment_eq (r : number) : increment r = add (mul r c09) c001.
Proof.
  unfold increment.
  replace (sub (of_decimal 1 (-1)) (of_decimal 1 (-2))) with c09 by (vm_compute; reflexivity).
  replace (of_decimal 1 (-2)) with c001 by (vm_compute; reflexivity).
  reflexivity.
Qed.

(** A Number below 1 is at most [1 - 2^-53]. *)
Lemma below_one (r : number) :
  nonneg r -> value r < 1 -> value r <= F2Q (2 ^ 53 - 1) (-53).
Proof.
  intros Hr H1.
  destruct (no_number_between (2 ^ 53 - 1) (-53) (value r) (nonneg_representable r Hr))
    as [H|H]; [lia | lia | right; lia | exact H |].
  assert (F2Q (2 ^ 53 - 1 + 1) (-53) == 1) by (vm_compute; reflexivity). lra.
Qed.


(** The increment of a tick, for every draw in [0, 1): at least the Number
    [0.01] and at most the Number just below the Number [0.1]. *)
Lemma increment_between (r : number) :
  nonneg r -> value r < 1 ->
  nonneg (increment r) /\
  value c001 <= value (increment r) <= F2Q 7205759403792793 (-56).
Proof.
  intros Hr H1. rewrite increment_eq.
  pose proof (below_one r Hr H1) as Hr1. pose proof (value_nonneg r Hr) as Hr0.
  assert (Hc09 : nonneg c09) by reflexivity.
  assert (Hc001 : nonneg c001) by reflexivity.
  assert (Ea : F2Q (2 ^ 53 - 1) (-53) == 9007199254740991 # 9007199254740992)
    by (vm_compute; reflexivity).
  assert (Ec : value c09 == 6485183463413515 # 72057594037927936) by (vm_compute; reflexivity).
  assert (Ed : value c001 == 5764607523034235 # 576460752303423488)
    by (vm_compute; reflexivity).
  (* the product *)
  pose proof (mul_rounded r c09 Hr Hc09) as Hm.
  assert (Hz1 : value r * value c09
                <= (9007199254740991 # 9007199254740992) * (6485183463413515 # 72057594037927936)).
  { rewrite Ec. apply Qmult_le_compat_r; [lra|]. discriminate. }
  assert (El1 : F2Q 6485183463413514 (-56) == 6485183463413514 # 72057594037927936)
    by (vm_compute; reflexivity).
  assert (Eh1 : F2Q (6485183463413514 + 1) (-56) == 6485183463413515 # 72057594037927936)
    by (vm_compute; reflexivity).
  destruct (rounded_down _ _ 6485183463413514 (-56) Hm) as [Hx1 Hv1];
    [lia | lia | right; lia | apply representable_intro; lia
     | apply representable_intro; lia | rewrite El1, Eh1; lra |].
  pose proof (value_nonneg _ Hx1) as Hx10.
  (* the sum *)
  pose proof (add_rounded _ c001 Hx1 Hc001) as Ha.
  assert (El2 : F2Q 7205759403792793 (-56) == 7205759403792793 # 72057594037927936)
    by (vm_compute; reflexivity).
  assert (Eh2 : F2Q (7205759403792793 + 1) (-56) == 7205759403792794 # 72057594037927936)
    by (vm_compute; reflexivity).
  destruct (rounded_down _ _ 7205759403792793 (-56) Ha) as [Hx2 Hv2];
    [lia | lia | right; lia | apply representable_intro; lia
     | apply representable_intro; lia | rewrite El2, Eh2; lra |].
  split; [exact Hx2|].
  pose proof (rounded_ge _ (value c001) _ Ha Hx2 (nonneg_representable _ Hc001) ltac:(lra))
    as Hlow.
  split; [exact Hlow | exact Hv2].
Qed.

(** As reals: above 0.01 and below 0.1. *)
Lemma increment_bounds (r : number) :
  nonneg r -> value r < 1 ->
  nonneg (increment r) /\ 1 # 100 < value (increment r) /\ value (increment r) < 1 # 10.
Proof.
  intros Hr H1. destruct (increment_between r Hr H1) as (Hx & Hlo & Hhi).
  assert (Ed : value c001 == 5764607523034235 # 576460752303423488)
    by (vm_compute; reflexivity).
  assert (El2 : F2Q 7205759403792793 (-56) == 7205759403792793 # 72057594037927936)
    by (vm_compute; reflexivity).
  split; [exact Hx|]. split; lra.
Qed.


(** One update of the balance, for a balance up to [limit] and an increment
    between 0.01 and 0.1: the new balance is the Number nearest to a whole
    number of hundredths that is within 0.0052 of the sum, and lies above
    the old one by 0.004 to 0.11. *)
Lemma newBalance_steps (b d : number) :
  nonneg b -> value b <= limit -> nonneg d -> 1 # 100 <= value d <= 1 # 10 ->
  nonneg (newBalance b d) /\
  value b + (1 # 250) <= value (newBalance b d) <= value b + (11 # 100) /\
  exists n : Z, (0 < n)%Z /\ rounded (inject_Z n / 100) (newBalance b d) /\
    value b + value d - (52 # 10000) <= inject_Z n / 100
      <= value b + value d + (52 # 10000).
Proof.
  unfold limit. intros Hb Hlim Hd [Hd1 Hd2]. unfold newBalance.
  pose proof (value_nonneg b Hb) as Hb0.
  assert (Hh : nonneg hundred) by reflexivity.
  assert (Eh : value hundred == 100) by (vm_compute; reflexivity).
  assert (E40 : pow2 (-13 + 53) == 1099511627776) by (vm_compute; reflexivity).
  assert (E14 : pow2 (-13 - 1) == 1 # 16384) by (vm_compute; reflexivity).
  assert (E47 : pow2 (-6 + 53) == 140737488355328) by (vm_compute; reflexivity).
  assert (E7 : pow2 (-6 - 1) == 1 # 128) by (vm_compute; reflexivity).
  (* the sum *)
  pose proof (add_rounded b d Hb Hd) as Hs.
  destruct (rounded_error _ _ (-13) Hs) as [Hxs Hvs]; [lia | rewrite E40; lra |].
  rewrite E14 in Hvs. set (s := add b d) in *.
  (* times one hundred *)
  pose proof (mul_rounded s hundred Hxs Hh) as Hp.
  apply (rounded_proper _ (value s * 100)) in Hp; [|rewrite Eh; reflexivity].
  destruct (rounded_error _ _ (-6) Hp) as [Hxp Hvp]; [lia | rewrite E47; lra |].
  rewrite E7 in Hvp. set (p := mul s hundred) in *.
  (* to the nearest whole number *)
  destruct (Math_round_spec p Hxp) as (n & HxR & HvR & Hn). set (R := Math_round p) in *.
  assert (Hn1 : (0 < n)%Z).
  { rewrite Zlt_Qlt. change (inject_Z 0) with 0. lra. }
  assert (Hn1' : 1 <= inject_Z n).
  { change 1 with (inject_Z 1). rewrite <- Zle_Qle. lia. }
  (* and back *)
  assert (Hq : rounded (inject_Z n / 100) (div R hundred)).
  { apply (rounded_proper (value R / value hundred)); [rewrite HvR, Eh; reflexivity|].
    apply div_rounded; [exact HxR | exact Hh | rewrite Eh; reflexivity |].
    apply Qle_trans with (pow2 (-6 - 1)); [apply pow2_le; lia|].
    rewrite E7, HvR, Eh. apply Qle_shift_div_l; [reflexivity|]. lra. }
  assert (Ediv : inject_Z n / 100 == inject_Z n * (1 # 100)) by reflexivity.
  pose proof Hq as Hq'. apply (rounded_proper _ _ _ Ediv) in Hq'.
  destruct (rounded_error _ _ (-13) Hq') as [Hxq Hvq]; [lia | rewrite E40; lra |].
  rewrite E14 in Hvq.
  split; [exact Hxq|]. split; [split; lra|].
  exists n. split; [exact Hn1|]. split; [exact Hq|]. rewrite Ediv. split; lra.
Qed.

Lemma newBalance_bounds (b d : number) :
  nonneg b -> value b <= limit -> nonneg d -> 1 # 100 <= value d <= 1 # 10 ->
  nonneg (newBalance b d) /\
  value b + (1 # 250) <= value (newBalance b d) <= value b + (11 # 100) /\
  exists n : Z, (0 < n)%Z /\ rounded (inject_Z n / 100) (newBalance b d).
Proof.
  intros Hb Hlim Hd Hr.
  destruct (newBalance_steps b d Hb Hlim Hd Hr) as (H1 & H2 & n & H3 & H4 & _).
  split; [exact H1|]. split; [exact H2|]. exists n. split; assumption.
Qed.

(** X15.  The increment of a tick, [Math.random() * (0.1 - 0.01) + 0.01]:
    for every draw in [0, 1) the tests [0.01 <= increment] and
    [increment < 0.1] of JavaScript hold, and as a real the increment lies
    strictly between 0.01 and 0.1. *)
Theorem increment_in_range (r : number) :
  draw r ->
  le (of_decimal 1 (-2)) (increment r) = true /\
  lt (increment r) (of_decimal 1 (-1)) = true /\
  1 # 100 < value (increment r) /\ value (increment r) < 1 # 10.
Proof.
  intros [Hr H1]. destruct (increment_between r Hr H1) as (Hx & Hlo & Hhi).
  destruct (increment_bounds r Hr H1) as (_ & Hb1 & Hb2).
  replace (of_decimal 1 (-2)) with c001 by (vm_compute; reflexivity).
  replace (of_decimal 1 (-1)) with c01 by (vm_compute; reflexivity).
  split; [apply le_value; [reflexivity | exact Hx | exact Hlo]|].
  split; [|split; assumption].
  apply lt_value; [exact Hx | reflexivity|].
  apply Qle_lt_trans with (F2Q 7205759403792793 (-56)); [exact Hhi|].
  simpl value. apply F2Q_lt. lia.
Qed.

Lemma increment_in_range_witness :
  let r := of_decimal 5 (-1) in
  draw r /\ lt (increment r) (of_decimal 1 (-1)) = true.
Proof.
  intros r.
  assert (Hr : draw r) by (split; [reflexivity | vm_compute; reflexivity]).
  split; [exact Hr|]. exact (proj1 (proj2 (increment_in_range r Hr))).
Defined.

(** What one tick does to the balance. *)
Lemma tick_balance (b r : number) :
  nonneg b -> value b <= limit -> draw r ->
  nonneg (newBalance b (increment r)) /\
  value b + (1 # 250) <= value (newBalance b (increment r)) <= value b + (11 # 100) /\
  exists n : Z, (0 < n)%Z /\ rounded (inject_Z n / 100) (newBalance b (increment r)).
Proof.
  intros Hb Hlim [Hr H1]. destruct (increment_bounds r Hr H1) as (Hx & Hlo & Hhi).
  apply newBalance_bounds; [exact Hb | exact Hlim | exact Hx | split; lra].
Qed.

(** X16.  One tick on a balance of at most 10^12: the flag is left alone,
    the balance goes up, by at least 0.004 and at most 0.11, to the Number
    nearest to a whole number of hundredths; one write is made, of the string
    of the new balance under the balance key, and when it fails the storage
    keeps what it had while the screen shows the new balance. *)
Theorem tick_raises_balance (r : number) (s : State) (w : World) :
  nonneg (captBalance s) -> value (captBalance s) <= limit -> draw r ->
  let '(s', w') := tick r s w in
  isLocationSharingEnabled s' = isLocationSharingEnabled s /\
  lt (captBalance s) (captBalance s') = true /\
  value (captBalance s) + (1 # 250) <= value (captBalance s')
    <= value (captBalance s) + (11 # 100) /\
  (exists n : Z, (0 < n)%Z /\ rounded (inject_Z n / 100) (captBalance s')) /\
  map fst (since w w') = [ESetItem STORAGE_KEYS_CAPT_BALANCE (toString (captBalance s'))] /\
  storage w' = match faults w (length (calls w)) with
               | None => <[STORAGE_KEYS_CAPT_BALANCE := toString (captBalance s')]> (storage w)
               | Some _ => storage w
               end.
Proof.
  intros Hb Hlim Hr. destruct (tick_balance _ r Hb Hlim Hr) as (Hx & Hv & Hn).
  unfold tick. cbn [setCaptBalance captBalance isLocationSharingEnabled].
  split; [reflexivity|].
  split; [apply lt_value; [exact Hb | exact Hx | lra]|].
  split; [exact Hv|]. split; [exact Hn|].
  unfold exec. destruct (faults w (length (calls w))); simpl; show_log; split; reflexivity.
Qed.

Lemma tick_raises_balance_witness :
  let r := of_decimal 5 (-1) in
  let s := mkState true (of_decimal 1234 (-2)) in
  let w := phone "12.34" "0" no_faults in
  captBalance (fst (tick r s w)) = of_decimal 1240 (-2) /\
  lt (captBalance s) (captBalance (fst (tick r s w))) = true /\
  storage (snd (tick r s w)) !! STORAGE_KEYS_CAPT_BALANCE = Some "12.4".
Proof.
  intros r s w.
  assert (Hb : nonneg (captBalance s)) by reflexivity.
  assert (Hlim : value (captBalance s) <= limit) by (vm_compute; discriminate).
  assert (Hr : draw r) by (split; [reflexivity | vm_compute; reflexivity]).
  generalize (tick_raises_balance r s w Hb Hlim Hr).
  destruct (tick r s w) as [s' w'] eqn:E. intros (_ & Hlt & _).
  split; [|split; [exact Hlt|]].
  - change s' with (fst (s', w')). rewrite <- E. vm_compute. reflexivity.
  - change w' with (snd (s', w')). rewrite <- E. vm_compute. reflexivity.
Defined.

Lemma periods_running (rs : list number) :
  forall (s : State) (w : World),
  isLocationSharingEnabled s = true -> nonneg (captBalance s) ->
  Forall draw rs ->
  value (captBalance s) + (11 # 100) * inject_Z (Z.of_nat (length rs)) <= limit ->
  isLocationSharingEnabled (fst (periods true rs s w)) = true /\
  nonneg (captBalance (fst (periods true rs s w))) /\
  value (captBalance s) + (1 # 250) * inject_Z (Z.of_nat (length rs))
    <= value (captBalance (fst (periods true rs s w)))
    <= value (captBalance s) + (11 # 100) * inject_Z (Z.of_nat (length rs)) /\
  length (calls (snd (periods true rs s w))) = (length (calls w) + length rs)%nat.
Proof.
  induction rs as [|r rs IH]; intros s w Hflag Hb Hrs Hlim.
  - cbn [periods fst snd length]. change (inject_Z (Z.of_nat 0)) with 0.
    split; [exact Hflag|]. split; [exact Hb|].
    split; [split; lra | cbn [length]; lia].
  - apply Forall_cons_1 in Hrs as [Hr Hrs].
    assert (HN : 0 <= inject_Z (Z.of_nat (length rs))).
    { change 0 with (inject_Z 0). rewrite <- Zle_Qle. lia. }
    assert (ES : inject_Z (Z.of_nat (length (r :: rs))) == inject_Z (Z.of_nat (length rs)) + 1).
    { cbn [length]. rewrite Nat2Z.inj_succ. unfold Z.succ. rewrite inject_Z_plus. reflexivity. }
    rewrite ES in Hlim. rewrite ES.
    destruct (tick_balance (captBalance s) r Hb ltac:(lra) Hr) as (Hx & Hv & _).
    cbn [periods]. unfold period, interval_running. rewrite Hflag. cbn [andb].
    unfold tick. set (b' := newBalance (captBalance s) (increment r)) in *.
    set (s1 := setCaptBalance b' s).
    set (w1 := snd (exec (storage_setItem STORAGE_KEYS_CAPT_BALANCE (toString b')) w)).
    assert (Hw1 : length (calls w1) = S (length (calls w))).
    { subst w1. unfold exec. destruct (faults w (length (calls w))); simpl;
        rewrite length_app; simpl; lia. }
    destruct (IH s1 w1) as (H1 & H2 & H3 & H4);
      [exact Hflag | exact Hx | exact Hrs | cbn [s1 setCaptBalance captBalance]; lra |].
    cbn [s1 setCaptBalance captBalance] in H3.
    split; [exact H1|]. split; [exact H2|]. split; [split; lra|].
    rewrite H4, Hw1. cbn [length]. lia.
Qed.

(** X17.  The ticks of a screen that shares its location and has the focus,
    one for each draw, on a balance that stays below 10^12: the flag stays
    on, the balance does not go down, each tick adds between 0.004 and 0.11
    to it, and each makes one write. *)
Theorem periods_raise_balance (rs : list number) (s : State) (w : World) :
  isLocationSharingEnabled s = true -> nonneg (captBalance s) ->
  Forall draw rs ->
  value (captBalance s) + (11 # 100) * inject_Z (Z.of_nat (length rs)) <= limit ->
  let '(s', w') := periods true rs s w in
  isLocationSharingEnabled s' = true /\
  le (captBalance s) (captBalance s') = true /\
  value (captBalance s) + (1 # 250) * inject_Z (Z.of_nat (length rs))
    <= value (captBalance s')
    <= value (captBalance s) + (11 # 100) * inject_Z (Z.of_nat (length rs)) /\
  length (since w w') = length rs.
Proof.
  intros Hflag Hb Hrs Hlim.
  pose proof (periods_running rs s w Hflag Hb Hrs Hlim) as (H1 & H2 & H3 & H4).
  destruct (periods true rs s w) as [s' w']. cbn [fst snd] in *.
  assert (HN : 0 <= inject_Z (Z.of_nat (length rs))).
  { change 0 with (inject_Z 0). rewrite <- Zle_Qle. lia. }
  split; [exact H1|].
  split; [apply le_value; [exact Hb | exact H2 | lra]|].
  split; [exact H3|].
  unfold since. rewrite length_drop. lia.
Qed.

Lemma periods_raise_balance_witness :
  let half := of_decimal 5 (-1) in
  let s := mkState true zero in
  let w := phone "0" "0" no_faults in
  le zero (captBalance (fst (periods true [half; zero; half] s w))) = true /\
  captBalance (fst (periods true [half; zero; half] s w)) = of_decimal 13 (-2).
Proof.
  intros half s w.
  assert (Hh : draw half) by (split; [reflexivity | vm_compute; reflexivity]).
  assert (Hz : draw zero) by (split; [exact I | vm_compute; reflexivity]).
  assert (Hrs : Forall draw [half; zero; half]) by (repeat constructor; assumption).
  assert (Hlim : value (captBalance s)
                 + (11 # 100) * inject_Z (Z.of_nat (length [half; zero; half])) <= limit)
    by (vm_compute; discriminate).
  generalize (periods_raise_balance [half; zero; half] s w eq_refl I Hrs Hlim).
  destruct (periods true [half; zero; half] s w) as [s' w'] eqn:E. intros (_ & Hle & _).
  split; [exact Hle|].
  change s' with (fst (s', w')). rewrite <- E. vm_compute. reflexivity.
Defined.

Lemma F2Q_pow (e : Z) : F2Q (2 ^ 53) e == pow2 (e + 53).
Proof. unfold F2Q. rewrite pow2_add, (pow2_Z 53) by lia. ring. Qed.

(** From [2^52] on the Numbers are whole and a unit or more apart: adding
    less than one half to one gives it back. *)
Lemma add_absorbs (b d : number) :
  nonneg b -> inject_Z (2 ^ 52) <= value b -> value b <= inject_Z (10 ^ 300) ->
  nonneg d -> value d < 1 # 2 -> add b d = b.
Proof.
  intros Hb Hlo Hhi Hd Hd2.
  assert (E52 : inject_Z (2 ^ 52) == pow2 52) by (symmetry; apply pow2_Z; lia).
  pose proof (pow2_pos 52) as H52.
  destruct b as [[]|[]| |[] m e]; simpl in Hb; try tauto.
  { change (value (S754_zero false)) with 0 in Hlo. lra. }
  simpl value in Hlo, Hhi.
  destruct (bounded_cases m e Hb) as (Hre & Hm & Hn).
  assert (He0 : (0 <= e)%Z).
  { destruct (Z_le_gt_dec 0 e) as [|Hgt]; [assumption|exfalso].
    assert (F2Q (Z.pos m) e < F2Q (2 ^ 53) e) by (apply F2Q_lt; lia).
    rewrite F2Q_pow in H.
    assert (pow2 (e + 53) <= pow2 52) by (apply pow2_le; lia). lra. }
  assert (He1 : (e <= 970)%Z).
  { destruct (Z_le_gt_dec e 970) as [|Hgt]; [assumption|exfalso].
    assert (e = 971%Z) as -> by lia.
    destruct Hn as [Hn|Hn]; [lia|].
    assert (F2Q (2 ^ 52) 971 <= F2Q (Z.pos m) 971) by (apply F2Q_le; lia).
    assert (inject_Z (10 ^ 300) < F2Q (2 ^ 52) 971) by (vm_compute; reflexivity).
    lra. }
  assert (Hm52 : (2 ^ 52 <= Z.pos m)%Z) by (destruct Hn; lia).
  pose proof (add_rounded (S754_finite false m e) d Hb Hd) as Ha. simpl value in Ha.
  pose proof (value_nonneg d Hd) as Hd0.
  assert (Hgap : F2Q (Z.pos m + 1) e == F2Q (Z.pos m) e + pow2 e).
  { rewrite F2Q_plus. unfold F2Q at 2. change (inject_Z 1) with 1. ring. }
  assert (Hone : 1 <= pow2 e).
  { change 1 with (pow2 0). apply pow2_le. exact He0. }
  destruct (rounded_down _ _ (Z.pos m) e Ha) as [Hx Hv];
    [lia | lia | right; exact Hm52 | apply representable_intro; lia
     | apply representable_intro; lia | rewrite Hgap; lra |].
  assert (Hrep : representable (F2Q (Z.pos m) e)) by (apply representable_intro; lia).
  assert (Hsum : F2Q (Z.pos m) e <= F2Q (Z.pos m) e + value d) by lra.
  pose proof (rounded_ge _ _ _ Ha Hx Hrep Hsum) as Hge.
  apply value_inj; [exact Hx | exact Hb |].
  change (value (S754_finite false m e)) with (F2Q (Z.pos m) e). lra.
Qed.

(** X18.  A balance from [2^52] on no longer grows: whatever the draw, the
    increment is lost in the sum, and the tick gives what a tick with no
    increment gives. *)
Theorem draw_lost_on_large_balance (b r : number) :
  nonneg b -> inject_Z (2 ^ 52) <= value b -> value b <= inject_Z (10 ^ 300) -> draw r ->
  add b (increment r) = b /\
  newBalance b (increment r) = div (Math_round (mul b hundred)) hundred.
Proof.
  intros Hb Hlo Hhi [Hr H1]. destruct (increment_bounds r Hr H1) as (Hx & _ & Hd).
  assert (Ha : add b (increment r) = b) by (apply add_absorbs; try assumption; lra).
  split; [exact Ha|]. unfold newBalance. rewrite Ha. reflexivity.
Qed.

Lemma draw_lost_on_large_balance_witness :
  let b := of_Z 9000000000000007 in
  let r := of_decimal 5 (-1) in
  newBalance b (increment r) = of_Z 9000000000000006.
Proof.
  intros b r.
  assert (Hb : nonneg b) by reflexivity.
  assert (Hlo : inject_Z (2 ^ 52) <= value b) by (vm_compute; discriminate).
  assert (Hhi : value b <= inject_Z (10 ^ 300)) by (vm_compute; discriminate).
  assert (Hr : draw r) by (split; [reflexivity | vm_compute; reflexivity]).
  rewrite (proj2 (draw_lost_on_large_balance b r Hb Hlo Hhi Hr)).
  vm_compute. reflexivity.
Defined.

End TickFacts.
(* ===================================================================== *)
(** * The accumulator over many ticks *)
(* ===================================================================== *)

Module AccumulatorFacts.
Import QArith Qround Lqa Qpower Qabs.
Import JsNumber Backend Async Invocation Stepping Scenario Rewards.
Import Exact ExactFacts RoundingFacts OrderFacts Ticks TickFacts.
Local Open Scope Q_scope.

#[local] Arguments pow2 : simpl never.
#[local] Arguments F2Q : simpl never.
#[local] Arguments toString : simpl never.
#[local] Arguments newBalance : simpl never.
#[local] Arguments increment : simpl never.






End AccumulatorFacts.
